(** * ng-swagger-gen: the intermediate model behind the generator

    A shallow embedding of [ng-swagger-gen.js]: type resolution
    ([propertyType]), model construction ([processModels]), service
    construction ([processServices]), dependency resolution
    ([DependenciesResolver]) and tag filtering ([applyTagFilter],
    [collectDependencies]).

    Conventions of the embedding.
    - A JavaScript string is a [string]; one character stands for one
      code unit, and [<] / [>] on strings is the lexicographic order on
      code units.
    - A JavaScript object used as a dictionary is an association list
      kept in the order in which [for (k in o)] visits its keys: keys
      that are array indices first, ascending, then the other keys in
      insertion order.  [Obj.get] looks up own keys; where the code
      reads a key that the dictionary may merely inherit, the members
      that every object inherits are told by [Obj.inherits].
    - An object that is shared and mutated through references (a model
      descriptor, a service descriptor) lives in the dictionary that
      owns it and is referred to by its key.
    - [console.log] produces no value and is left out; what the logged
      expression reads is kept, since reading can throw.
    - A thrown exception and [process.exit] are results of their own. *)

From Stdlib Require Import String Ascii List Bool Arith ZArith Lia.
From Stdlib Require Import Sorting.Sorted Sorting.Permutation.
From Stdlib Require Import Structures.OrderedTypeEx DecimalString.
Import ListNotations.
Set Warnings "-register-all".
Open Scope string_scope.
Open Scope list_scope.

(** String concatenation, the [+] of JavaScript on two strings. *)
Infix "+++" := String.append (at level 60, right associativity).

(** ** Results of a run *)

Inductive js_error : Type :=
| TypeError (what : string)
| ReferenceError (ident : string)
| RangeError (what : string).

Inductive result (A : Type) : Type :=
| Ok (a : A)
| Throw (e : js_error)
| Exit (code : Z).
Arguments Ok {A} a.
Arguments Throw {A} e.
Arguments Exit {A} code.

Definition bind {A B : Type} (r : result A) (k : A -> result B) : result B :=
  match r with
  | Ok a => k a
  | Throw e => Throw e
  | Exit c => Exit c
  end.

Notation "x <- c ;; k" := (bind c (fun x => k))
  (at level 61, c at next level, right associativity).
Notation "c ;;; k" := (bind c (fun _ => k))
  (at level 61, right associativity).

(** [arr.forEach(f)] and [for] loops whose body may throw: the state is
    threaded from left to right and the first failure ends the loop. *)
Fixpoint forEach {A S : Type} (f : S -> A -> result S) (l : list A) (s : S)
  : result S :=
  match l with
  | [] => Ok s
  | x :: l' => s' <- f s x ;; forEach f l' s'
  end.

(** ** Strings *)

Module JsString.

(** [s.indexOf(pat)], with [-1] for no occurrence. *)
Definition indexOf (s pat : string) : Z :=
  match String.index 0 pat s with
  | Some n => Z.of_nat n
  | None => (-1)%Z
  end.

(** Position of the last occurrence of [pat] at or after offset [i]. *)
Fixpoint lastIndexOf_from (i : nat) (s pat : string) : option nat :=
  match s with
  | EmptyString => if String.prefix pat s then Some i else None
  | String _ s' =>
      match lastIndexOf_from (S i) s' pat with
      | Some j => Some j
      | None => if String.prefix pat s then Some i else None
      end
  end.

(** [s.lastIndexOf(pat)]. *)
Definition lastIndexOf (s pat : string) : Z :=
  match lastIndexOf_from 0 s pat with
  | Some n => Z.of_nat n
  | None => (-1)%Z
  end.

(** [s.substr(start, len)]: [len] characters from [start]; a negative
    [start] counts from the end, and both are clamped to the string. *)
Definition substr (s : string) (start len : Z) : string :=
  let size := Z.of_nat (String.length s) in
  let from := if (start <? 0)%Z then Z.max (size + start) 0
              else Z.min start size in
  let count := Z.min (Z.max len 0) (size - from) in
  String.substring (Z.to_nat from) (Z.to_nat count) s.

(** [s.substr(start)]: everything from [start]. *)
Definition substr_from (s : string) (start : Z) : string :=
  substr s start (Z.of_nat (String.length s)).

(** [s.replace(pat, by)] with a string pattern: only the first
    occurrence is replaced.  The replacement texts of this program hold
    no [$$], [$&], [$`], [$'] or [$n] sequence, so they are inserted as
    they are. *)
Definition replace (s pat by_ : string) : string :=
  let pos := indexOf s pat in
  if (pos <? 0)%Z then s
  else substr s 0 pos +++ by_
       +++ substr_from s (pos + Z.of_nat (String.length pat)).

(** [s.split(sep)] for a one-character separator. *)
Fixpoint split (sep : ascii) (s : string) : list string :=
  match s with
  | EmptyString => [EmptyString]
  | String c s' =>
      if Ascii.eqb c sep then EmptyString :: split sep s'
      else match split sep s' with
           | [] => [String c EmptyString]
           | w :: ws => String c w :: ws
           end
  end.

Definition is_digit (c : ascii) : bool :=
  let n := nat_of_ascii c in Nat.leb 48 n && Nat.leb n 57.

(** [/2\d\d/.test(s)]: the pattern is not anchored, so it asks for a
    [2] followed by two digits anywhere in [s]. *)
Fixpoint test_2dd (s : string) : bool :=
  match s with
  | String c1 ((String c2 (String c3 _)) as s') =>
      (Ascii.eqb c1 "2" && is_digit c2 && is_digit c3) || test_2dd s'
  | _ => false
  end.

(** [a < b] and [a > b] on strings. *)
Definition lt (a b : string) : bool := String.ltb a b.
Definition gt (a b : string) : bool := String.ltb b a.

End JsString.

(** ** Objects used as dictionaries *)

Module Obj.

Definition t (V : Type) : Type := list (string * V).

(** [o[k]]; [None] is [undefined]. *)
Fixpoint get {V : Type} (k : string) (o : t V) : option V :=
  match o with
  | [] => None
  | (k', v) :: o' => if String.eqb k k' then Some v else get k o'
  end.

Definition has {V : Type} (k : string) (o : t V) : bool :=
  match get k o with Some _ => true | None => false end.

Definition keys {V : Type} (o : t V) : list string := map fst o.

Fixpoint digits_value (acc : N) (s : string) : option N :=
  match s with
  | EmptyString => Some acc
  | String c s' =>
      if JsString.is_digit c
      then digits_value (10 * acc + (N_of_ascii c - 48))%N s'
      else None
  end.

(** A key is an array index when it is the decimal text, without
    leading zero, of an integer below [2^32 - 1]. *)
Definition array_index (k : string) : option N :=
  match k with
  | EmptyString => None
  | String c rest =>
      if Ascii.eqb c "0" && negb (String.eqb rest EmptyString) then None
      else match digits_value 0 k with
           | Some n => if (n <? 4294967295)%N then Some n else None
           | None => None
           end
  end.

(** Place of a new array-index key: before the first key that is a
    larger index or is no index at all. *)
Fixpoint insert_index {V : Type} (n : N) (k : string) (v : V) (o : t V)
  : t V :=
  match o with
  | [] => [(k, v)]
  | (k', v') :: o' =>
      match array_index k' with
      | Some n' => if (n <? n')%N then (k, v) :: o
                   else (k', v') :: insert_index n k v o'
      | None => (k, v) :: o
      end
  end.

Fixpoint replace_value {V : Type} (k : string) (v : V) (o : t V) : t V :=
  match o with
  | [] => []
  | (k', v') :: o' =>
      if String.eqb k k' then (k', v) :: o'
      else (k', v') :: replace_value k v o'
  end.

(** [o[k] = v]: an existing key keeps its place. *)
Definition set {V : Type} (k : string) (v : V) (o : t V) : t V :=
  if has k o then replace_value k v o
  else match array_index k with
       | Some n => insert_index n k v o
       | None => o ++ [(k, v)]
       end.

(** [delete o[k]]. *)
Definition delete {V : Type} (k : string) (o : t V) : t V :=
  filter (fun '(k', _) => negb (String.eqb k k')) o.

(** The members that every object inherits from [Object.prototype]:
    under one of these names [o[k]] is not [undefined] even when [o]
    has no such key of its own; each of them is a function, but for
    [__proto__], which is the prototype itself. *)
Definition prototype_members : list string :=
  ["constructor"; "__defineGetter__"; "__defineSetter__";
   "hasOwnProperty"; "__lookupGetter__"; "__lookupSetter__";
   "isPrototypeOf"; "propertyIsEnumerable"; "toString"; "valueOf";
   "__proto__"; "toLocaleString"].

Definition inherits (k : string) : bool :=
  existsb (String.eqb k) prototype_members.

End Obj.

(** ** Schema fragments and type expressions *)

(** The value of the [x-type] vendor extension as JSON gives it. *)
Inductive xvalue : Type :=
| XString (s : string)
| XNumber (n : Z)
| XBool (b : bool)
| XArray (items : list xvalue).

Definition x_truthy (x : xvalue) : bool :=
  match x with
  | XString s => negb (String.eqb s "")
  | XNumber n => negb (n =? 0)%Z
  | XBool b => b
  | XArray _ => true
  end.

(** [x.toString()]; an array joins its elements with commas. *)
Fixpoint x_toString (x : xvalue) : string :=
  match x with
  | XString s => s
  | XNumber n => NilZero.string_of_int (Z.to_int n)
  | XBool b => if b then "true" else "false"
  | XArray items =>
      (fix join (l : list xvalue) : string :=
         match l with
         | [] => ""
         | [y] => x_toString y
         | y :: l' => x_toString y +++ "," +++ join l'
         end) items
  end.

(** A schema fragment: a definition, a property, the items of an array,
    a response schema, or the type fields of a parameter.  A member that
    is absent or [null] is [None]; [description] is not kept.
    [additionalProperties: true] is written as the empty fragment, which
    resolves to the same type. *)
Inductive schema : Type :=
| Schema
    (ref : option string)
    (xtype : option xvalue)
    (type : option string)
    (items : option schema)
    (properties : option (Obj.t schema))
    (additionalProperties : option schema)
    (allOf : option (list schema))
    (required : option (list string))
    (enum : option (list string)).

Definition s_ref (s : schema) : option string :=
  let 'Schema r _ _ _ _ _ _ _ _ := s in r.
Definition s_type (s : schema) : option string :=
  let 'Schema _ _ t _ _ _ _ _ _ := s in t.
Definition s_properties (s : schema) : option (Obj.t schema) :=
  let 'Schema _ _ _ _ p _ _ _ _ := s in p.
Definition s_allOf (s : schema) : option (list schema) :=
  let 'Schema _ _ _ _ _ _ a _ _ := s in a.
Definition s_required (s : schema) : option (list string) :=
  let 'Schema _ _ _ _ _ _ _ r _ := s in r.
Definition s_enum (s : schema) : option (list string) :=
  let 'Schema _ _ _ _ _ _ _ _ e := s in e.

(** [{}]. *)
Definition empty_schema : schema :=
  Schema None None None None None None None None None.

(** The values found where a type expression is expected: a string, an
    inline structural type (the object with [allTypes] and [toString]),
    and the [null] / [undefined] that some paths let through. *)
Inductive jsType : Type :=
| TUndefined
| TNull
| TString (s : string)
| TInline (allTypes : list jsType) (def : string).

(** String conversion, as done by [+] with a string and by a property
    key. *)
Definition type_toString (t : jsType) : string :=
  match t with
  | TUndefined => "undefined"
  | TNull => "null"
  | TString s => s
  | TInline _ def => def
  end.

(** [!!t]. *)
Definition type_truthy (t : jsType) : bool :=
  match t with
  | TUndefined | TNull => false
  | TString s => negb (String.eqb s "")
  | TInline _ _ => true
  end.

(** [a === b] when [a] was already stored and [b] is the value at hand:
    strings and [null] / [undefined] compare by value; an inline
    structural type is an object made anew by each call of
    [propertyType], so it is identical to nothing stored before. *)
Definition type_strict_eq (a b : jsType) : bool :=
  match a, b with
  | TUndefined, TUndefined => true
  | TNull, TNull => true
  | TString x, TString y => String.eqb x y
  | _, _ => false
  end.

(** [arr.indexOf(t) >= 0]. *)
Definition type_mem (t : jsType) (arr : list jsType) : bool :=
  existsb (fun a => type_strict_eq a t) arr.

(** [simpleRef(ref)]; [None] is the [null] it returns. *)
Definition simpleRef (ref : option string) : option string :=
  match ref with
  | None => None
  | Some r =>
      if String.eqb r "" then None
      else
        let index := JsString.lastIndexOf r "/" in
        if (index >=? 0)%Z then Some (JsString.substr_from r (index + 1))
        else Some r
  end.

(** [removeBrackets(type)].  An inline structural type is an object
    without [indexOf], so the call of that member throws. *)
Definition removeBrackets (type : jsType) : result jsType :=
  match type with
  | TInline _ _ => Throw (TypeError "type.indexOf is not a function")
  | TString s =>
      let pos := JsString.indexOf s "[" in
      if (pos >=? 0)%Z then Ok (TString (JsString.substr s 0 pos))
      else Ok type
  | _ => Ok type
  end.

(** The loop of [propertyType] over the members of an inline object:
    it carries [first], [allTypes] and [def]; [resolve] is the recursive
    call. *)
Definition inline_members (resolve : schema -> jsType)
  : Obj.t schema -> bool * list jsType * string
    -> bool * list jsType * string :=
  fix loop (ps : Obj.t schema) (st : bool * list jsType * string)
    {struct ps} :=
    match ps with
    | [] => st
    | (name, prop) :: ps' =>
        let '(first, allTypes, def) := st in
        let def := if first then def else def +++ ", " in
        let type := resolve prop in
        let allTypes :=
          if type_mem type allTypes then allTypes else allTypes ++ [type] in
        loop ps' (false, allTypes, def +++ name +++ ": " +++ type_toString type)
    end.

(** [propertyType(property)] on a fragment that is not [null]. *)
Fixpoint propertyType (property : schema) : jsType :=
  match property with
  | Schema ref xtype type items properties additionalProperties _ _ _ =>
    match ref with
    | Some r =>
        match simpleRef (Some r) with
        | Some name => TString name
        | None => TNull
        end
    | None =>
      if match xtype with Some x => x_truthy x | None => false end then
        let type :=
          JsString.replace
            (match xtype with Some x => x_toString x | None => "" end)
            "List<" "Array<" in
        let pos := JsString.indexOf type "Array<" in
        let type :=
          if (pos >=? 0)%Z
          then JsString.substr type (Z.of_nat (String.length "Array<"))
                 (Z.of_nat (String.length type) - 1) +++ "[]"
          else type in
        if Nat.eqb (String.length type) 0 then TString "void"
        else TString type
      else
        let case (c : string) :=
          match type with Some t => String.eqb t c | None => false end in
        if case "string" then TString "string"
        else if case "array" then
          TString (type_toString
                     (match items with
                      | Some i => propertyType i
                      | None => TString "void"
                      end) +++ "[]")
        else if case "integer" || case "number" then TString "number"
        else if case "boolean" then TString "Boolean"
        else if case "object" then
          let '(first, allTypes, def) :=
            match properties with
            | Some props => inline_members propertyType props (true, [], "{")
            | None => (true, [], "{")
            end in
          match additionalProperties with
          | Some extra =>
              let def := if first then def else def +++ ", " in
              let type := propertyType extra in
              let allTypes :=
                if type_mem type allTypes then allTypes
                else allTypes ++ [type] in
              TInline allTypes
                (def +++ "[key: string]: " +++ type_toString type +++ "}")
          | None => TInline allTypes (def +++ "}")
          end
        else TString "any"
    end
  end.

(** [propertyType(property)] where [property] may be [null] or
    [undefined]. *)
Definition propertyType_of (property : option schema) : jsType :=
  match property with
  | None => TString "void"
  | Some p => propertyType p
  end.

(** [toPathExpression(path)]; the argument is always a path key. *)
Definition toPathExpression (path : string) : string :=
  JsString.replace path "{" "${params.".

(** ** Descriptors *)

(** A reference to what [models[key]] is: the model descriptor that
    [models] holds under [key] or, under a key that [models] does not
    hold, the member of that name that every object inherits, which is
    no model and has neither a [modelName] nor [modelDependencies]. *)
Inductive model_ref : Type := ModelRef (key : string).

Definition ref_key (r : model_ref) : string :=
  let 'ModelRef k := r in k.

Definition is_lower (c : ascii) : bool :=
  let n := nat_of_ascii c in Nat.leb 97 n && Nat.leb n 122.

(** [c.toUpperCase()] and [c.toLowerCase()] on the letters of ASCII. *)
Definition toUpperCase_char (c : ascii) : ascii :=
  if is_lower c then ascii_of_nat (nat_of_ascii c - 32) else c.
Definition toLowerCase_char (c : ascii) : ascii :=
  let n := nat_of_ascii c in
  if Nat.leb 65 n && Nat.leb n 90 then ascii_of_nat (n + 32) else c.

Fixpoint toLowerCase (s : string) : string :=
  match s with
  | EmptyString => EmptyString
  | String c s' => String (toLowerCase_char c) (toLowerCase s')
  end.

(** [toEnumName(value)]. *)
Fixpoint toEnumName_from (wasLower : bool) (value : string) : string :=
  match value with
  | EmptyString => EmptyString
  | String c rest =>
      let isLower := is_lower c in
      let sep := if negb isLower && wasLower then "_" else "" in
      sep +++ String (toUpperCase_char c) (toEnumName_from isLower rest)
  end.
Definition toEnumName (value : string) : string :=
  toEnumName_from false value.

Module EnumValue.
Record t : Type := Build {
  enumName : string;
  enumValue : string;
  last : bool
}.
End EnumValue.

(** The descriptor of one property; [propertyComments] is not kept, and
    a [last] that was never assigned is [false]. *)
Module Property.
Record t : Type := Build {
  propertyName : string;
  propertyRequired : bool;
  propertyType : jsType;
  last : bool
}.

(** [p[member]] for the members that hold a string; a member the
    descriptor does not have reads as [undefined], here [None]. *)
Definition string_member (p : t) (member : string) : option string :=
  if String.eqb member "propertyName" then Some (propertyName p)
  else None.

Definition set_last (p : t) : t :=
  Build (propertyName p) (propertyRequired p) (propertyType p) true.
End Property.

(** The descriptor of one model.  [modelClass] repeats [modelName];
    [modelFile] and [modelComments] are not kept; the keyed [properties]
    object holds the very descriptors of [modelProperties] and is
    represented by them.  [modelProperties] and [modelDependencies] are
    [None] while the member is [undefined]. *)
Module Model.
Inductive parent : Type :=
| NoParent
| ParentName (name : string)
| ParentModel (r : model_ref).

Record t : Type := Build {
  modelName : string;
  modelParent : parent;
  modelIsObject : bool;
  modelIsEnum : bool;
  modelEnumValues : option (list EnumValue.t);
  modelSubclasses : list model_ref;
  modelProperties : option (list Property.t);
  modelDependencies : option (list model_ref)
}.

Definition set_parent (v : parent) (m : t) : t :=
  Build (modelName m) v (modelIsObject m) (modelIsEnum m)
    (modelEnumValues m) (modelSubclasses m) (modelProperties m)
    (modelDependencies m).

Definition push_subclass (r : model_ref) (m : t) : t :=
  Build (modelName m) (modelParent m) (modelIsObject m) (modelIsEnum m)
    (modelEnumValues m) (modelSubclasses m ++ [r]) (modelProperties m)
    (modelDependencies m).

Definition set_dependencies (d : list model_ref) (m : t) : t :=
  Build (modelName m) (modelParent m) (modelIsObject m) (modelIsEnum m)
    (modelEnumValues m) (modelSubclasses m) (modelProperties m) (Some d).
End Model.

(** The mutation of the object that a dictionary holds under [k]. *)
Fixpoint update {V : Type} (k : string) (f : V -> V) (o : Obj.t V)
  : Obj.t V :=
  match o with
  | [] => []
  | (k', v) :: o' =>
      if String.eqb k k' then (k', f v) :: o'
      else (k', v) :: update k f o'
  end.

(** ** Arrays *)

(** [arr.sort(compare)].  For a comparator that is consistent the
    language fixes the result: the stable arrangement in which no element
    compares greater than a later one.  Insertion from the right, each
    element stopping in front of the first one it does not exceed, gives
    that arrangement. *)
Fixpoint sort_insert {A : Type} (compare : A -> A -> Z) (x : A)
  (sorted : list A) : list A :=
  match sorted with
  | [] => [x]
  | y :: rest =>
      if (compare x y >? 0)%Z then y :: sort_insert compare x rest
      else x :: sorted
  end.

Definition array_sort {A : Type} (compare : A -> A -> Z) (arr : list A)
  : list A :=
  fold_right (sort_insert compare) [] arr.

(** [arr[arr.length - 1] = f(arr[arr.length - 1])], guarded by
    [arr.length > 0]. *)
Fixpoint update_last {A : Type} (f : A -> A) (arr : list A) : list A :=
  match arr with
  | [] => []
  | [x] => [f x]
  | x :: rest => x :: update_last f rest
  end.

(** [a < b] and [a > b] when each side is a string or [undefined]:
    [undefined] converts to [NaN], which is below and above nothing. *)
Definition js_lt (a b : option string) : bool :=
  match a, b with
  | Some x, Some y => JsString.lt x y
  | _, _ => false
  end.
Definition js_gt (a b : option string) : bool := js_lt b a.

(** ** DependenciesResolver *)

Module DependenciesResolver.
(** [this.models] is the dictionary of models itself and is passed
    along; a service resolver is made without [ownType], which is then
    [undefined]. *)
Record t : Type := Build {
  ownType : jsType;
  dependencies : list model_ref;
  dependencyNames : list jsType
}.

Definition new (ownType : jsType) : t := Build ownType [] [].

(** [DependenciesResolver.prototype.add].  [this.models[dep]] is a
    model that the dictionary holds, or a member that it inherits, or
    [undefined]; the first two are pushed. *)
Definition add (models : Obj.t Model.t) (this : t) (dep : jsType)
  : result t :=
  dep <- removeBrackets dep ;;
  if negb (type_mem dep (dependencyNames this))
     && negb (type_strict_eq (ownType this) dep)
  then
    let pushed :=
      Build (ownType this)
        (dependencies this ++ [ModelRef (type_toString dep)])
        (dependencyNames this ++ [dep]) in
    match Obj.get (type_toString dep) models with
    | Some depModel => Ok pushed
    | None =>
        if Obj.inherits (type_toString dep) then Ok pushed else Ok this
    end
  else Ok this.

(** [DependenciesResolver.prototype.get]. *)
Definition get (this : t) : list model_ref := dependencies this.
End DependenciesResolver.

(** ** The document *)

(** A parameter object.  [fields] is the object itself as
    [propertyType] reads it ([$ref], [x-type], [type], [items], ...);
    [description] is not kept. *)
Record parameter : Type := ParameterObject {
  p_name : string;
  p_in : string;
  p_required : bool;
  p_schema : option schema;
  p_fields : schema;
  p_collectionFormat : option string
}.

(** An operation object; a member that is absent is [None], and a
    response is represented by its [schema] member. *)
Record operationDef : Type := OperationDef {
  tags : option (list string);
  operationId : option string;
  parameters : option (list parameter);
  responses : option (Obj.t (option schema))
}.

(** A path item: its operations by method, [None] for a [null] one. *)
Definition pathItem : Type := Obj.t (option operationDef).

Record swagger_doc : Type := Swagger {
  definitions : Obj.t schema;
  paths : Obj.t pathItem;
  global_parameters : Obj.t parameter
}.

(** ** processModels *)

(** [processProperties(swagger, properties, requiredProperties)]. *)
Definition processProperties (properties : Obj.t schema)
  (requiredProperties : list string) : Obj.t Property.t :=
  fold_left
    (fun result '(name, property) =>
       Obj.set name
         (Property.Build name
            (existsb (String.eqb name) requiredProperties)
            (propertyType property) false)
         result)
    properties [].

(** The enum descriptors that replace the values of [model.enum]. *)
Fixpoint enum_descriptors (enumValues : list string) : list EnumValue.t :=
  match enumValues with
  | [] => []
  | enumValue :: rest =>
      EnumValue.Build (toEnumName enumValue) enumValue
        (match rest with [] => true | _ => false end)
      :: enum_descriptors rest
  end.

(** The comparator handed to [descriptor.modelProperties.sort]. *)
Definition compare_properties (a b : Property.t) : Z :=
  if js_lt (Property.string_member a "modelName")
       (Property.string_member b "modelName")
  then (-1)%Z
  else if js_gt (Property.string_member a "modelName")
            (Property.string_member b "modelName")
  then 1%Z else 0%Z.

Definition default {A : Type} (d : A) (o : option A) : A :=
  match o with Some a => a | None => d end.

Definition type_is (model : schema) (t : string) : bool :=
  match s_type model with Some t' => String.eqb t' t | None => false end.

(** The body of the first loop of [processModels]: the descriptor of
    the definition [name]. *)
Definition describe_model (name : string) (model : schema)
  : result Model.t :=
  shape <-
    match s_allOf model with
    | Some (first :: others) =>
        let second :=
          match others with s :: _ => s | [] => empty_schema end in
        Ok (simpleRef (s_ref first),
            Some (default [] (s_properties second)),
            default [] (s_required second),
            None)
    | _ =>
        if type_is model "object" then
          Ok (None, Some (default [] (s_properties model)),
              default [] (s_required model), None)
        else if type_is model "string" then
          let enumValues := default [] (s_enum model) in
          if Nat.eqb (List.length enumValues) 0 then Exit 1
          else Ok (None, None, [], Some (enum_descriptors enumValues))
        else Exit 1
    end ;;
  let '(parent, properties, requiredProperties, enumValues) := shape in
  Ok (Model.Build name
        (match parent with
         | Some p => Model.ParentName p
         | None => Model.NoParent
         end)
        (match properties with Some _ => true | None => false end)
        (match enumValues with Some _ => true | None => false end)
        enumValues
        []
        (match properties with
         | Some props =>
             Some (update_last Property.set_last
                     (array_sort compare_properties
                        (map snd (processProperties props
                                    requiredProperties))))
         | None => None
         end)
        None).

(** The body of the second loop: the parent name becomes the parent
    model, which learns of its subclass. *)
Definition link_hierarchy (models : Obj.t Model.t) (name : string)
  : result (Obj.t Model.t) :=
  match Obj.get name models with
  | None => Ok models
  | Some model =>
      if negb (Model.modelIsObject model) then Ok models
      else
        match Model.modelParent model with
        | Model.ParentName parentName =>
            if String.eqb parentName "" then Ok models
            else
              match Obj.get parentName models with
              | None =>
                  Throw (TypeError "models[parentName] is undefined")
              | Some _ =>
                  Ok (update parentName
                        (Model.push_subclass (ModelRef name))
                        (update name
                           (Model.set_parent
                              (Model.ParentModel (ModelRef parentName)))
                           models))
              end
        | _ => Ok models
        end
  end.

(** [r.modelName] for a model reference. *)
Definition modelName_of (models : Obj.t Model.t) (r : model_ref)
  : result jsType :=
  match Obj.get (ref_key r) models with
  | Some m => Ok (TString (Model.modelName m))
  | None =>
      Throw (TypeError
        "Cannot read properties of undefined (reading 'modelName')")
  end.

(** The dependencies that one property adds. *)
Definition add_property_dependencies (models : Obj.t Model.t)
  (dependencies : DependenciesResolver.t) (property : Property.t)
  : result DependenciesResolver.t :=
  match Property.propertyType property with
  | TUndefined | TNull =>
      Throw (TypeError "Cannot read properties of null (reading 'allTypes')")
  | TInline allTypes _ =>
      forEach (DependenciesResolver.add models) allTypes dependencies
  | type => DependenciesResolver.add models dependencies type
  end.

(** The body of the third loop. *)
Definition resolve_dependencies (models : Obj.t Model.t) (name : string)
  : result (Obj.t Model.t) :=
  match Obj.get name models with
  | None => Ok models
  | Some model =>
      if negb (Model.modelIsObject model) then Ok models
      else
        let dependencies :=
          DependenciesResolver.new (TString (Model.modelName model)) in
        dependencies <-
          match Model.modelParent model with
          | Model.ParentModel r =>
              parentName <- modelName_of models r ;;
              DependenciesResolver.add models dependencies parentName
          | Model.ParentName p =>
              if String.eqb p "" then Ok dependencies
              else DependenciesResolver.add models dependencies TUndefined
          | Model.NoParent => Ok dependencies
          end ;;
        dependencies <-
          forEach
            (fun deps child =>
               childName <- modelName_of models child ;;
               DependenciesResolver.add models deps childName)
            (Model.modelSubclasses model) dependencies ;;
        dependencies <-
          match Model.modelProperties model with
          | Some modelProperties =>
              forEach (add_property_dependencies models) modelProperties
                dependencies
          | None =>
              Throw (TypeError
                "Cannot read properties of undefined (reading 'length')")
          end ;;
        Ok (update name
              (Model.set_dependencies
                 (DependenciesResolver.get dependencies))
              models)
  end.

(** [processModels(swagger)]. *)
Definition processModels (swagger : swagger_doc) : result (Obj.t Model.t) :=
  models <-
    forEach
      (fun models '(name, model) =>
         descriptor <- describe_model name model ;;
         Ok (Obj.set name descriptor models))
      (definitions swagger) [] ;;
  models <- forEach link_hierarchy (Obj.keys models) models ;;
  forEach resolve_dependencies (Obj.keys models) models.

(** ** processServices *)

(** The descriptor of one parameter; [paramDescription] and
    [paramComments] are not kept. *)
Module Param.
Record t : Type := Build {
  paramName : string;
  paramIn : string;
  paramRequired : bool;
  paramIsQuery : bool;
  paramIsPath : bool;
  paramIsHeader : bool;
  paramIsBody : bool;
  paramIsArray : bool;
  paramType : jsType;
  paramCollectionFormat : option string;
  last : bool
}.

Definition set_last (p : t) : t :=
  Build (paramName p) (paramIn p) (paramRequired p) (paramIsQuery p)
    (paramIsPath p) (paramIsHeader p) (paramIsBody p) (paramIsArray p)
    (paramType p) (paramCollectionFormat p) true.
End Param.

(** The descriptor of one operation; [operationComments] is not
    kept. *)
Module Operation.
(** What [operationResponses] holds: under [resultType] a type, under
    a status code the object with [code] and [type]. *)
Inductive responseEntry : Type :=
| ResultType (type : jsType)
| Response (code : string) (type : jsType).

Record t : Type := Build {
  operationName : string;
  operationParamsClass : option string;
  operationMethod : string;
  operationPath : string;
  operationPathExpression : string;
  operationResultType : jsType;
  operationParameters : list Param.t;
  operationResponses : Obj.t responseEntry;
  operationIsVoid : bool;
  operationIsString : bool;
  operationIsNumber : bool;
  operationIsBoolean : bool;
  operationIsEnum : bool;
  operationIsObject : bool;
  operationIsUnknown : bool
}.
End Operation.

(** The descriptor of one service; [serviceClass] and [serviceFile] are
    not kept, and [serviceDependencies] is [None] while the member is
    [undefined]. *)
Module Service.
Record t : Type := Build {
  serviceName : string;
  serviceOperations : list Operation.t;
  serviceDependencies : option (list model_ref)
}.

Definition push_operation (op : Operation.t) (s : t) : t :=
  Build (serviceName s) (serviceOperations s ++ [op])
    (serviceDependencies s).

Definition set_dependencies (d : list model_ref) (s : t) : t :=
  Build (serviceName s) (serviceOperations s) (Some d).
End Service.

(** [!!e] for what [operationResponses.resultType] reads. *)
Definition entry_truthy (e : option Operation.responseEntry) : bool :=
  match e with
  | None => false
  | Some (Operation.ResultType t) => type_truthy t
  | Some (Operation.Response _ _) => true
  end.

(** [e.type]: a string and an inline structural type have no such
    member. *)
Definition entry_type (e : Operation.responseEntry) : jsType :=
  match e with
  | Operation.ResultType _ => TUndefined
  | Operation.Response _ type => type
  end.

(** [processResponses(def, path, models)]. *)
Definition processResponses (def : operationDef)
  : Obj.t Operation.responseEntry :=
  let operationResponses :=
    fold_left
      (fun acc '(code, response) =>
         match response with
         | None => acc
         | Some schema =>
             let type := propertyType schema in
             let acc :=
               if JsString.test_2dd code
               then Obj.set "resultType" (Operation.ResultType type) acc
               else acc in
             Obj.set code (Operation.Response code type) acc
         end)
      (default [] (responses def)) [] in
  if negb (entry_truthy (Obj.get "resultType" operationResponses))
  then Obj.set "resultType" (Operation.ResultType (TString "void"))
         operationResponses
  else operationResponses.

(** The identifiers that resolve where the body of [processServices]
    runs: its parameters and [var]s, the bindings of the module, the
    arguments of the module wrapper, and the globals of the runtime. *)
Definition processServices_locals : list string :=
  ["swagger"; "models"; "services"; "url"; "path"; "method"; "def";
   "tags"; "tag"; "descriptor"; "id"; "operationParameters"; "p";
   "param"; "paramType"; "paramDescriptor"; "paramsClass";
   "operationResponses"; "resultType"; "docString"; "i"; "operation";
   "modelResult"; "dependencies"; "op"; "code"; "response"; "j";
   "arguments"].

Definition module_bindings : list string :=
  ["fs"; "url"; "http"; "https"; "path"; "Mustache"; "ngSwaggerGen";
   "doGenerate"; "applyTagFilter"; "collectDependencies"; "mkdirs";
   "rmIfExists"; "toFileName"; "simpleRef"; "toEnumName"; "toComments";
   "DependenciesResolver"; "processModels"; "removeBrackets";
   "propertyType"; "processProperties"; "resolveRef"; "processResponses";
   "toPathExpression"; "processServices";
   "exports"; "require"; "module"; "__filename"; "__dirname"].

Definition runtime_globals : list string :=
  ["globalThis"; "global"; "console"; "process"; "Buffer"; "setTimeout";
   "clearTimeout"; "setInterval"; "clearInterval"; "setImmediate";
   "clearImmediate"; "queueMicrotask"; "structuredClone"; "URL";
   "URLSearchParams"; "TextEncoder"; "TextDecoder"; "AbortController";
   "AbortSignal"; "Event"; "EventTarget"; "MessageChannel";
   "MessagePort"; "MessageEvent"; "performance"; "fetch"; "WebAssembly";
   "Object"; "Function"; "Array"; "Number"; "Boolean"; "String";
   "Symbol"; "BigInt"; "Math"; "Date"; "RegExp"; "Error"; "TypeError";
   "RangeError"; "ReferenceError"; "SyntaxError"; "EvalError";
   "URIError"; "JSON"; "Promise"; "Proxy"; "Reflect"; "Map"; "Set";
   "WeakMap"; "WeakSet"; "ArrayBuffer"; "SharedArrayBuffer"; "DataView";
   "Atomics"; "Int8Array"; "Uint8Array"; "Uint8ClampedArray";
   "Int16Array"; "Uint16Array"; "Int32Array"; "Uint32Array";
   "Float32Array"; "Float64Array"; "BigInt64Array"; "BigUint64Array";
   "Intl"; "NaN"; "Infinity"; "undefined"; "eval"; "isFinite"; "isNaN";
   "parseFloat"; "parseInt"; "decodeURI"; "decodeURIComponent";
   "encodeURI"; "encodeURIComponent"; "escape"; "unescape"].

(** Reading the identifier [x]: a name that resolves nowhere throws. *)
Definition read_identifier (x : string) : result unit :=
  if existsb (String.eqb x)
       (processServices_locals ++ module_bindings ++ runtime_globals)
  then Ok tt
  else Throw (ReferenceError x).

(** [resolveRef(swagger, ref)].  Of the members of the document only
    [parameters] holds parameter objects; a walk through another member,
    or to a member that [parameters] merely inherits, is not represented
    and counts as [undefined], here [None]. *)
Definition resolveRef (swagger : swagger_doc) (ref : string)
  : result (option parameter) :=
  if negb (JsString.indexOf ref "#/" =? 0)%Z then Exit 1
  else
    match JsString.split "/" (JsString.substr_from ref 2) with
    | [section; key] =>
        if String.eqb section "parameters"
        then Ok (Obj.get key (global_parameters swagger))
        else Ok None
    | _ => Ok None
    end.

(** The comparator handed to [operationParameters.sort]. *)
Definition compare_parameters (a b : Param.t) : Z :=
  if Param.paramRequired a && negb (Param.paramRequired b) then (-1)%Z
  else if negb (Param.paramRequired a) && Param.paramRequired b then 1%Z
  else if JsString.gt (Param.paramName a) (Param.paramName b) then (-1)%Z
  else if JsString.lt (Param.paramName a) (Param.paramName b) then 1%Z
  else 0%Z.

(** The descriptor pushed for one element of [def.parameters]. *)
Definition describe_parameter (swagger : swagger_doc) (param : parameter)
  : result Param.t :=
  param <-
    match s_ref (p_fields param) with
    | Some ref =>
        if String.eqb ref "" then Ok param
        else
          resolved <- resolveRef swagger ref ;;
          match resolved with
          | Some p => Ok p
          | None =>
              Throw (TypeError
                "Cannot read properties of undefined (reading 'schema')")
          end
    | None => Ok param
    end ;;
  let paramType :=
    match p_schema param with
    | Some schema => propertyType schema
    | None => propertyType (p_fields param)
    end in
  Ok (Param.Build (p_name param) (p_in param)
        (p_required param || String.eqb (p_in param) "path")
        (String.eqb (p_in param) "query")
        (String.eqb (p_in param) "path")
        (String.eqb (p_in param) "header")
        (String.eqb (p_in param) "body")
        (type_is (p_fields param) "array")
        paramType
        (p_collectionFormat param)
        false).

(** [operationParameters] once sorted and flagged. *)
Definition order_parameters (operationParameters : list Param.t)
  : list Param.t :=
  update_last Param.set_last
    (array_sort compare_parameters operationParameters).

(** [id.charAt(0).toUpperCase() + id.substr(1)]. *)
Definition capitalize (id : string) : string :=
  match id with
  | EmptyString => EmptyString
  | String c rest => String (toUpperCase_char c) rest
  end.

(** What the loops of [processServices] carry: the dictionary of
    services and the function-scoped [tag], [None] while it is
    [undefined].  [descriptor] is the service that [services] holds
    under [tag]: the two are always assigned together. *)
Definition services_state : Type := (Obj.t Service.t * option string)%type.

(** The type under [operationResponses.resultType], and the model that
    [models[removeBrackets(resultType)]] finds. *)
Definition result_model (models : Obj.t Model.t)
  (operationResponses : Obj.t Operation.responseEntry)
  : result (jsType * option Model.t) :=
  match Obj.get "resultType" operationResponses with
  | Some (Operation.ResultType resultType) =>
      stripped <- removeBrackets resultType ;;
      Ok (resultType, Obj.get (type_toString stripped) models)
  | _ => Throw (TypeError "type.indexOf is not a function")
  end.

(** The body of the loop over the methods of one path. *)
Definition process_operation (swagger : swagger_doc)
  (models : Obj.t Model.t) (url : string) (st : services_state)
  (entry : string * option operationDef) : result services_state :=
  let '(method, def) := entry in
  let '(services, tag0) := st in
  match def with
  | None => Ok st
  | Some def =>
      let tags := default [] (tags def) in
      if Nat.eqb (List.length tags) 0 then
        read_identifier "name" ;;; Ok st
      else if Nat.ltb 1 (List.length tags) then
        read_identifier "name" ;;; Ok st
      else
        let tag := hd "" tags in
        let services :=
          if Obj.has tag services then services
          else Obj.set tag (Service.Build tag [] None) services in
        match operationId def with
        | None => read_identifier "name" ;;; Ok (services, Some tag)
        | Some id =>
            described <-
              match parameters def with
              | Some ps =>
                  forEach
                    (fun acc param =>
                       d <- describe_parameter swagger param ;;
                       Ok (acc ++ [d]))
                    ps []
              | None =>
                  Throw (TypeError
                    "Cannot read properties of undefined (reading 'length')")
              end ;;
            let operationParameters := order_parameters described in
            let paramsClass :=
              if Nat.eqb (List.length operationParameters) 0 then None
              else Some (capitalize id +++ "Params") in
            let operationResponses := processResponses def in
            found <- result_model models operationResponses ;;
            let '(resultType, modelResult) := found in
            let result_is (t : string) :=
              type_strict_eq resultType (TString t) in
            let isEnum :=
              match modelResult with
              | Some m => Model.modelIsEnum m
              | None => false
              end in
            let isObject :=
              match modelResult with
              | Some m => Model.modelIsObject m
              | None => false
              end in
            let operation :=
              Operation.Build id paramsClass (toLowerCase method) url
                (toPathExpression url) resultType operationParameters
                operationResponses
                (result_is "void") (result_is "string")
                (result_is "number") (result_is "boolean")
                isEnum isObject
                (negb (result_is "void" || result_is "string"
                       || result_is "number" || result_is "boolean"
                       || isEnum || isObject)) in
            Ok (update tag (Service.push_operation operation) services,
                Some tag)
        end
  end.

(** The dependencies that one operation adds to a service. *)
Definition add_operation_dependencies (models : Obj.t Model.t)
  (dependencies : DependenciesResolver.t) (op : Operation.t)
  : result DependenciesResolver.t :=
  dependencies <-
    forEach
      (fun deps '(code, response) =>
         DependenciesResolver.add models deps (entry_type response))
      (Operation.operationResponses op) dependencies ;;
  forEach
    (fun deps param =>
       DependenciesResolver.add models deps (Param.paramType param))
    (Operation.operationParameters op) dependencies.

(** The body of the loop over the paths: the operations of the path,
    then the dependencies of the service that [descriptor] is at that
    point. *)
Definition process_path (swagger : swagger_doc) (models : Obj.t Model.t)
  (st : services_state) (entry : string * pathItem)
  : result services_state :=
  let '(url, path) := entry in
  st <- forEach (process_operation swagger models url) path st ;;
  let '(services, tag) := st in
  match tag with
  | None =>
      Throw (TypeError
        "Cannot read properties of undefined (reading 'serviceOperations')")
  | Some tag =>
      match Obj.get tag services with
      | None =>
          Throw (TypeError
            "Cannot read properties of undefined (reading 'serviceOperations')")
      | Some descriptor =>
          dependencies <-
            forEach (add_operation_dependencies models)
              (Service.serviceOperations descriptor)
              (DependenciesResolver.new TUndefined) ;;
          Ok (update tag
                (Service.set_dependencies
                   (DependenciesResolver.get dependencies))
                services,
              Some tag)
      end
  end.

(** [processServices(swagger, models)]. *)
Definition processServices (swagger : swagger_doc) (models : Obj.t Model.t)
  : result (Obj.t Service.t) :=
  st <- forEach (process_path swagger models) (paths swagger) ([], None) ;;
  Ok (fst st).

(** ** applyTagFilter *)

(** A [Set]: its elements in insertion order, each once. *)
Definition set_add {A : Type} (eqb : A -> A -> bool) (x : A) (s : list A)
  : list A :=
  if existsb (eqb x) s then s else s ++ [x].

Definition ref_eqb (a b : model_ref) : bool :=
  String.eqb (ref_key a) (ref_key b).

(** [collectDependencies(dependencies, model, models)].  [fuel] bounds
    the depth of the calls; a reference that leads to no model stands
    for an [undefined] one. *)
Fixpoint collectDependencies (fuel : nat) (models : Obj.t Model.t)
  (dependencies : list string) (model : model_ref)
  : option (list string) :=
  match fuel with
  | O => None
  | S fuel' =>
      match Obj.get (ref_key model) models with
      | None => Some dependencies
      | Some m =>
          if existsb (String.eqb (Model.modelName m)) dependencies
          then Some dependencies
          else
            let dependencies := dependencies ++ [Model.modelName m] in
            match Model.modelDependencies m with
            | None => Some dependencies
            | Some deps =>
                fold_left
                  (fun acc dep =>
                     match acc with
                     | Some d => collectDependencies fuel' models d dep
                     | None => None
                     end)
                  deps (Some dependencies)
            end
      end
  end.

(** The first loop of [applyTagFilter]: the services kept and the
    models they use. *)
Definition filter_service (includeTags : option (list string))
  (ignoreUnusedModels : bool)
  (st : Obj.t Service.t * list model_ref) (entry : string * Service.t)
  : result (Obj.t Service.t * list model_ref) :=
  let '(serviceName, service) := entry in
  let '(services, usedModels) := st in
  let include :=
    match includeTags with
    | None => true
    | Some tags => existsb (String.eqb serviceName) tags
    end in
  if negb include then Ok (Obj.delete serviceName services, usedModels)
  else if ignoreUnusedModels then
    match Service.serviceDependencies service with
    | Some deps =>
        Ok (services,
            fold_left (fun used dep => set_add ref_eqb dep used)
              deps usedModels)
    | None =>
        Throw (TypeError
          "Cannot read properties of undefined (reading 'forEach')")
    end
  else Ok st.

(** [applyTagFilter(models, services, includeTags, ignoreUnusedModels)];
    it returns the two dictionaries as it leaves them.  The calls of
    [collectDependencies] are given more depth than there are models. *)
Definition applyTagFilter (models : Obj.t Model.t)
  (services : Obj.t Service.t) (includeTags : option (list string))
  (ignoreUnusedModels : bool)
  : result (Obj.t Model.t * Obj.t Service.t) :=
  st <- forEach (filter_service includeTags ignoreUnusedModels) services
          (services, []) ;;
  let '(services, usedModels) := st in
  if ignoreUnusedModels then
    match
      fold_left
        (fun acc dep =>
           match acc with
           | Some d =>
               collectDependencies (S (List.length models)) models d dep
           | None => None
           end)
        usedModels (Some [])
    with
    | Some allDependencies =>
        Ok (filter
              (fun '(modelName, _) =>
                 existsb (String.eqb modelName) allDependencies)
              models,
            services)
    | None => Throw (RangeError "Maximum call stack size exceeded")
    end
  else Ok (models, services).

(** The [includeTags] option as [doGenerate] receives it, and the value
    it hands to [applyTagFilter]: a string is split at its commas. *)
Inductive includeTags_option : Type :=
| TagsAbsent
| TagsText (s : string)
| TagsList (l : list string).

Definition includeTags_of (o : includeTags_option) : option (list string) :=
  match o with
  | TagsAbsent => None
  | TagsText s => Some (JsString.split "," s)
  | TagsList l => Some l
  end.

(** ** Sample documents *)

Definition schema_ref (target : string) : schema :=
  Schema (Some target) None None None None None None None None.
Definition schema_of_type (t : string) : schema :=
  Schema None None (Some t) None None None None None None.
Definition schema_object (props : Obj.t schema) : schema :=
  Schema None None (Some "object") None (Some props) None None None None.
Definition schema_xtype (x : xvalue) : schema :=
  Schema None (Some x) None None None None None None None.

(** A query parameter of type string. *)
Definition query_parameter (name : string) (required : bool) : parameter :=
  ParameterObject name "query" required None (schema_of_type "string") None.

(** [{"Pet": {"type": "object",
              "properties": {"b": {"type": "string"},
                             "a": {"type": "string"}}}}] *)
Definition unsorted_definitions : swagger_doc :=
  Swagger
    [("Pet", schema_object [("b", schema_of_type "string");
                            ("a", schema_of_type "string")])]
    [] [].

(** One path with a tagged operation followed by one whose [tags] is
    empty:
    [{"/pets": {"get":  {"tags": ["Pets"], "operationId": "list",
                         "parameters": [], "responses": {}},
                "post": {"tags": [], "operationId": "add",
                         "parameters": [], "responses": {}}}}] *)
Definition untagged_sibling : swagger_doc :=
  Swagger []
    [("/pets",
      [("get", Some (OperationDef (Some ["Pets"]) (Some "list")
                       (Some []) (Some [])));
       ("post", Some (OperationDef (Some []) (Some "add")
                        (Some []) (Some [])))])]
    [].

(** One path whose two operations carry different tags; the first
    answers with the model [Foo]:
    [{"/p": {"get":  {"tags": ["A"], "operationId": "a", "parameters": [],
                      "responses": {"200": {"schema":
                                      {"$ref": "#/definitions/Foo"}}}},
             "post": {"tags": ["B"], "operationId": "b", "parameters": [],
                      "responses": {}}}}] *)
Definition two_tags_one_path : swagger_doc :=
  Swagger
    [("Foo", schema_object [])]
    [("/p",
      [("get", Some (OperationDef (Some ["A"]) (Some "a") (Some [])
                       (Some [("200",
                               Some (schema_ref "#/definitions/Foo"))])));
       ("post", Some (OperationDef (Some ["B"]) (Some "b") (Some [])
                        (Some [])))])]
    [].

(** An operation whose body parameter is an inline object that holds a
    model:
    [{"/q": {"put": {"tags": ["A"], "operationId": "put",
                     "parameters": [{"name": "body", "in": "body",
                        "schema": {"type": "object", "properties":
                           {"foo": {"$ref": "#/definitions/Foo"}}}}],
                     "responses": {}}}}] *)
Definition inline_body : swagger_doc :=
  Swagger
    [("Foo", schema_object [])]
    [("/q",
      [("put", Some (OperationDef (Some ["A"]) (Some "put")
                       (Some [ParameterObject "body" "body" false
                                (Some (schema_object
                                         [("foo",
                                           schema_ref "#/definitions/Foo")]))
                                empty_schema None])
                       (Some [])))])]
    [].

(** Responses [200] and [201], each with a schema:
    [{"200": {"schema": {"$ref": "#/definitions/Foo"}},
      "201": {"schema": {"$ref": "#/definitions/Baz"}}}] *)
Definition two_successes : operationDef :=
  OperationDef (Some ["A"]) (Some "create") (Some [])
    (Some [("200", Some (schema_ref "#/definitions/Foo"));
           ("201", Some (schema_ref "#/definitions/Baz"))]).

(** The parameters [b] (optional), [a] and [c] (required). *)
Definition three_parameters : list parameter :=
  [query_parameter "b" false; query_parameter "a" true;
   query_parameter "c" true].


(** Three models in a cycle with a self reference and an edge that leads
    nowhere: [A -> B, A -> A, A -> gone, B -> C, C -> A]. *)
Definition cyclic_models : Obj.t Model.t :=
  let model (name : string) (deps : list string) :=
    (name, Model.Build name Model.NoParent true false None []
             (Some []) (Some (map ModelRef deps))) in
  [model "A" ["B"; "A"; "gone"]; model "B" ["C"]; model "C" ["A"]].

(** Two services, [Pets] and [Users], without dependencies. *)
Definition two_services : Obj.t Service.t :=
  [("Pets", Service.Build "Pets" [] (Some []));
   ("Users", Service.Build "Users" [] (Some []))].

(** ** What the specification says, for comparison *)

(** The result type as the specification words it: the type of the
    first declared code that matches the 2xx pattern and carries a
    schema, and [void] without one. *)
Definition spec_first_2xx_type (responses : Obj.t (option schema))
  : jsType :=
  match
    filter
      (fun '(code, response) =>
         JsString.test_2dd code
         && match response with Some _ => true | None => false end)
      responses
  with
  | (_, Some schema) :: _ => propertyType schema
  | _ => TString "void"
  end.

(** The type of the last code, in the order of enumeration, that
    matches the 2xx pattern and carries a schema. *)
Definition last_2xx_type (responses : Obj.t (option schema))
  : option jsType :=
  match
    rev (filter
           (fun '(code, response) =>
              JsString.test_2dd code
              && match response with Some _ => true | None => false end)
           responses)
  with
  | (_, Some schema) :: _ => Some (propertyType schema)
  | _ => None
  end.

(** Retention as the specification words it: everything when
    [includeTags] is empty or absent, membership otherwise. *)
Definition spec_retained (includeTags : option (list string))
  (serviceName : string) : bool :=
  match includeTags with
  | None | Some [] => true
  | Some tags => existsb (String.eqb serviceName) tags
  end.

(** The order of the parameters as the specification words it: a
    required parameter before an optional one, and within a group no
    name before a greater one. *)
Definition precedes (a b : Param.t) : Prop :=
  (Param.paramRequired a = true /\ Param.paramRequired b = false)
  \/ (Param.paramRequired a = Param.paramRequired b
      /\ JsString.lt (Param.paramName a) (Param.paramName b) = false).

(** What the order of the parameters looks at. *)
Definition param_key (p : Param.t) : string * bool :=
  (Param.paramName p, Param.paramRequired p).

(** [arr[arr.length - 1]], [None] on the empty array. *)
Fixpoint final {A : Type} (arr : list A) : option A :=
  match arr with
  | [] => None
  | [x] => Some x
  | _ :: rest => final rest
  end.

(** The operation of the parameter example:
    [{"/pets": {"get": {"tags": ["Pets"], "operationId": "find",
        "parameters": [{"name": "b", "in": "query", "type": "string"},
                       {"name": "a", "in": "query", "type": "string",
                        "required": true},
                       {"name": "c", "in": "query", "type": "string",
                        "required": true}],
        "responses": {}}}}] *)
Definition three_parameters_doc : swagger_doc :=
  Swagger []
    [("/pets",
      [("get", Some (OperationDef (Some ["Pets"]) (Some "find")
                       (Some three_parameters) (Some [])))])]
    [].

(** Every element of [deps] is a model that [models] holds. *)
Definition all_resolved (models : Obj.t Model.t) (deps : list model_ref)
  : Prop :=
  forall r, In r deps -> Obj.has (ref_key r) models = true.

(** A type expression in which no [undefined] stands for a member
    type. *)
Definition members_defined (t : jsType) : Prop :=
  match t with
  | TInline allTypes _ => ~ In TUndefined allTypes
  | _ => True
  end.

(** The state of a resolver in which the names recorded are strings,
    each recorded once, and the dependencies are the models under those
    names. *)
Definition names_distinct (this : DependenciesResolver.t) : Prop :=
  DependenciesResolver.dependencies this
  = map (fun n => ModelRef (type_toString n))
      (DependenciesResolver.dependencyNames this)
  /\ Forall (fun n => exists s, n = TString s)
       (DependenciesResolver.dependencyNames this)
  /\ NoDup (DependenciesResolver.dependencyNames this).

(** A resolver whose dependencies are models that exist and, when no
    model is named [null], are the models of distinct names. *)
Definition resolver_good (models : Obj.t Model.t)
  (this : DependenciesResolver.t) : Prop :=
  all_resolved models (DependenciesResolver.dependencies this)
  /\ (Obj.has "null" models = false -> names_distinct this).

(** A list of dependencies as the claim wants it: models that exist,
    none twice; the second part is asked for when no model is named
    [null]. *)
Definition dependencies_good (models : Obj.t Model.t)
  (deps : option (list model_ref)) : Prop :=
  forall l,
    deps = Some l ->
    all_resolved models l /\ (Obj.has "null" models = false -> NoDup l).

(** An object model whose parent is no longer a name. *)
Definition parent_linked (m : Model.t) : Prop :=
  Model.modelIsObject m = true ->
  forall p, Model.modelParent m = Model.ParentName p -> p = "".

(** A model whose property types hold no [undefined] member type. *)
Definition properties_defined (m : Model.t) : Prop :=
  forall ps,
    Model.modelProperties m = Some ps ->
    Forall (fun p => members_defined (Property.propertyType p)) ps.

(** ** Measures *)

(** The models whose name [dependencies] does not hold yet: each call of
    [collectDependencies] that goes on to the edges of a model takes one
    away. *)
Definition unvisited (models : Obj.t Model.t) (dependencies : list string)
  : nat :=
  List.length
    (filter
       (fun '(_, m) =>
          negb (existsb (String.eqb (Model.modelName m)) dependencies))
       models).

(** ** File names and comments *)

(** [toFileName(typeName)], on the letters of ASCII. *)
Fixpoint toFileName_from (wasLower : bool) (typeName : string) : string :=
  match typeName with
  | EmptyString => EmptyString
  | String c rest =>
      let isLower := is_lower c in
      let sep := if negb isLower && wasLower then "-" else "" in
      sep +++ String (toLowerCase_char c) (toFileName_from isLower rest)
  end.
Definition toFileName (typeName : string) : string :=
  toFileName_from false typeName.

(** The line feed, and the text that holds nothing else. *)
Definition line_feed : ascii := ascii_of_nat 10.
Definition nl : string := String line_feed EmptyString.

(** The indentation of [toComments]: two spaces for each level. *)
Fixpoint indentation (level : nat) : string :=
  match level with
  | O => EmptyString
  | S level' => indentation level' +++ "  "
  end.

(** [toComments(text, level)]; a [text] that is absent is [None], and a
    [level] that is not given lets the loop of the indentation run no
    turn, as level [0] does. *)
Definition toComments (text : option string) (level : nat) : string :=
  let indent := indentation level in
  let lines := JsString.split line_feed (default "" text) in
  fold_left
    (fun result line =>
       if Nat.ltb 0 (String.length line)
       then result +++ indent +++ " * " +++ line +++ nl
       else result)
    lines (indent +++ "/**" +++ nl)
  +++ indent +++ " */".

(** [/[A-Z]/.test(c)]. *)
Definition is_upper (c : ascii) : bool :=
  let n := nat_of_ascii c in Nat.leb 65 n && Nat.leb n 90.

(** Whether [p] holds of every character of [s]. *)
Fixpoint all_chars (p : ascii -> bool) (s : string) : bool :=
  match s with
  | EmptyString => true
  | String c rest => p c && all_chars p rest
  end.

(** Whether every character of [s] is one of ASCII. *)
Fixpoint ascii_only (s : string) : bool :=
  match s with
  | EmptyString => true
  | String c rest => Nat.ltb (nat_of_ascii c) 128 && ascii_only rest
  end.

(** Whether [c] stands in [s]. *)
Fixpoint has_char (c : ascii) (s : string) : bool :=
  match s with
  | EmptyString => false
  | String c' rest => Ascii.eqb c c' || has_char c rest
  end.

(** [s] without the characters [sep]. *)
Fixpoint without (sep : ascii) (s : string) : string :=
  match s with
  | EmptyString => EmptyString
  | String c rest =>
      if Ascii.eqb c sep then without sep rest
      else String c (without sep rest)
  end.

Fixpoint toUpperCase (s : string) : string :=
  match s with
  | EmptyString => EmptyString
  | String c s' => String (toUpperCase_char c) (toUpperCase s')
  end.

(** Whether a type expression is an inline structural type. *)
Definition is_inline (t : jsType) : bool :=
  match t with
  | TInline _ _ => true
  | _ => false
  end.

(** The schema of an array of [items], whatever its other members. *)
Definition schema_array (items : schema) : schema :=
  Schema None None (Some "array") (Some items) None None None None None.

(** ** doGenerate *)

(** The parsed document as [doGenerate] reads it: the [swagger] member
    that names the version, the members that make the root URL, and the
    rest. *)
Record document : Type := Document {
  version : option string;
  schemes : option (list string);
  host : option string;
  basePath : option string;
  content : swagger_doc
}.

(** The options that bear on the descriptors; [ignoreUnusedModels] is
    [None] when it is not given. *)
Record generator_options : Type := Options {
  opt_includeTags : includeTags_option;
  opt_ignoreUnusedModels : option bool
}.

(** [s || d] for a string that may be absent. *)
Definition string_or (s : option string) (d : string) : string :=
  match s with
  | Some x => if String.eqb x "" then d else x
  | None => d
  end.

(** The [rootUrl] handed to the configuration template. *)
Definition rootUrl (d : document) : string :=
  let scheme :=
    match default [] (schemes d) with
    | [] => "http"
    | first :: _ => first
    end in
  scheme +++ "://" +++ string_or (host d) "localhost"
  +++ string_or (basePath d) "/".

(** What [doGenerate] computes from the parsed document and hands to the
    templates: the models, the services and the root URL.  The reading
    of the templates and the writing of the files lie between these
    steps and are not represented. *)
Definition doGenerate_descriptors (d : document) (o : generator_options)
  : result (Obj.t Model.t * Obj.t Service.t * string) :=
  if negb (match version d with
           | Some v => String.eqb v "2.0"
           | None => false
           end)
  then Exit 1
  else
    models <- processModels (content d) ;;
    services <- processServices (content d) models ;;
    filtered <-
      applyTagFilter models services (includeTags_of (opt_includeTags o))
        (match opt_ignoreUnusedModels o with
         | Some false => false
         | _ => true
         end) ;;
    Ok (fst filtered, snd filtered, rootUrl d).

(** ** Shapes and relations used by the properties *)

(** A definition that the first loop of [processModels] gives up on: no
    composition, no object, and no string with at least one value. *)
Definition unsupported (model : schema) : bool :=
  match s_allOf model with
  | Some (_ :: _) => false
  | _ =>
      if type_is model "object" then false
      else if type_is model "string"
      then Nat.eqb (List.length (default [] (s_enum model))) 0
      else true
  end.

(** Two states of a model that differ at most in its parent, its
    subclasses and its dependencies. *)
Definition same_static (m m' : Model.t) : Prop :=
  Model.modelName m' = Model.modelName m
  /\ Model.modelIsObject m' = Model.modelIsObject m
  /\ Model.modelIsEnum m' = Model.modelIsEnum m
  /\ Model.modelEnumValues m' = Model.modelEnumValues m
  /\ Model.modelProperties m' = Model.modelProperties m.

(** Every model is kept under its own name. *)
Definition names_are_keys (models : Obj.t Model.t) : Prop :=
  forall k m, Obj.get k models = Some m -> Model.modelName m = k.

(** The names that can be reached from a reference along the edges
    [modelDependencies]. *)
Inductive reaches (models : Obj.t Model.t) : model_ref -> string -> Prop :=
| reaches_here (r : model_ref) (m : Model.t) :
    Obj.get (ref_key r) models = Some m ->
    reaches models r (Model.modelName m)
| reaches_edge (r e : model_ref) (m : Model.t) (deps : list model_ref)
    (n : string) :
    Obj.get (ref_key r) models = Some m ->
    Model.modelDependencies m = Some deps ->
    In e deps ->
    reaches models e n ->
    reaches models r n.

(** The set [S] holds the name of every model that an edge of the model
    named [n] leads to. *)
Definition closed_at (models : Obj.t Model.t) (S : list string)
  (n : string) : Prop :=
  forall m deps e m',
    Obj.get n models = Some m ->
    Model.modelDependencies m = Some deps ->
    In e deps ->
    Obj.get (ref_key e) models = Some m' ->
    In (Model.modelName m') S.

(** The loop of [processServices] over [def.parameters]. *)
Definition describe_parameters (swagger : swagger_doc)
  (ps : list parameter) : result (list Param.t) :=
  forEach
    (fun acc param =>
       d <- describe_parameter swagger param ;;
       Ok (acc ++ [d]))
    ps [].

(** The operation descriptor [op] is the one that [processServices]
    makes of the operation [def] declared for [method] under [url]. *)
Definition built_from (swagger : swagger_doc) (url method : string)
  (def : operationDef) (op : Operation.t) : Prop :=
  exists id ps described,
    operationId def = Some id
    /\ parameters def = Some ps
    /\ describe_parameters swagger ps = Ok described
    /\ Operation.operationName op = id
    /\ Operation.operationMethod op = toLowerCase method
    /\ Operation.operationPath op = url
    /\ Operation.operationPathExpression op = toPathExpression url
    /\ Operation.operationParameters op = order_parameters described
    /\ Operation.operationResponses op = processResponses def
    /\ Obj.get "resultType" (Operation.operationResponses op)
       = Some (Operation.ResultType (Operation.operationResultType op)).

(** ** A document with a hierarchy *)

(** The definitions [Animal] (an object with a name and a kind), [Dog]
    (a composition of [Animal] and an object with an owner and friends),
    [Kind] (an enumeration of strings) and [Person] (an object with
    pets), and two paths of one operation each:
    [{"definitions":
       {"Animal": {"type": "object", "required": ["name"], "properties":
                    {"name": {"type": "string"},
                     "kind": {"$ref": "#/definitions/Kind"}}},
        "Dog": {"allOf": [{"$ref": "#/definitions/Animal"},
                          {"properties":
                            {"owner": {"$ref": "#/definitions/Person"},
                             "friends": {"type": "array", "items":
                                          {"$ref": "#/definitions/Dog"}}}}]},
        "Kind": {"type": "string", "enum": ["wild", "tame"]},
        "Person": {"type": "object", "properties":
                    {"pets": {"type": "array", "items":
                               {"$ref": "#/definitions/Animal"}}}}},
      "paths":
       {"/animals": {"get": {"tags": ["Zoo"], "operationId": "animals",
                       "parameters": [{"name": "kind", "in": "query",
                                       "type": "string"}],
                       "responses": {"200": {"schema": {"type": "array",
                          "items": {"$ref": "#/definitions/Animal"}}}}}},
        "/people/{id}": {"get": {"tags": ["People"],
                       "operationId": "person",
                       "parameters": [{"name": "id", "in": "path",
                                       "type": "string"}],
                       "responses": {"200": {"schema":
                          {"$ref": "#/definitions/Person"}}}}}}}] *)
Definition pet_hierarchy : swagger_doc :=
  Swagger
    [("Animal",
      Schema None None (Some "object") None
        (Some [("name", schema_of_type "string");
               ("kind", schema_ref "#/definitions/Kind")])
        None None (Some ["name"]) None);
     ("Dog",
      Schema None None None None None None
        (Some [schema_ref "#/definitions/Animal";
               Schema None None None None
                 (Some [("owner", schema_ref "#/definitions/Person");
                        ("friends",
                         schema_array (schema_ref "#/definitions/Dog"))])
                 None None None None])
        None None);
     ("Kind",
      Schema None None (Some "string") None None None None None
        (Some ["wild"; "tame"]));
     ("Person",
      schema_object
        [("pets", schema_array (schema_ref "#/definitions/Animal"))])]
    [("/animals",
      [("get", Some (OperationDef (Some ["Zoo"]) (Some "animals")
                       (Some [query_parameter "kind" false])
                       (Some [("200",
                               Some (schema_array
                                       (schema_ref
                                          "#/definitions/Animal")))])))]);
     ("/people/{id}",
      [("get", Some (OperationDef (Some ["People"]) (Some "person")
                       (Some [ParameterObject "id" "path" false None
                                (schema_of_type "string") None])
                       (Some [("200",
                               Some (schema_ref
                                       "#/definitions/Person"))])))])]
    [].

(** The models and the services of that document. *)
Definition pet_models : Obj.t Model.t :=
  Eval vm_compute in
    match processModels pet_hierarchy with
    | Ok models => models
    | _ => []
    end.

Definition pet_services : Obj.t Service.t :=
  Eval vm_compute in
    match processServices pet_hierarchy pet_models with
    | Ok services => services
    | _ => []
    end.

(** What the tag filter leaves of them for the tag [People], with the
    removal of unused models. *)
Definition pet_kept : Obj.t Model.t * Obj.t Service.t :=
  Eval vm_compute in
    match applyTagFilter pet_models pet_services (Some ["People"]) true with
    | Ok kept => kept
    | _ => ([], [])
    end.

(** The parent that a definition declares: the target of the first
    member of a filled [allOf]. *)
Definition declared_parent (model : schema) : option string :=
  match s_allOf model with
  | Some (first :: _) => simpleRef (s_ref first)
  | _ => None
  end.

(** The links of a hierarchy agree: the parent of a model lists it among
    its subclasses, and a subclass names the model as its parent. *)
Definition linked_up (models : Obj.t Model.t) : Prop :=
  forall k m p,
    Obj.get k models = Some m ->
    Model.modelParent m = Model.ParentModel (ModelRef p) ->
    exists pm,
      Obj.get p models = Some pm
      /\ In (ModelRef k) (Model.modelSubclasses pm).

Definition linked_down (models : Obj.t Model.t) : Prop :=
  forall p pm c,
    Obj.get p models = Some pm ->
    In (ModelRef c) (Model.modelSubclasses pm) ->
    exists cm,
      Obj.get c models = Some cm
      /\ Model.modelParent cm = Model.ParentModel (ModelRef p).

(** The parent of a model once the hierarchy is linked, from the parent
    that its definition declares. *)
Definition linked_parent (model : schema) : Model.parent :=
  match declared_parent model with
  | Some p =>
      if String.eqb p "" then Model.ParentName ""
      else Model.ParentModel (ModelRef p)
  | None => Model.NoParent
  end.

(** The parent of a model in a later state, against the one it had at
    first: the same, or the model of the name it was. *)
Definition parent_from (m0 m : Model.t) : Prop :=
  Model.modelParent m = Model.modelParent m0
  \/ exists p,
       Model.modelParent m0 = Model.ParentName p
       /\ p <> ""
       /\ Model.modelParent m = Model.ParentModel (ModelRef p).

(** A composition whose parent is not defined:
    [{"Dog": {"allOf": [{"$ref": "#/definitions/Animal"}]}}] *)
Definition dangling_parent : swagger_doc :=
  Swagger
    [("Dog",
      Schema None None None None None None
        (Some [schema_ref "#/definitions/Animal"]) None None)]
    [] [].

(** The type expressions that the third loop of [processModels] hands to
    the resolver of a model: the name of the parent, the names of the
    subclasses, and for each property its type or, for an inline object,
    the types under [allTypes]. *)
Definition property_candidates (p : Property.t) : list jsType :=
  match Property.propertyType p with
  | TInline allTypes _ => allTypes
  | t => [t]
  end.

Definition model_candidates (m : Model.t) : list jsType :=
  match Model.modelParent m with
  | Model.ParentModel r => [TString (ref_key r)]
  | _ => []
  end
  ++ map (fun r => TString (ref_key r)) (Model.modelSubclasses m)
  ++ flat_map property_candidates (default [] (Model.modelProperties m)).

(** A resolver that has what the type expression [t] asks for: the model
    under the name that [t] is without its brackets, if there is one and
    it is not the resolver's own. *)
Definition covers (models : Obj.t Model.t) (own : jsType)
  (deps : list model_ref) (t : jsType) : Prop :=
  forall name,
    removeBrackets t = Ok (TString name) ->
    TString name <> own ->
    Obj.has name models = true ->
    In (ModelRef name) deps.

(** The names that a resolver has recorded stand for dependencies it
    holds. *)
Definition names_held (this : DependenciesResolver.t) : Prop :=
  forall t,
    In t (DependenciesResolver.dependencyNames this) ->
    In (ModelRef (type_toString t)) (DependenciesResolver.dependencies this).

(** A model that is not among the dependencies of a resolver made for
    it. *)
Definition own_kept_out (this : DependenciesResolver.t) : Prop :=
  forall k,
    DependenciesResolver.ownType this = TString k ->
    k <> "null" -> k <> "undefined" ->
    ~ In (ModelRef k) (DependenciesResolver.dependencies this).

(** What some additions to a resolver come to, for the type expressions
    [ts] that were added. *)
Definition added (models : Obj.t Model.t)
  (this this' : DependenciesResolver.t) (ts : list jsType) : Prop :=
  DependenciesResolver.ownType this' = DependenciesResolver.ownType this
  /\ incl (DependenciesResolver.dependencies this)
       (DependenciesResolver.dependencies this')
  /\ (names_held this -> names_held this')
  /\ (own_kept_out this -> own_kept_out this')
  /\ (names_held this ->
      forall t, In t ts ->
        covers models (DependenciesResolver.ownType this)
          (DependenciesResolver.dependencies this') t).

(** The operation descriptor [op] stems from an operation that the
    document declares with the single tag [tag]. *)
Definition operation_declared (swagger : swagger_doc) (tag : string)
  (op : Operation.t) : Prop :=
  exists url path method def,
    In (url, path) (paths swagger)
    /\ In (method, Some def) path
    /\ tags def = Some [tag]
    /\ built_from swagger url method def op.

(** The services [b] hold what the services [a] hold, and maybe more. *)
Definition services_grow (a b : Obj.t Service.t) : Prop :=
  forall tag s,
    Obj.get tag a = Some s ->
    exists s',
      Obj.get tag b = Some s'
      /\ incl (Service.serviceOperations s) (Service.serviceOperations s').

(** The operation [def] declared for [method] under [url] is held by the
    service of its tag. *)
Definition operation_held (swagger : swagger_doc) (url method : string)
  (def : operationDef) (services : Obj.t Service.t) : Prop :=
  exists tag s op,
    tags def = Some [tag]
    /\ Obj.get tag services = Some s
    /\ In op (Service.serviceOperations s)
    /\ built_from swagger url method def op.

(** The flags of a parameter descriptor follow [paramIn], and a
    parameter in the path is required. *)
Definition parameter_flags (p : Param.t) : Prop :=
  (Param.paramIsPath p = true -> Param.paramRequired p = true)
  /\ (Param.paramIsQuery p = true <-> Param.paramIn p = "query")
  /\ (Param.paramIsPath p = true <-> Param.paramIn p = "path")
  /\ (Param.paramIsHeader p = true <-> Param.paramIn p = "header")
  /\ (Param.paramIsBody p = true <-> Param.paramIn p = "body").

(** The test [!includeTags || includeTags.indexOf(serviceName) >= 0] of
    [applyTagFilter]. *)
Definition included (includeTags : option (list string))
  (serviceName : string) : bool :=
  match includeTags with
  | Some tags => existsb (String.eqb serviceName) tags
  | None => true
  end.

(** The document [pet_hierarchy] with its version, and the options left
    at their defaults. *)
Definition pet_document : document :=
  Document (Some "2.0") None None None pet_hierarchy.

Definition default_options : generator_options := Options TagsAbsent None.

(** ** Names read from the dictionary of models *)

(** The type expression [t] names, brackets removed, what the
    dictionary of models holds or nothing at all: it does not name a
    member that the dictionary merely inherits. *)
Definition plain_name (models : Obj.t Model.t) (t : jsType) : bool :=
  match removeBrackets t with
  | Ok name =>
      Obj.has (type_toString name) models
      || negb (Obj.inherits (type_toString name))
  | _ => true
  end.

(** The type expressions handed to the resolver of a model are plain
    names. *)
Definition model_plain (models : Obj.t Model.t) (m : Model.t) : bool :=
  forallb (plain_name models) (model_candidates m).

(** The type expressions that an operation hands to the resolver of its
    service: the [type] of each entry of its responses, then the types
    of its parameters. *)
Definition operation_candidates (op : Operation.t) : list jsType :=
  map (fun e => entry_type (snd e)) (Operation.operationResponses op)
  ++ map Param.paramType (Operation.operationParameters op).

Definition service_plain (models : Obj.t Model.t) (s : Service.t) : bool :=
  forallb (fun op => forallb (plain_name models) (operation_candidates op))
    (Service.serviceOperations s).

(** Every model and every service of the descriptors hands plain names
    to its resolver. *)
Definition descriptors_plain (models : Obj.t Model.t)
  (services : Obj.t Service.t) : bool :=
  forallb (fun e => model_plain models (snd e)) models
  && forallb (fun e => service_plain models (snd e)) services.

(** * Properties *)

(** ** Path expressions *)

(** C1, as the code behaves: for the template [/a/{var1}/b/{var2}] the
    path expression is [/a/${params.var1}/b/{var2}].  [replace] with a
    string pattern rewrites the first brace only, so the second
    placeholder stays as it was written, where the comment above
    [toPathExpression] promises [${params.var2}]. *)
Theorem toPathExpression_second_placeholder_kept :
  toPathExpression "/a/{var1}/b/{var2}" = "/a/${params.var1}/b/{var2}"
  /\ toPathExpression "/a/{var1}/b/{var2}"
     <> "/a/${params.var1}/b/${params.var2}".
Proof.
  split; [reflexivity | discriminate].
Qed.

(** ** Facts on strings *)

Section StringFacts.

Lemma length_append (a b : string) :
  String.length (a +++ b) = String.length a + String.length b.
Proof.
  induction a as [| c a IH]; simpl; [reflexivity | now rewrite IH].
Qed.

Lemma append_assoc (a b c : string) : (a +++ b) +++ c = a +++ b +++ c.
Proof.
  induction a as [| x a IH]; simpl; [reflexivity | now rewrite IH].
Qed.

Lemma append_empty_r (a : string) : a +++ "" = a.
Proof.
  induction a as [| x a IH]; simpl; [reflexivity | now rewrite IH].
Qed.

Lemma substring_whole (a : string) :
  String.substring 0 (String.length a) a = a.
Proof.
  induction a as [| c a IH]; simpl; [reflexivity | now rewrite IH].
Qed.

Lemma substring_append_left (a b : string) :
  String.substring 0 (String.length a) (a +++ b) = a.
Proof.
  induction a as [| c a IH]; simpl.
  - destruct b; reflexivity.
  - now rewrite IH.
Qed.

Lemma substring_append_right (a b : string) (m : nat) :
  String.substring (String.length a) m (a +++ b) = String.substring 0 m b.
Proof.
  induction a as [| c a IH]; simpl; [reflexivity | exact IH].
Qed.

(** [substr] away from the clamps. *)
Lemma substr_prefix (a b : string) :
  JsString.substr (a +++ b) 0 (Z.of_nat (String.length a)) = a.
Proof.
  unfold JsString.substr. rewrite length_append.
  replace (0 <? 0)%Z with false by reflexivity.
  rewrite Z.min_l by lia. rewrite Z.max_l by lia.
  rewrite Z.min_l by lia. rewrite Nat2Z.id. simpl Z.to_nat.
  apply substring_append_left.
Qed.

Lemma substr_from_suffix (a b : string) :
  JsString.substr_from (a +++ b) (Z.of_nat (String.length a)) = b.
Proof.
  unfold JsString.substr_from, JsString.substr. rewrite length_append.
  destruct (Z.ltb_spec (Z.of_nat (String.length a)) 0) as [H | _]; [lia |].
  rewrite (Z.min_l (Z.of_nat (String.length a))) by lia.
  rewrite Z.max_l by lia. rewrite Z.min_r by lia.
  rewrite Nat2Z.id.
  replace (Z.to_nat (Z.of_nat (String.length a + String.length b)
                     - Z.of_nat (String.length a)))
    with (String.length b) by lia.
  rewrite substring_append_right. apply substring_whole.
Qed.

(** The first occurrence of a character that [pre] does not hold. *)
Lemma index_after_clean_prefix (c : ascii) (pre post : string) :
  String.index 0 (String c "") pre = None ->
  String.index 0 (String c "") (pre +++ String c post)
  = Some (String.length pre).
Proof.
  induction pre as [| x pre IH]; simpl.
  - intros _. destruct (ascii_dec c c) as [_ | n]; [| now elim n].
    destruct post; reflexivity.
  - destruct (ascii_dec c x) as [-> | n].
    + destruct pre; discriminate.
    + destruct (String.index 0 (String c "") pre) eqn:E; [discriminate |].
      intros _. now rewrite IH.
Qed.

Lemma replace_first_char (c : ascii) (pre post by_ : string) :
  String.index 0 (String c "") pre = None ->
  JsString.replace (pre +++ String c post) (String c "") by_
  = pre +++ by_ +++ post.
Proof.
  intros Hclean. unfold JsString.replace, JsString.indexOf.
  rewrite (index_after_clean_prefix c pre post Hclean).
  destruct (Z.ltb_spec (Z.of_nat (String.length pre)) 0) as [H | _];
    [lia |].
  rewrite substr_prefix. f_equal. f_equal.
  change (String c post) with (String c "" +++ post).
  rewrite <- append_assoc.
  replace (Z.of_nat (String.length pre)
           + Z.of_nat (String.length (String c "")))%Z
    with (Z.of_nat (String.length (pre +++ String c ""))).
  - apply substr_from_suffix.
  - rewrite length_append. simpl. lia.
Qed.

End StringFacts.

Lemma substr_suffix (a b : string) (n : Z) :
  (Z.of_nat (String.length b) <= n)%Z ->
  JsString.substr (a +++ b) (Z.of_nat (String.length a)) n = b.
Proof.
  intros Hn. unfold JsString.substr. rewrite length_append.
  destruct (Z.ltb_spec (Z.of_nat (String.length a)) 0) as [H | _]; [lia |].
  rewrite (Z.min_l (Z.of_nat (String.length a))) by lia.
  rewrite Z.max_l by lia. rewrite Z.min_r by lia.
  rewrite Nat2Z.id.
  replace (Z.to_nat (Z.of_nat (String.length a + String.length b)
                     - Z.of_nat (String.length a)))
    with (String.length b) by lia.
  rewrite substring_append_right. apply substring_whole.
Qed.

(** ** Path expressions, in general *)

(** Whatever follows the first opening brace is copied unchanged, later
    placeholders included. *)
Lemma toPathExpression_first_brace_only (pre post : string) :
  String.index 0 "{" pre = None ->
  toPathExpression (pre +++ "{" +++ post) = pre +++ "${params." +++ post.
Proof.
  intros Hclean. unfold toPathExpression.
  exact (replace_first_char "{"%char pre post "${params." Hclean).
Qed.

(** ** The type override *)

Lemma replace_List_prefix (rest : string) :
  JsString.replace ("List<" +++ rest) "List<" "Array<" = "Array<" +++ rest.
Proof.
  unfold JsString.replace, JsString.indexOf.
  replace (String.index 0 "List<" ("List<" +++ rest)) with (Some 0).
  - change (Z.of_nat 0) with 0%Z. cbv beta iota zeta.
    replace (0 <? 0)%Z with false by reflexivity.
    change (0 + Z.of_nat (String.length "List<"))%Z
      with (Z.of_nat (String.length "List<")).
    rewrite (substr_from_suffix "List<" rest).
    change 0%Z with (Z.of_nat (String.length "")).
    change ("List<" +++ rest) with ("" +++ ("List<" +++ rest)).
    now rewrite substr_prefix.
  - simpl. destruct rest; reflexivity.
Qed.

(** C9, as the code behaves: an override written [List<T>] resolves to
    [T>[]] for every [T].  [substr] takes a length where an end offset
    was meant, so the closing angle bracket of [List<T>] is kept in
    front of the array brackets and the result is never [T[]]. *)
Theorem propertyType_List_keeps_angle_bracket (T : string) :
  propertyType (schema_xtype (XString ("List<" +++ T +++ ">")))
  = TString (T +++ ">[]")
  /\ propertyType (schema_xtype (XString ("List<" +++ T +++ ">")))
     <> TString (T +++ "[]").
Proof.
  assert (Hresult :
    propertyType (schema_xtype (XString ("List<" +++ T +++ ">")))
    = TString (T +++ ">[]")).
  { unfold schema_xtype, propertyType.
    replace (x_truthy (XString ("List<" +++ T +++ ">"))) with true
      by reflexivity.
    unfold x_toString. rewrite replace_List_prefix.
    replace (JsString.indexOf ("Array<" +++ T +++ ">") "Array<") with 0%Z.
    - replace (0 >=? 0)%Z with true by reflexivity.
      rewrite (substr_suffix "Array<" (T +++ ">")).
      + rewrite append_assoc.
        destruct T; reflexivity.
      + rewrite !length_append. simpl String.length. lia.
    - unfold JsString.indexOf. simpl. destruct (T +++ ">"); reflexivity. }
  split; [exact Hresult |].
  rewrite Hresult. intros H. injection H as H.
  clear Hresult. induction T as [| c T IH]; simpl in H.
  - discriminate.
  - injection H as H. auto.
Qed.

(** An override whose text is empty, such as the empty array, resolves
    to [void]. *)
Lemma propertyType_empty_override :
  propertyType (schema_xtype (XArray [])) = TString "void".
Proof. reflexivity. Qed.

(** ** Properties of a model *)

Lemma sort_insert_constant {A : Type} (compare : A -> A -> Z) (x : A)
  (l : list A) :
  (forall a b, compare a b = 0%Z) -> sort_insert compare x l = x :: l.
Proof.
  intros Hzero. destruct l as [| y l]; simpl; [reflexivity |].
  now rewrite Hzero.
Qed.

(** A comparator that always answers [0] leaves the array as it is. *)
Lemma array_sort_constant {A : Type} (compare : A -> A -> Z) (l : list A) :
  (forall a b, compare a b = 0%Z) -> array_sort compare l = l.
Proof.
  intros Hzero. unfold array_sort.
  induction l as [| x l IH]; simpl; [reflexivity |].
  rewrite IH. now apply sort_insert_constant.
Qed.

(** The comparator of the properties reads [modelName], which no
    property descriptor has: it compares [undefined] with [undefined]. *)
Lemma compare_properties_zero (a b : Property.t) :
  compare_properties a b = 0%Z.
Proof. reflexivity. Qed.

(** C4, as the code behaves: the comparator of [modelProperties] always
    answers [0], so sorting changes nothing and the properties stay in
    the order of their declaration; for the model declared with [b]
    before [a] the sequence is [b, a], with the flag on [a], and is not
    ascending by name. *)
Theorem modelProperties_keep_declaration_order :
  (forall l, array_sort compare_properties l = l)
  /\ exists models pet,
       processModels unsorted_definitions = Ok models
       /\ Obj.get "Pet" models = Some pet
       /\ option_map (map (fun p => (Property.propertyName p,
                                     Property.last p)))
            (Model.modelProperties pet)
          = Some [("b", false); ("a", true)]
       /\ JsString.lt "a" "b" = true.
Proof.
  split.
  - intros l. apply array_sort_constant. exact compare_properties_zero.
  - eexists. eexists. repeat split; reflexivity.
Qed.

(** ** Operations that are dropped *)

Lemma read_name_throws :
  read_identifier "name" = Throw (ReferenceError "name").
Proof. reflexivity. Qed.

(** An operation without exactly one tag never reaches [continue]: the
    message to log reads [name], which is bound nowhere. *)
Lemma process_operation_untagged (swagger : swagger_doc)
  (models : Obj.t Model.t) (url method : string) (st : services_state)
  (def : operationDef) :
  List.length (default [] (tags def)) <> 1 ->
  process_operation swagger models url st (method, Some def)
  = Throw (ReferenceError "name").
Proof.
  intros Hlen. unfold process_operation. destruct st as [services tag0].
  destruct (default [] (tags def)) as [| t [| t' ts]]; simpl in *.
  - reflexivity.
  - now elim Hlen.
  - reflexivity.
Qed.

(** C2, as the code behaves: an operation whose [tags] is absent, empty
    or longer than one tag is not skipped.  The message that announces
    the skip reads the identifier [name], which is bound neither in
    [processServices] nor in the module, so a [ReferenceError] ends the
    construction of the services; for the path with a tagged operation
    and one whose [tags] is empty no service is built at all. *)
Theorem processServices_untagged_operation_throws :
  (forall swagger models url st method id params codes,
      process_operation swagger models url st
        (method, Some (OperationDef None id params codes))
      = Throw (ReferenceError "name"))
  /\ (forall swagger models url st method id params codes,
        process_operation swagger models url st
          (method, Some (OperationDef (Some []) id params codes))
        = Throw (ReferenceError "name"))
  /\ (forall swagger models url st method id params codes t1 t2 ts,
        process_operation swagger models url st
          (method, Some (OperationDef (Some (t1 :: t2 :: ts)) id params
                           codes))
        = Throw (ReferenceError "name"))
  /\ processServices untagged_sibling [] = Throw (ReferenceError "name").
Proof.
  repeat split; intros; try reflexivity;
    apply process_operation_untagged; simpl; lia.
Qed.

(** ** Dependencies of a service *)

(** C6, as the code behaves: the dependencies of a service are resolved
    at the end of each path for the one service that [descriptor] then
    is.  In a path whose operations carry the tags [A] and then [B],
    service [A] is left without [serviceDependencies] although its
    operation answers with the model [Foo]. *)
Theorem serviceDependencies_missing_for_earlier_tag :
  exists models services a op,
    processModels two_tags_one_path = Ok models
    /\ processServices two_tags_one_path models = Ok services
    /\ Obj.get "A" services = Some a
    /\ Service.serviceOperations a = [op]
    /\ Obj.get "200" (Operation.operationResponses op)
       = Some (Operation.Response "200" (TString "Foo"))
    /\ Obj.has "Foo" models = true
    /\ Service.serviceDependencies a = None.
Proof.
  do 4 eexists. repeat split; reflexivity.
Qed.

(** An inline structural type among the parameters of a service is not
    searched for models: [removeBrackets] fails on it. *)
Lemma processServices_inline_body_throws :
  exists models e,
    processModels inline_body = Ok models
    /\ processServices inline_body models = Throw (TypeError e).
Proof. do 2 eexists. split; reflexivity. Qed.

(** ** Facts on dictionaries *)

Section ObjFacts.
Context {V : Type}.

Lemma get_replace_value (k k' : string) (v : V) (o : Obj.t V) :
  Obj.has k o = true ->
  Obj.get k' (Obj.replace_value k v o)
  = if String.eqb k' k then Some v else Obj.get k' o.
Proof.
  unfold Obj.has. induction o as [| [k0 v0] o IH]; simpl.
  - discriminate.
  - intros Hhas. destruct (String.eqb_spec k k0) as [-> | Hk]; simpl.
    + destruct (String.eqb k' k0); reflexivity.
    + destruct (String.eqb_spec k' k0) as [-> | Hk'].
      * destruct (String.eqb_spec k0 k); [congruence | reflexivity].
      * apply IH. exact Hhas.
Qed.

Lemma get_insert_index (n : N) (k k' : string) (v : V) (o : Obj.t V) :
  Obj.has k o = false ->
  Obj.get k' (Obj.insert_index n k v o)
  = if String.eqb k' k then Some v else Obj.get k' o.
Proof.
  unfold Obj.has. induction o as [| [k0 v0] o IH]; simpl.
  - reflexivity.
  - destruct (String.eqb_spec k k0) as [-> | Hk]; [discriminate |].
    intros Hhas.
    destruct (Obj.array_index k0) as [n0 |];
      [destruct (n <? n0)%N |]; simpl; try reflexivity.
    destruct (String.eqb_spec k' k0) as [-> | Hk'].
    + destruct (String.eqb_spec k0 k); [congruence | reflexivity].
    + apply IH. exact Hhas.
Qed.

Lemma get_app_new (k k' : string) (v : V) (o : Obj.t V) :
  Obj.has k o = false ->
  Obj.get k' (o ++ [(k, v)])
  = if String.eqb k' k then Some v else Obj.get k' o.
Proof.
  unfold Obj.has. induction o as [| [k0 v0] o IH]; simpl.
  - reflexivity.
  - destruct (String.eqb_spec k k0) as [-> | Hk]; [discriminate |].
    intros Hhas. destruct (String.eqb_spec k' k0) as [-> | Hk'].
    + destruct (String.eqb_spec k0 k); [congruence | reflexivity].
    + apply IH. exact Hhas.
Qed.

(** Reading after [o[k] = v]. *)
Lemma get_set (k k' : string) (v : V) (o : Obj.t V) :
  Obj.get k' (Obj.set k v o)
  = if String.eqb k' k then Some v else Obj.get k' o.
Proof.
  unfold Obj.set. destruct (Obj.has k o) eqn:Hhas.
  - now apply get_replace_value.
  - destruct (Obj.array_index k).
    + now apply get_insert_index.
    + now apply get_app_new.
Qed.

Lemma get_set_same (k : string) (v : V) (o : Obj.t V) :
  Obj.get k (Obj.set k v o) = Some v.
Proof. rewrite get_set. now rewrite String.eqb_refl. Qed.

Lemma get_set_other (k k' : string) (v : V) (o : Obj.t V) :
  k' <> k -> Obj.get k' (Obj.set k v o) = Obj.get k' o.
Proof.
  intros Hk. rewrite get_set.
  destruct (String.eqb_spec k' k); [congruence | reflexivity].
Qed.

Lemma get_In (k : string) (v : V) (o : Obj.t V) :
  Obj.get k o = Some v -> In (k, v) o.
Proof.
  induction o as [| [k0 v0] o IH]; simpl; [discriminate |].
  destruct (String.eqb_spec k k0) as [-> | Hk].
  - intros [= ->]. now left.
  - intros H. right. now apply IH.
Qed.

Lemma has_In_keys (k : string) (o : Obj.t V) :
  Obj.has k o = true <-> In k (Obj.keys o).
Proof.
  unfold Obj.has, Obj.keys. induction o as [| [k0 v0] o IH]; simpl.
  - split; [discriminate | tauto].
  - destruct (String.eqb_spec k k0) as [-> | Hk].
    + split; auto.
    + rewrite IH. split; [auto | intros [H | H]; congruence || exact H].
Qed.

End ObjFacts.

(** ** The designated result type *)

(** One turn of the loop of [processResponses]. *)
Lemma fold_left_app_one {A B : Type} (f : A -> B -> A) (l : list B) (x : B)
  (a : A) :
  fold_left f (l ++ [x]) a = f (fold_left f l a) x.
Proof. now rewrite fold_left_app. Qed.

Lemma filter_app_one {A : Type} (f : A -> bool) (l : list A) (x : A) :
  filter f (l ++ [x]) = filter f l ++ (if f x then [x] else []).
Proof. rewrite filter_app. reflexivity. Qed.

(** While the codes are read, [resultType] holds the type of the last
    successful code read so far. *)
Lemma responses_loop_resultType (l : Obj.t (option schema)) :
  ~ In "resultType" (Obj.keys l) ->
  Obj.get "resultType"
    (fold_left
       (fun acc '(code, response) =>
          match response with
          | None => acc
          | Some schema =>
              let type := propertyType schema in
              let acc :=
                if JsString.test_2dd code
                then Obj.set "resultType" (Operation.ResultType type) acc
                else acc in
              Obj.set code (Operation.Response code type) acc
          end)
       l [])
  = option_map Operation.ResultType (last_2xx_type l).
Proof.
  induction l as [| [code response] l IH] using rev_ind; intros Hkeys.
  - reflexivity.
  - unfold Obj.keys in Hkeys. rewrite map_app, in_app_iff in Hkeys.
    simpl in Hkeys.
    assert (Hl : ~ In "resultType" (Obj.keys l)) by (unfold Obj.keys; tauto).
    assert (Hcode : "resultType" <> code) by (intros E; subst code; tauto).
    specialize (IH Hl).
    rewrite fold_left_app_one.
    unfold last_2xx_type in *. rewrite filter_app_one.
    destruct response as [schema |].
    + rewrite get_set_other by exact Hcode.
      destruct (JsString.test_2dd code); simpl.
      * rewrite get_set_same. rewrite rev_app_distr. reflexivity.
      * rewrite app_nil_r. exact IH.
    + rewrite andb_false_r. rewrite app_nil_r. exact IH.
Qed.

(** C3, as amended: over the declared status codes that carry a schema,
    in the order in which the codes are enumerated, it is the last code
    matching the 2xx pattern that supplies the designated result type
    (a type that is empty or [null] counts as none); without such a
    code the result type is the void marker.  No status code may be the
    text [resultType], the key under which the result type is kept. *)
Theorem processResponses_resultType_last (def : operationDef) :
  ~ In "resultType" (Obj.keys (default [] (responses def))) ->
  Obj.get "resultType" (processResponses def)
  = Some (Operation.ResultType
            match last_2xx_type (default [] (responses def)) with
            | Some t => if type_truthy t then t else TString "void"
            | None => TString "void"
            end).
Proof.
  intros Hkeys. unfold processResponses.
  pose proof (responses_loop_resultType _ Hkeys) as Hloop.
  destruct (last_2xx_type (default [] (responses def))) as [t |];
    simpl in Hloop; rewrite Hloop; simpl.
  - destruct (type_truthy t); simpl.
    + exact Hloop.
    + apply get_set_same.
  - apply get_set_same.
Qed.

Lemma processResponses_resultType_last_witness :
  ~ In "resultType" (Obj.keys (default [] (responses two_successes)))
  /\ Obj.get "resultType" (processResponses two_successes)
     = Some (Operation.ResultType (TString "Baz")).
Proof.
  assert (H : ~ In "resultType"
                (Obj.keys (default [] (responses two_successes)))).
  { simpl. intros [H | [H | []]]; discriminate. }
  split; [exact H |].
  exact (processResponses_resultType_last two_successes H).
Defined.

(** C3, as stated, fails: with schemas under [200] and [201] the first
    successful code is [200], whose type is [Foo], and the designated
    result type is [Baz], the type of [201]. *)
Lemma processResponses_first_2xx_counterexample :
  spec_first_2xx_type (default [] (responses two_successes)) = TString "Foo"
  /\ Obj.get "resultType" (processResponses two_successes)
     <> Some (Operation.ResultType
                (spec_first_2xx_type
                   (default [] (responses two_successes)))).
Proof.
  split; [reflexivity | discriminate].
Qed.

(** ** The closure of the dependencies *)

Section Closure.

Lemma filter_length_mono {A : Type} (f g : A -> bool) (l : list A) :
  (forall x, In x l -> f x = true -> g x = true) ->
  List.length (filter f l) <= List.length (filter g l).
Proof.
  induction l as [| x l IH]; intros Hfg; simpl; [lia |].
  assert (IH' : List.length (filter f l) <= List.length (filter g l)).
  { apply IH. intros y Hy. apply Hfg. now right. }
  destruct (f x) eqn:Hf.
  - rewrite (Hfg x (or_introl eq_refl) Hf). simpl. lia.
  - destruct (g x); simpl; lia.
Qed.

Lemma filter_length_strict {A : Type} (f g : A -> bool) (l : list A)
  (x : A) :
  (forall y, In y l -> f y = true -> g y = true) ->
  In x l -> g x = true -> f x = false ->
  List.length (filter f l) < List.length (filter g l).
Proof.
  induction l as [| y l IH]; intros Hfg Hin Hg Hf; simpl; [elim Hin |].
  assert (Hmono : List.length (filter f l) <= List.length (filter g l)).
  { apply filter_length_mono. intros z Hz. apply Hfg. now right. }
  destruct Hin as [-> | Hin].
  - rewrite Hf, Hg. simpl. lia.
  - assert (IH' : List.length (filter f l) < List.length (filter g l)).
    { apply IH; auto. intros z Hz. apply Hfg. now right. }
    destruct (f y) eqn:Hfy.
    + rewrite (Hfg y (or_introl eq_refl) Hfy). simpl. lia.
    + destruct (g y); simpl; lia.
Qed.

Lemma existsb_eqb_In (x : string) (l : list string) :
  existsb (String.eqb x) l = true <-> In x l.
Proof.
  rewrite existsb_exists. split.
  - intros [y [Hy Heq]]. apply String.eqb_eq in Heq. now subst.
  - intros Hx. exists x. split; [exact Hx | apply String.eqb_refl].
Qed.

Lemma existsb_eqb_incl (x : string) (l l' : list string) :
  incl l l' ->
  existsb (String.eqb x) l = true -> existsb (String.eqb x) l' = true.
Proof. rewrite !existsb_eqb_In. auto. Qed.

Variable models : Obj.t Model.t.

Lemma unvisited_le_length (deps : list string) :
  unvisited models deps <= List.length models.
Proof. unfold unvisited. apply filter_length_le. Qed.

Lemma unvisited_mono (deps deps' : list string) :
  incl deps deps' -> unvisited models deps' <= unvisited models deps.
Proof.
  intros Hincl. unfold unvisited. apply filter_length_mono.
  intros [k m] _ H. apply negb_true_iff in H. apply negb_true_iff.
  destruct (existsb (String.eqb (Model.modelName m)) deps) eqn:E;
    [| reflexivity].
  now rewrite (existsb_eqb_incl _ _ _ Hincl E) in H.
Qed.

(** A model that is entered for the first time is one model less to
    enter. *)
Lemma unvisited_enter (deps : list string) (k : string) (m : Model.t) :
  Obj.get k models = Some m ->
  existsb (String.eqb (Model.modelName m)) deps = false ->
  unvisited models (deps ++ [Model.modelName m]) < unvisited models deps.
Proof.
  intros Hget Hnew. unfold unvisited.
  apply filter_length_strict with (x := (k, m)).
  - intros [k' m'] _ H. apply negb_true_iff in H. apply negb_true_iff.
    rewrite existsb_app in H. now apply orb_false_iff in H.
  - now apply get_In.
  - now rewrite Hnew.
  - rewrite existsb_app. simpl. rewrite String.eqb_refl.
    now rewrite orb_true_r.
Qed.

Lemma NoDup_snoc (l : list string) (x : string) :
  NoDup l -> ~ In x l -> NoDup (l ++ [x]).
Proof.
  intros Hl Hx. apply NoDup_app; [exact Hl | repeat constructor; auto |].
  intros a Ha [<- | []]. auto.
Qed.

(** The loop over the edges of one model, given that each call at
    depth [fuel] returns. *)
Lemma collect_edges (fuel : nat) :
  (forall deps model,
      unvisited models deps < fuel ->
      exists result,
        collectDependencies fuel models deps model = Some result
        /\ incl deps result
        /\ (NoDup deps -> NoDup result)
        /\ (Obj.get (ref_key model) models = None -> result = deps)) ->
  forall edges deps,
    unvisited models deps < fuel ->
    exists result,
      fold_left
        (fun acc dep =>
           match acc with
           | Some d => collectDependencies fuel models d dep
           | None => None
           end)
        edges (Some deps)
      = Some result
      /\ incl deps result
      /\ (NoDup deps -> NoDup result).
Proof.
  intros Hcall edges. induction edges as [| e edges IH]; intros deps Hlt.
  - exists deps. simpl. repeat split; auto using incl_refl.
  - simpl. destruct (Hcall deps e Hlt) as [r1 [-> [Hincl [Hnodup _]]]].
    destruct (IH r1) as [r [Hr [Hincl' Hnodup']]].
    + pose proof (unvisited_mono _ _ Hincl). lia.
    + exists r. repeat split; eauto using incl_tran.
Qed.

(** With more depth than there are models to enter, a call returns. *)
Lemma collectDependencies_enough_fuel (fuel : nat) :
  forall deps model,
    unvisited models deps < fuel ->
    exists result,
      collectDependencies fuel models deps model = Some result
      /\ incl deps result
      /\ (NoDup deps -> NoDup result)
      /\ (Obj.get (ref_key model) models = None -> result = deps).
Proof.
  induction fuel as [| fuel IH]; intros deps model Hlt; [lia |].
  simpl.
  destruct (Obj.get (ref_key model) models) as [m |] eqn:Hget.
  - destruct (existsb (String.eqb (Model.modelName m)) deps) eqn:Hseen.
    + exists deps. repeat split; auto using incl_refl.
    + assert (Hnew : ~ In (Model.modelName m) deps).
      { rewrite <- existsb_eqb_In. now rewrite Hseen. }
      pose proof (unvisited_enter deps _ m Hget Hseen) as Hless.
      destruct (Model.modelDependencies m) as [edges |].
      * destruct (collect_edges fuel IH edges
                    (deps ++ [Model.modelName m]))
          as [r [Hr [Hincl Hnodup]]]; [lia |].
        exists r. repeat split.
        -- exact Hr.
        -- eapply incl_tran; [| exact Hincl]. now apply incl_appl.
        -- intros Hd. apply Hnodup. now apply NoDup_snoc.
        -- discriminate.
      * exists (deps ++ [Model.modelName m]). repeat split.
        -- now apply incl_appl.
        -- intros Hd. now apply NoDup_snoc.
        -- discriminate.
  - exists deps. repeat split; auto using incl_refl.
Qed.

End Closure.

(** A call that returns within some depth returns the same set within
    any greater depth. *)
Lemma collectDependencies_more_fuel (models : Obj.t Model.t) (fuel : nat) :
  forall deps model result,
    collectDependencies fuel models deps model = Some result ->
    collectDependencies (S fuel) models deps model = Some result.
Proof.
  induction fuel as [| fuel IH]; intros deps model result; [discriminate |].
  intros Hrun. cbn [collectDependencies] in Hrun.
  change (collectDependencies (S (S fuel)) models deps model)
    with (match Obj.get (ref_key model) models with
          | None => Some deps
          | Some m =>
              if existsb (String.eqb (Model.modelName m)) deps
              then Some deps
              else
                match Model.modelDependencies m with
                | None => Some (deps ++ [Model.modelName m])
                | Some edges =>
                    fold_left
                      (fun acc dep =>
                         match acc with
                         | Some d =>
                             collectDependencies (S fuel) models d dep
                         | None => None
                         end)
                      edges (Some (deps ++ [Model.modelName m]))
                end
          end).
  destruct (Obj.get (ref_key model) models) as [m |]; [| exact Hrun].
  destruct (existsb (String.eqb (Model.modelName m)) deps); [exact Hrun |].
  destruct (Model.modelDependencies m) as [edges |]; [| exact Hrun].
  revert Hrun. generalize (Some (deps ++ [Model.modelName m])).
  induction edges as [| e edges IHedges]; intros acc; [auto |].
  cbn [fold_left]. destruct acc as [d |].
  - destruct (collectDependencies fuel models d e) as [r |] eqn:Hstep.
    + rewrite (IH d e r Hstep). apply IHedges.
    + intros Hnone. exfalso. clear - Hnone.
      induction edges as [| e' edges IHe]; [discriminate |].
      now apply IHe.
  - intros Hnone. exfalso. clear - Hnone.
    induction edges as [| e' edges IHe]; [discriminate |].
    now apply IHe.
Qed.

Lemma collectDependencies_fuel_le (models : Obj.t Model.t)
  (fuel fuel' : nat) (deps : list string) (model : model_ref)
  (result : list string) :
  fuel <= fuel' ->
  collectDependencies fuel models deps model = Some result ->
  collectDependencies fuel' models deps model = Some result.
Proof.
  intros Hle Hrun. induction Hle as [| fuel' _ IH]; [exact Hrun |].
  now apply collectDependencies_more_fuel.
Qed.

(** C7: on every dictionary of models, cyclic and self-referential ones
    included, a call of [collectDependencies] that may nest deeper than
    there are models returns, and returns the same set however much
    deeper it may nest.  The set it returns extends the set it was given
    and, like it, holds no name twice; a reference that leads to no
    model leaves the set as it was, and an edge that leads to no model
    does not keep the call from returning. *)
Theorem collectDependencies_terminates (models : Obj.t Model.t)
  (dependencies : list string) (model : model_ref) (fuel : nat) :
  List.length models < fuel ->
  exists result,
    collectDependencies fuel models dependencies model = Some result
    /\ (forall deeper,
          fuel <= deeper ->
          collectDependencies deeper models dependencies model
          = Some result)
    /\ incl dependencies result
    /\ (NoDup dependencies -> NoDup result)
    /\ (Obj.get (ref_key model) models = None -> result = dependencies).
Proof.
  intros Hfuel.
  destruct (collectDependencies_enough_fuel models fuel dependencies model)
    as [result [Hrun Hrest]].
  - pose proof (unvisited_le_length models dependencies). lia.
  - exists result. split; [exact Hrun |]. split; [| exact Hrest].
    intros deeper Hle.
    now apply (collectDependencies_fuel_le models fuel deeper).
Qed.

Lemma collectDependencies_terminates_witness :
  List.length cyclic_models < 4
  /\ exists result,
       collectDependencies 4 cyclic_models [] (ModelRef "A") = Some result
       /\ (forall deeper,
             4 <= deeper ->
             collectDependencies deeper cyclic_models [] (ModelRef "A")
             = Some result)
       /\ incl [] result
       /\ (NoDup (@nil string) -> NoDup result)
       /\ (Obj.get "A" cyclic_models = None -> result = []).
Proof.
  assert (H : List.length cyclic_models < 4) by (simpl; lia).
  split; [exact H |].
  exact (collectDependencies_terminates cyclic_models [] (ModelRef "A") 4 H).
Defined.

(** The closure of the cycle, from [A]: each model once, the edge to
    [gone] without effect. *)
Example collectDependencies_cycle :
  collectDependencies 4 cyclic_models [] (ModelRef "A")
  = Some ["A"; "B"; "C"]
  /\ collectDependencies 4 cyclic_models ["A"] (ModelRef "gone")
     = Some ["A"].
Proof. split; reflexivity. Qed.

(** ** Loops *)

Lemma forEach_cons {A S : Type} (f : S -> A -> result S) (x : A)
  (l : list A) (s : S) :
  forEach f (x :: l) s = (s' <- f s x ;; forEach f l s').
Proof. reflexivity. Qed.

(** ** The tag filter *)

Section TagFilter.

Variable includeTags : option (list string).
Variable ignoreUnusedModels : bool.

(** The test [!includeTags || includeTags.indexOf(serviceName) >= 0]. *)
Let included (serviceName : string) : bool :=
  match includeTags with
  | None => true
  | Some tags => existsb (String.eqb serviceName) tags
  end.

(** Whether the loop over [l] deletes the key [k]. *)
Let deleted_by (l : Obj.t Service.t) (k : string) : bool :=
  existsb (fun e => String.eqb (fst e) k && negb (included (fst e))) l.

Lemma filter_filter {A : Type} (f g : A -> bool) (l : list A) :
  filter f (filter g l) = filter (fun x => g x && f x) l.
Proof.
  induction l as [| x l IH]; simpl; [reflexivity |].
  destruct (g x); simpl; [destruct (f x) |]; now rewrite IH.
Qed.

Lemma filter_service_step (acc : Obj.t Service.t) (used : list model_ref)
  (k : string) (s : Service.t) :
  filter_service includeTags ignoreUnusedModels (acc, used) (k, s)
  = if negb (included k) then Ok (Obj.delete k acc, used)
    else if ignoreUnusedModels then
      match Service.serviceDependencies s with
      | Some deps =>
          Ok (acc,
              fold_left (fun used dep => set_add ref_eqb dep used)
                deps used)
      | None =>
          Throw (TypeError
            "Cannot read properties of undefined (reading 'forEach')")
      end
    else Ok (acc, used).
Proof. reflexivity. Qed.

(** The first loop: what is left of [acc] once the services of [l]
    have been looked at. *)
Lemma filter_service_loop (l : Obj.t Service.t) :
  (ignoreUnusedModels = true ->
   forall name s, In (name, s) l -> included name = true ->
                  Service.serviceDependencies s <> None) ->
  forall acc used,
  exists used',
    forEach (filter_service includeTags ignoreUnusedModels) l (acc, used)
    = Ok (filter (fun e => negb (deleted_by l (fst e))) acc, used').
Proof.
  induction l as [| [k s] l IH]; intros Hdeps acc used.
  - exists used. simpl. f_equal. f_equal. symmetry.
    apply forallb_filter_id. now apply forallb_forall.
  - assert (Hl : ignoreUnusedModels = true ->
                 forall name s0, In (name, s0) l -> included name = true ->
                                 Service.serviceDependencies s0 <> None).
    { intros Hi name s0 Hin. apply (Hdeps Hi). now right. }
    rewrite forEach_cons, filter_service_step.
    destruct (included k) eqn:Hk; cbn [negb].
    + assert (Hpred : forall acc' : Obj.t Service.t,
                filter (fun e => negb (deleted_by ((k, s) :: l) (fst e))) acc'
                = filter (fun e => negb (deleted_by l (fst e))) acc').
      { intros acc'. apply filter_ext. intros e. unfold deleted_by.
        simpl. now rewrite Hk, andb_false_r. }
      rewrite Hpred.
      destruct ignoreUnusedModels eqn:Hi.
      * destruct (Service.serviceDependencies s) as [deps |] eqn:Hs.
        -- cbn [bind]. apply (IH Hl).
        -- exfalso. apply (Hdeps eq_refl k s); auto. now left.
      * cbn [bind]. apply (IH Hl).
    + cbn [bind].
      destruct (IH Hl (Obj.delete k acc) used) as [used' ->].
      exists used'. f_equal. f_equal. unfold Obj.delete.
      rewrite filter_filter. apply filter_ext. intros [k' s'].
      unfold deleted_by. simpl. rewrite Hk, andb_true_r.
      now rewrite negb_orb.
Qed.

Lemma deleted_by_self (services : Obj.t Service.t) (e : string * Service.t) :
  In e services ->
  negb (deleted_by services (fst e)) = included (fst e).
Proof.
  intros Hin. unfold deleted_by.
  destruct (included (fst e)) eqn:Hinc.
  - apply negb_true_iff. apply not_true_is_false. intros H.
    apply existsb_exists in H as [e' [_ H]].
    apply andb_true_iff in H as [Heq Hno]. apply String.eqb_eq in Heq.
    rewrite Heq, Hinc in Hno. discriminate.
  - apply negb_false_iff. apply existsb_exists. exists e. split; auto.
    now rewrite String.eqb_refl, Hinc.
Qed.

(** The second loop: every call of [collectDependencies] returns. *)
Lemma collect_used_models (models : Obj.t Model.t) (used : list model_ref) :
  forall acc,
  exists all,
    fold_left
      (fun acc dep =>
         match acc with
         | Some d =>
             collectDependencies (S (List.length models)) models d dep
         | None => None
         end)
      used (Some acc)
    = Some all.
Proof.
  induction used as [| u used IH]; intros acc; cbn [fold_left].
  - now exists acc.
  - destruct (collectDependencies_enough_fuel models
                (S (List.length models)) acc u) as [r [-> _]].
    + pose proof (unvisited_le_length models acc). lia.
    + apply IH.
Qed.

(** The services that [applyTagFilter] leaves. *)
Lemma applyTagFilter_services (models : Obj.t Model.t)
  (services : Obj.t Service.t) :
  (ignoreUnusedModels = true ->
   forall name s, In (name, s) services -> included name = true ->
                  Service.serviceDependencies s <> None) ->
  exists models',
    applyTagFilter models services includeTags ignoreUnusedModels
    = Ok (models', filter (fun e => included (fst e)) services).
Proof.
  intros Hdeps. unfold applyTagFilter.
  destruct (filter_service_loop services Hdeps services [])
    as [used ->].
  cbn [bind].
  rewrite (filter_ext_in _ (fun e => included (fst e)))
    by (intros e He; now apply deleted_by_self).
  destruct ignoreUnusedModels.
  - destruct (collect_used_models models used []) as [all ->].
    eexists. reflexivity.
  - eexists. reflexivity.
Qed.

End TagFilter.

(** C5, as amended: if [includeTags] is absent every service is
    retained; otherwise, an empty list included, a service is retained
    if and only if its name is a member of [includeTags], and the other
    services are removed from the mapping.  (Every service that is
    retained has its dependencies resolved when unused models are to be
    removed.) *)
Theorem applyTagFilter_retains_members (models : Obj.t Model.t)
  (services : Obj.t Service.t) (includeTags : option (list string))
  (ignoreUnusedModels : bool) :
  (ignoreUnusedModels = true ->
   forall name s,
     In (name, s) services ->
     (forall tags, includeTags = Some tags -> In name tags) ->
     Service.serviceDependencies s <> None) ->
  exists models' services',
    applyTagFilter models services includeTags ignoreUnusedModels
    = Ok (models', services')
    /\ (includeTags = None -> services' = services)
    /\ (forall tags,
          includeTags = Some tags ->
          services'
          = filter (fun e => existsb (String.eqb (fst e)) tags) services
          /\ forall name s,
               In (name, s) services'
               <-> In (name, s) services /\ In name tags).
Proof.
  intros Hdeps.
  destruct (applyTagFilter_services includeTags ignoreUnusedModels
              models services) as [models' Hrun].
  - intros Hi name s Hin Hinc. apply (Hdeps Hi name s Hin).
    intros tags ->. now apply existsb_eqb_In.
  - exists models'. eexists. split; [exact Hrun |]. split.
    + intros ->. apply forallb_filter_id. now apply forallb_forall.
    + intros tags ->. split; [reflexivity |].
      intros name s. rewrite filter_In. simpl.
      now rewrite existsb_eqb_In.
Qed.

Lemma applyTagFilter_retains_members_witness :
  exists models' services',
    applyTagFilter [] two_services (Some ["Pets"]) true
    = Ok (models', services')
    /\ (Some ["Pets"] = None -> services' = two_services)
    /\ (forall tags,
          Some ["Pets"] = Some tags ->
          services'
          = filter (fun e => existsb (String.eqb (fst e)) tags) two_services
          /\ forall name s,
               In (name, s) services'
               <-> In (name, s) two_services /\ In name tags).
Proof.
  apply (applyTagFilter_retains_members [] two_services (Some ["Pets"]) true).
  intros _ name s Hin _.
  destruct Hin as [[= <- <-] | [[= <- <-] | []]]; discriminate.
Defined.

(** C5, as stated, fails: with the empty list for [includeTags] every
    service is removed, where the claim retains them all. *)
Lemma applyTagFilter_empty_list_counterexample :
  applyTagFilter [] two_services (Some []) true = Ok ([], [])
  /\ filter (fun e => spec_retained (Some []) (fst e)) two_services
     = two_services.
Proof. split; reflexivity. Qed.

(** The empty text for the option becomes the list of one empty tag and
    removes every service as well. *)
Example applyTagFilter_empty_text :
  includeTags_of (TagsText "") = Some [""]
  /\ applyTagFilter [] two_services (includeTags_of (TagsText "")) false
     = Ok ([], []).
Proof. split; reflexivity. Qed.

(** ** The order of the parameters *)

Section StringOrder.

Lemma string_lt_iff (a b : string) :
  JsString.lt a b = true <-> String_as_OT.lt a b.
Proof.
  unfold JsString.lt, String.ltb. rewrite <- String_as_OT.cmp_lt.
  unfold String_as_OT.cmp. destruct (String.compare a b); split;
    congruence.
Qed.

Lemma string_lt_trans (a b c : string) :
  JsString.lt a b = true -> JsString.lt b c = true ->
  JsString.lt a c = true.
Proof. rewrite !string_lt_iff. apply String_as_OT.lt_trans. Qed.

(** Two strings are equal or one is below the other. *)
Lemma string_lt_total (a b : string) :
  JsString.lt a b = true \/ a = b \/ JsString.lt b a = true.
Proof.
  unfold JsString.lt, String.ltb.
  rewrite (String.compare_antisym b a).
  destruct (String.compare a b) eqn:E; simpl; auto.
  right. left. now apply String.compare_eq_iff.
Qed.

Lemma string_not_lt_trans (a b c : string) :
  JsString.lt a b = false -> JsString.lt b c = false ->
  JsString.lt a c = false.
Proof.
  intros Hab Hbc. apply not_true_is_false. intros Hac.
  destruct (string_lt_total b a) as [Hba | [-> | Hba']].
  - pose proof (string_lt_trans _ _ _ Hba Hac). congruence.
  - congruence.
  - congruence.
Qed.

Lemma string_lt_asym (a b : string) :
  JsString.lt a b = true -> JsString.lt b a = false.
Proof.
  unfold JsString.lt, String.ltb. rewrite (String.compare_antisym a b).
  destruct (String.compare b a); simpl; congruence.
Qed.

End StringOrder.

Section ParameterOrder.

Lemma compare_parameters_after (a b : Param.t) :
  (compare_parameters a b >? 0)%Z = true -> precedes b a.
Proof.
  unfold compare_parameters, precedes, JsString.gt, JsString.lt.
  destruct (Param.paramRequired a), (Param.paramRequired b);
    cbn [andb negb];
    try destruct (String.ltb (Param.paramName b) (Param.paramName a))
      eqn:Hgt;
    try destruct (String.ltb (Param.paramName a) (Param.paramName b))
      eqn:Hlt;
    simpl; intros H; try discriminate H; auto.
Qed.

Lemma compare_parameters_before (a b : Param.t) :
  (compare_parameters a b >? 0)%Z = false -> precedes a b.
Proof.
  pose proof (string_lt_asym (Param.paramName b) (Param.paramName a))
    as Hasym.
  unfold compare_parameters, precedes, JsString.gt, JsString.lt in *.
  destruct (Param.paramRequired a), (Param.paramRequired b);
    cbn [andb negb];
    try destruct (String.ltb (Param.paramName b) (Param.paramName a))
      eqn:Hgt;
    try destruct (String.ltb (Param.paramName a) (Param.paramName b))
      eqn:Hlt;
    simpl; intros H; try discriminate H; auto;
    specialize (Hasym eq_refl); discriminate Hasym.
Qed.

Lemma precedes_trans (a b c : Param.t) :
  precedes a b -> precedes b c -> precedes a c.
Proof.
  unfold precedes.
  intros [[Ha Hb] | [Hab Hn]] [[Hb' Hc] | [Hbc Hn']]; try congruence.
  - left. split; congruence.
  - left. split; congruence.
  - right. split; [congruence |]. eapply string_not_lt_trans; eassumption.
Qed.

Lemma sort_insert_Forall (P : Param.t -> Prop) (x : Param.t)
  (l : list Param.t) :
  P x -> Forall P l -> Forall P (sort_insert compare_parameters x l).
Proof.
  intros Hx Hl. induction Hl as [| y l Hy Hl IH]; simpl.
  - now constructor.
  - destruct (compare_parameters x y >? 0)%Z; repeat constructor; auto.
Qed.

Lemma sort_insert_sorted (x : Param.t) (l : list Param.t) :
  StronglySorted precedes l ->
  StronglySorted precedes (sort_insert compare_parameters x l).
Proof.
  intros Hl. induction Hl as [| y l Hl IH Hy]; simpl.
  - repeat constructor.
  - destruct (compare_parameters x y >? 0)%Z eqn:Hcmp.
    + constructor; [exact IH |].
      apply sort_insert_Forall; [| exact Hy].
      now apply compare_parameters_after.
    + apply compare_parameters_before in Hcmp.
      constructor; [now constructor |].
      constructor; [exact Hcmp |].
      eapply Forall_impl; [| exact Hy].
      intros z Hz. eapply precedes_trans; eassumption.
Qed.

Lemma array_sort_sorted (l : list Param.t) :
  StronglySorted precedes (array_sort compare_parameters l).
Proof.
  unfold array_sort. induction l as [| x l IH]; simpl.
  - constructor.
  - now apply sort_insert_sorted.
Qed.

Lemma sort_insert_Permutation {A : Type} (compare : A -> A -> Z) (x : A)
  (l : list A) :
  Permutation (sort_insert compare x l) (x :: l).
Proof.
  induction l as [| y l IH]; simpl; [reflexivity |].
  destruct (compare x y >? 0)%Z; [| reflexivity].
  rewrite IH. apply perm_swap.
Qed.

Lemma array_sort_Permutation {A : Type} (compare : A -> A -> Z)
  (l : list A) :
  Permutation (array_sort compare l) l.
Proof.
  unfold array_sort. induction l as [| x l IH]; simpl; [reflexivity |].
  rewrite sort_insert_Permutation. now constructor.
Qed.

(** Flagging the last element changes no key. *)
Lemma update_last_keys (l : list Param.t) :
  map param_key (update_last Param.set_last l) = map param_key l.
Proof.
  induction l as [| x [| y l] IH]; try reflexivity.
  change (update_last Param.set_last (x :: y :: l))
    with (x :: update_last Param.set_last (y :: l)).
  cbn [map]. now rewrite IH.
Qed.

Lemma cons_keys (x x' : Param.t) (l l' : list Param.t) :
  map param_key (x :: l) = map param_key (x' :: l') ->
  param_key x = param_key x' /\ map param_key l = map param_key l'.
Proof.
  cbn [map]. generalize (param_key x), (param_key x').
  intros k k' H. now inversion H.
Qed.

Lemma precedes_by_key (a a' b b' : Param.t) :
  param_key a = param_key a' -> param_key b = param_key b' ->
  precedes a b -> precedes a' b'.
Proof.
  unfold param_key, precedes. intros [= -> ->] [= -> ->]. auto.
Qed.

Lemma Forall_precedes_by_key (x x' : Param.t) (l : list Param.t) :
  param_key x = param_key x' ->
  forall l',
    map param_key l = map param_key l' ->
    Forall (precedes x) l -> Forall (precedes x') l'.
Proof.
  intros Hx. induction l as [| y l IH]; intros [| y' l'] Hkeys Hl;
    try discriminate; [constructor |].
  apply cons_keys in Hkeys as [Hy Hrest]. constructor.
  - apply Forall_inv in Hl. eapply precedes_by_key; eassumption.
  - apply Forall_inv_tail in Hl. now apply IH.
Qed.

Lemma sorted_by_key (l : list Param.t) :
  forall l',
    map param_key l = map param_key l' ->
    StronglySorted precedes l -> StronglySorted precedes l'.
Proof.
  induction l as [| x l IH]; intros [| x' l'] Hkeys Hl;
    try discriminate; [constructor |].
  apply cons_keys in Hkeys as [Hx Hrest].
  apply StronglySorted_inv in Hl as [Hl Hx'].
  constructor; [now apply IH |].
  eapply Forall_precedes_by_key; eassumption.
Qed.

Lemma final_update_last (l : list Param.t) :
  final (update_last Param.set_last l)
  = option_map Param.set_last (final l).
Proof.
  induction l as [| x [| y l] IH]; try reflexivity.
  change (update_last Param.set_last (x :: y :: l))
    with (x :: update_last Param.set_last (y :: l)).
  change (final (x :: y :: l)) with (final (y :: l)).
  rewrite <- IH. destruct l; reflexivity.
Qed.

Lemma final_None {A : Type} (l : list A) : final l = None -> l = [].
Proof.
  induction l as [| x [| y l] IH]; auto; try discriminate.
  intros H. apply IH in H. discriminate.
Qed.

End ParameterOrder.

(** ** Dependency lists *)

Section Dictionaries.
Context {V : Type}.

Lemma In_replace_value (k k' : string) (v v' : V) (o : Obj.t V) :
  In (k', v') (Obj.replace_value k v o) -> v' = v \/ In (k', v') o.
Proof.
  induction o as [| [k0 v0] o IH]; simpl; [tauto |].
  destruct (String.eqb k k0); simpl.
  - intros [[= _ <-] | H]; auto.
  - intros [H | H]; auto. destruct (IH H); auto.
Qed.

Lemma In_insert_index (n : N) (k k' : string) (v v' : V) (o : Obj.t V) :
  In (k', v') (Obj.insert_index n k v o) -> v' = v \/ In (k', v') o.
Proof.
  induction o as [| [k0 v0] o IH]; simpl.
  - intros [[= _ <-] | []]. auto.
  - destruct (Obj.array_index k0) as [n0 |];
      [destruct (n <? n0)%N |]; simpl.
    + intros [[= _ <-] | H]; auto.
    + intros [H | H]; auto. destruct (IH H); auto.
    + intros [[= _ <-] | H]; auto.
Qed.

(** What a dictionary holds after [o[k] = v]. *)
Lemma In_set (k k' : string) (v v' : V) (o : Obj.t V) :
  In (k', v') (Obj.set k v o) -> v' = v \/ In (k', v') o.
Proof.
  unfold Obj.set. destruct (Obj.has k o).
  - apply In_replace_value.
  - destruct (Obj.array_index k).
    + apply In_insert_index.
    + rewrite in_app_iff. simpl. intros [H | [[= _ <-] | []]]; auto.
Qed.

(** What a dictionary holds after the object under [k] has changed. *)
Lemma In_update (k k' : string) (f : V -> V) (v' : V) (o : Obj.t V) :
  In (k', v') (update k f o) ->
  exists v, In (k', v) o /\ (v' = v \/ v' = f v).
Proof.
  induction o as [| [k0 v0] o IH]; simpl; [tauto |].
  destruct (String.eqb k k0); simpl.
  - intros [[= <- <-] | H]; eauto.
  - intros [[= <- <-] | H]; eauto.
    destruct (IH H) as [v [Hin Hv]]. eauto.
Qed.

(** What [update] changes is what [get] finds. *)
Lemma In_update_first (k k' : string) (f : V -> V) (v' : V)
  (o : Obj.t V) :
  In (k', v') (update k f o) ->
  In (k', v') o
  \/ (k' = k /\ exists v, Obj.get k o = Some v /\ v' = f v).
Proof.
  induction o as [| [k0 v0] o IH]; simpl; [tauto |].
  destruct (String.eqb_spec k k0) as [-> | Hk]; simpl.
  - intros [[= <- <-] | H]; eauto.
  - intros [[= <- <-] | H]; auto.
    destruct (IH H) as [Hin | Hf]; auto.
Qed.

Lemma get_update (k k' : string) (f : V -> V) (o : Obj.t V) :
  Obj.get k' (update k f o)
  = if String.eqb k' k then option_map f (Obj.get k o)
    else Obj.get k' o.
Proof.
  induction o as [| [k0 v0] o IH]; simpl.
  - now destruct (String.eqb k' k).
  - destruct (String.eqb_spec k k0) as [-> | Hk]; simpl.
    + destruct (String.eqb_spec k' k0); reflexivity.
    + destruct (String.eqb_spec k' k0) as [-> | Hk'].
      * destruct (String.eqb_spec k0 k); [congruence | reflexivity].
      * exact IH.
Qed.

Lemma has_update (k k' : string) (f : V -> V) (o : Obj.t V) :
  Obj.has k' (update k f o) = Obj.has k' o.
Proof.
  unfold Obj.has. rewrite get_update.
  destruct (String.eqb_spec k' k) as [-> | _]; [| reflexivity].
  now destruct (Obj.get k o).
Qed.

Lemma keys_update (k : string) (f : V -> V) (o : Obj.t V) :
  Obj.keys (update k f o) = Obj.keys o.
Proof.
  unfold Obj.keys. induction o as [| [k0 v0] o IH]; simpl;
    [reflexivity |].
  destruct (String.eqb k k0); simpl; [reflexivity | now rewrite IH].
Qed.

End Dictionaries.

(** A property that every turn of a loop keeps holds when the loop
    ends. *)
Lemma forEach_invariant {A S : Type} (P : S -> Prop)
  (f : S -> A -> result S) (l : list A) :
  (forall s x s', In x l -> f s x = Ok s' -> P s -> P s') ->
  forall s s', forEach f l s = Ok s' -> P s -> P s'.
Proof.
  induction l as [| x l IH]; intros Hstep s s' Hrun Hs; simpl in Hrun.
  - now injection Hrun as <-.
  - destruct (f s x) as [s1 | |] eqn:Hf; try discriminate. simpl in Hrun.
    apply (IH (fun s0 y s0' Hy => Hstep s0 y s0' (or_intror Hy)) s1 s' Hrun).
    apply (Hstep s x s1); auto. now left.
Qed.

Section Resolver.

Variable models : Obj.t Model.t.

Lemma removeBrackets_undefined (dep dep' : jsType) :
  removeBrackets dep = Ok dep' -> dep' = TUndefined -> dep = TUndefined.
Proof.
  destruct dep as [| | s | ts d]; simpl; try congruence.
  destruct (JsString.indexOf s "[" >=? 0)%Z; congruence.
Qed.

Lemma removeBrackets_not_inline (dep dep' : jsType) :
  removeBrackets dep = Ok dep' ->
  dep' = TUndefined \/ dep' = TNull \/ exists s, dep' = TString s.
Proof.
  destruct dep as [| | s | ts d]; simpl; try discriminate.
  - intros [= <-]. auto.
  - intros [= <-]. auto.
  - destruct (JsString.indexOf s "[" >=? 0)%Z; intros [= <-]; eauto.
Qed.

(** What [add] does, once the brackets are removed. *)
Lemma add_cases (this this' : DependenciesResolver.t) (dep : jsType) :
  DependenciesResolver.add models this dep = Ok this' ->
  this' = this
  \/ exists dep',
       removeBrackets dep = Ok dep'
       /\ type_mem dep' (DependenciesResolver.dependencyNames this) = false
       /\ type_strict_eq (DependenciesResolver.ownType this) dep' = false
       /\ Obj.has (type_toString dep') models
          || Obj.inherits (type_toString dep') = true
       /\ this'
          = DependenciesResolver.Build
              (DependenciesResolver.ownType this)
              (DependenciesResolver.dependencies this
               ++ [ModelRef (type_toString dep')])
              (DependenciesResolver.dependencyNames this ++ [dep']).
Proof.
  unfold DependenciesResolver.add.
  destruct (removeBrackets dep) as [dep' | |]; cbn [bind];
    try discriminate.
  destruct (type_mem dep' (DependenciesResolver.dependencyNames this))
    eqn:Hmem; cbn [negb andb]; [intros [= <-]; now left |].
  destruct (type_strict_eq (DependenciesResolver.ownType this) dep')
    eqn:Hown; cbn [negb]; [intros [= <-]; now left |].
  cbv zeta. unfold Obj.has.
  destruct (Obj.get (type_toString dep') models) eqn:Hget.
  - intros [= <-]. right. exists dep'. rewrite Hget.
    repeat split; assumption.
  - destruct (Obj.inherits (type_toString dep')) eqn:Hinh;
      intros [= <-]; [right | now left].
    exists dep'. rewrite Hget. repeat split; assumption.
Qed.

Lemma add_ownType (this this' : DependenciesResolver.t) (dep : jsType) :
  DependenciesResolver.add models this dep = Ok this' ->
  DependenciesResolver.ownType this' = DependenciesResolver.ownType this.
Proof.
  intros H. apply add_cases in H as [-> | [dep' [_ [_ [_ [_ ->]]]]]];
    reflexivity.
Qed.

(** Under a plain name only a model that exists is added. *)
Lemma add_resolved (this this' : DependenciesResolver.t) (dep : jsType) :
  plain_name models dep = true ->
  DependenciesResolver.add models this dep = Ok this' ->
  all_resolved models (DependenciesResolver.dependencies this) ->
  all_resolved models (DependenciesResolver.dependencies this').
Proof.
  intros Hplain H Hres.
  apply add_cases in H as [-> | [dep' [Hrb [_ [_ [Hhas ->]]]]]];
    [exact Hres |].
  unfold plain_name in Hplain. rewrite Hrb in Hplain.
  intros r. simpl. rewrite in_app_iff. intros [Hr | [<- | []]]; auto.
  simpl. destruct (Obj.has (type_toString dep') models); [reflexivity |].
  destruct (Obj.inherits (type_toString dep')); discriminate.
Qed.

Hypothesis no_null_model : Obj.has "null" models = false.

Lemma type_mem_In (s : string) (names : list jsType) :
  type_mem (TString s) names = false -> ~ In (TString s) names.
Proof.
  unfold type_mem. intros Hmem Hin.
  assert (existsb (fun a => type_strict_eq a (TString s)) names = true).
  { apply existsb_exists. exists (TString s). split; [exact Hin |].
    simpl. apply String.eqb_refl. }
  congruence.
Qed.

Lemma add_distinct (this this' : DependenciesResolver.t) (dep : jsType) :
  dep <> TUndefined \/ DependenciesResolver.ownType this = TUndefined ->
  DependenciesResolver.add models this dep = Ok this' ->
  names_distinct this -> names_distinct this'.
Proof.
  intros Hdep H [Hmap [Hnames Hnodup]].
  apply add_cases in H
    as [-> | [dep' [Hrb [Hmem [Hown [Hhas ->]]]]]];
    [now repeat split |].
  destruct (removeBrackets_not_inline _ _ Hrb) as [-> | [-> | [s ->]]].
  - exfalso. pose proof (removeBrackets_undefined _ _ Hrb eq_refl) as ->.
    destruct Hdep as [Hdep | Hdep]; [now elim Hdep |].
    rewrite Hdep in Hown. discriminate.
  - simpl in Hhas. rewrite no_null_model in Hhas. discriminate.
  - unfold names_distinct. simpl. repeat split.
    + rewrite map_app. simpl. now rewrite Hmap.
    + apply Forall_app. split; [exact Hnames |]. repeat constructor. eauto.
    + apply NoDup_app; [exact Hnodup | repeat constructor; auto |].
      intros a Ha [<- | []]. now apply (type_mem_In s _ Hmem).
Qed.

Lemma names_distinct_NoDup (this : DependenciesResolver.t) :
  names_distinct this -> NoDup (DependenciesResolver.get this).
Proof.
  unfold DependenciesResolver.get. intros [-> [Hnames Hnodup]].
  induction Hnodup as [| n names Hn Hnodup IH]; simpl; constructor.
  - apply Forall_inv in Hnames as Hs. destruct Hs as [s ->].
    apply Forall_inv_tail in Hnames.
    intros Hin. apply in_map_iff in Hin as [n' [Heq Hin]].
    rewrite Forall_forall in Hnames.
    destruct (Hnames n' Hin) as [s' ->]. simpl in Heq.
    injection Heq as ->. auto.
  - apply IH. now apply Forall_inv_tail in Hnames.
Qed.

End Resolver.

Section TypeExpressions.

(** One unfolding of [propertyType] ends in one of these shapes. *)
Lemma propertyType_shape (s : schema) :
  propertyType s = TNull
  \/ (exists t, propertyType s = TString t)
  \/ exists props extra d,
       propertyType s
       = TInline
           (let ts :=
              snd (fst (match props with
                        | Some ps =>
                            inline_members propertyType ps (true, [], "{")
                        | None => (true, [], "{")
                        end)) in
            match extra with
            | Some e =>
                if type_mem (propertyType e) ts then ts
                else ts ++ [propertyType e]
            | None => ts
            end)
           d.
Proof.
  destruct s as [ref xtype type items props extra allOf req enum].
  cbn [propertyType].
  destruct ref as [r |].
  { destruct (simpleRef (Some r)); eauto. }
  destruct (match xtype with Some x => x_truthy x | None => false end).
  { match goal with
    | |- context [if ?c then TString "void" else _] => destruct c
    end; eauto. }
  repeat match goal with
         | |- context [if ?c then _ else _] => destruct c; eauto
         end.
  right. right. exists props, extra.
  destruct (match props with
            | Some ps => inline_members propertyType ps (true, [], "{")
            | None => (true, [], "{")
            end) as [[first ts] d].
  destruct extra as [e |]; eexists; reflexivity.
Qed.

Lemma propertyType_defined (s : schema) : propertyType s <> TUndefined.
Proof.
  destruct (propertyType_shape s) as [-> | [[t ->] | [p [e [d ->]]]]];
    discriminate.
Qed.

Lemma inline_members_defined (resolve : schema -> jsType) :
  (forall s, resolve s <> TUndefined) ->
  forall ps st,
    ~ In TUndefined (snd (fst st)) ->
    ~ In TUndefined (snd (fst (inline_members resolve ps st))).
Proof.
  intros Hres. induction ps as [| [name prop] ps IH];
    intros [[first ts] d] Hts; simpl; [exact Hts |].
  apply IH. simpl. destruct (type_mem (resolve prop) ts); [exact Hts |].
  rewrite in_app_iff. simpl. intros [H | [H | []]]; [auto |].
  now apply (Hres prop).
Qed.

(** No member type of an inline structural type is [undefined]. *)
Lemma propertyType_members (s : schema) :
  members_defined (propertyType s).
Proof.
  destruct (propertyType_shape s) as [-> | [[t ->] | [p [e [d ->]]]]];
    simpl; auto.
  assert (Hts : ~ In TUndefined
                  (snd (fst (match p with
                             | Some ps =>
                                 inline_members propertyType ps
                                   (true, [], "{")
                             | None => (true, [], "{")
                             end)))).
  { destruct p as [ps |]; [| simpl; tauto].
    apply inline_members_defined; [exact propertyType_defined |].
    simpl. tauto. }
  destruct e as [e |]; [| exact Hts].
  destruct (type_mem (propertyType e) _); [exact Hts |].
  rewrite in_app_iff. simpl. intros [H | [H | []]]; [auto |].
  now apply (propertyType_defined e).
Qed.

End TypeExpressions.

Section ResolverRuns.

Variable models : Obj.t Model.t.

(** An addition under a plain name keeps a resolver good, unless
    [undefined] is added to a resolver that has a type of its own. *)
Lemma add_good (this this' : DependenciesResolver.t) (dep : jsType) :
  plain_name models dep = true ->
  dep <> TUndefined \/ DependenciesResolver.ownType this = TUndefined ->
  DependenciesResolver.add models this dep = Ok this' ->
  resolver_good models this -> resolver_good models this'.
Proof.
  intros Hplain Hdep Hadd [Hres Hnames]. split.
  - now apply (add_resolved models this this' dep).
  - intros Hnull.
    now apply (add_distinct models Hnull this this' dep); auto.
Qed.

Lemma resolver_good_new (ownType : jsType) :
  resolver_good models (DependenciesResolver.new ownType).
Proof.
  split.
  - intros r [].
  - intros _. repeat split; constructor.
Qed.

Lemma resolver_good_get (this : DependenciesResolver.t) :
  resolver_good models this ->
  dependencies_good models (Some (DependenciesResolver.get this)).
Proof.
  intros [Hres Hnames] l [= <-]. split; [exact Hres |].
  intros Hnull. apply names_distinct_NoDup. auto.
Qed.

(** The invariant of a resolver made for a model: it keeps the type
    it was made for, which is a string. *)
Let model_resolver (this : DependenciesResolver.t) : Prop :=
  (exists own, DependenciesResolver.ownType this = TString own)
  /\ resolver_good models this.

Lemma add_model_resolver (this this' : DependenciesResolver.t)
  (dep : jsType) :
  plain_name models dep = true ->
  dep <> TUndefined ->
  DependenciesResolver.add models this dep = Ok this' ->
  model_resolver this -> model_resolver this'.
Proof.
  intros Hplain Hdep Hadd [[own Hown] Hgood]. split.
  - exists own. now rewrite (add_ownType models this this' dep Hadd).
  - now apply (add_good this this' dep); auto.
Qed.

Lemma modelName_of_string (r : model_ref) (t : jsType) :
  modelName_of models r = Ok t -> t <> TUndefined.
Proof.
  unfold modelName_of. destruct (Obj.get (ref_key r) models);
    [intros [= <-] |]; discriminate.
Qed.

(** The name of a model that is referred to is the key of the
    reference, once every model is kept under its name. *)
Lemma modelName_of_key (r : model_ref) (t : jsType) :
  names_are_keys models ->
  modelName_of models r = Ok t -> t = TString (ref_key r).
Proof.
  intros Hnames. unfold modelName_of.
  destruct (Obj.get (ref_key r) models) as [m |] eqn:Hm;
    [| discriminate].
  intros [= <-]. now rewrite (Hnames _ _ Hm).
Qed.

Lemma add_property_dependencies_good (this this' : DependenciesResolver.t)
  (property : Property.t) :
  forallb (plain_name models) (property_candidates property) = true ->
  members_defined (Property.propertyType property) ->
  add_property_dependencies models this property = Ok this' ->
  model_resolver this -> model_resolver this'.
Proof.
  unfold add_property_dependencies, property_candidates.
  destruct (Property.propertyType property) as [| | s | ts d];
    try discriminate; simpl; intros Hplain Hdef Hrun.
  - apply (add_model_resolver this this' (TString s)); auto;
      [| discriminate].
    now apply andb_true_iff in Hplain as [Hplain _].
  - revert Hrun. apply forEach_invariant.
    intros s0 t Ht Hadd. rewrite forallb_forall in Hplain.
    apply (add_model_resolver s0 Ht t); auto.
    intros ->. now apply Hdef.
Qed.

(** The third loop of [processModels], for one model: the list it
    stores is good when the names handed to the resolver are plain. *)
Lemma resolve_dependencies_step (name : string) (models' : Obj.t Model.t) :
  names_are_keys models ->
  resolve_dependencies models name = Ok models' ->
  (forall m, Obj.get name models = Some m ->
             parent_linked m /\ properties_defined m) ->
  models' = models
  \/ exists d,
       models' = update name (Model.set_dependencies d) models
       /\ forall m, Obj.get name models = Some m ->
            model_plain models m = true ->
            dependencies_good models (Some d).
Proof.
  intros Hnames. unfold resolve_dependencies.
  destruct (Obj.get name models) as [m |] eqn:Hget;
    [| intros [= <-]; now left].
  destruct (Model.modelIsObject m) eqn:Hobj; simpl;
    [| intros [= <-]; now left].
  intros Hrun Hm. destruct (Hm m eq_refl) as [Hlinked Hprops]. right.
  set (start := DependenciesResolver.new (TString (Model.modelName m)))
    in Hrun.
  assert (Hstart : model_resolver start).
  { split; [now exists (Model.modelName m) | apply resolver_good_new]. }
  (* the parent *)
  destruct (match Model.modelParent m with
            | Model.NoParent => Ok start
            | Model.ParentName p =>
                if String.eqb p "" then Ok start
                else DependenciesResolver.add models start TUndefined
            | Model.ParentModel r =>
                parentName <- modelName_of models r ;;
                DependenciesResolver.add models start parentName
            end) as [d1 | |] eqn:Hparent; try discriminate.
  cbn [bind] in Hrun.
  (* the subclasses *)
  destruct (forEach
              (fun deps child =>
                 childName <- modelName_of models child ;;
                 DependenciesResolver.add models deps childName)
              (Model.modelSubclasses m) d1) as [d2 | |] eqn:Hsub;
    try discriminate.
  cbn [bind] in Hrun.
  (* the properties *)
  destruct (Model.modelProperties m) as [ps |] eqn:Hps; try discriminate.
  destruct (forEach (add_property_dependencies models) ps d2)
    as [d3 | |] eqn:Hprop; try discriminate.
  cbn [bind] in Hrun. injection Hrun as <-.
  exists (DependenciesResolver.get d3). split; [reflexivity |].
  intros m0 [= <-] Hplain. unfold model_plain, model_candidates in Hplain.
  rewrite Hps in Hplain. cbn [default] in Hplain.
  rewrite !forallb_app in Hplain.
  apply andb_true_iff in Hplain as [Hplain1 Hplain].
  apply andb_true_iff in Hplain as [Hplain2 Hplain3].
  assert (H1 : model_resolver d1).
  { destruct (Model.modelParent m) as [| p | r] eqn:Hp.
    - now injection Hparent as <-.
    - rewrite (Hlinked Hobj p Hp) in Hparent. simpl in Hparent.
      now injection Hparent as <-.
    - destruct (modelName_of models r) as [pn | |] eqn:Hpn;
        try discriminate.
      simpl in Hparent.
      apply (add_model_resolver start d1 pn); auto.
      + rewrite (modelName_of_key r pn Hnames Hpn).
        simpl in Hplain1. now apply andb_true_iff in Hplain1 as [H _].
      + now apply (modelName_of_string r). }
  assert (H2 : model_resolver d2).
  { revert Hsub H1. apply forEach_invariant.
    intros s0 child s0' Hchild Hstep.
    destruct (modelName_of models child) as [cn | |] eqn:Hcn;
      try discriminate.
    cbn [bind] in Hstep.
    apply (add_model_resolver s0 s0' cn); auto.
    - rewrite (modelName_of_key child cn Hnames Hcn).
      rewrite forallb_forall in Hplain2. apply Hplain2.
      apply in_map_iff. now exists child.
    - now apply (modelName_of_string child). }
  assert (H3 : model_resolver d3).
  { revert Hprop H2. apply forEach_invariant.
    intros s0 p s0' Hp Hadd.
    apply (add_property_dependencies_good s0 s0' p); auto.
    - apply forallb_forall. intros t Ht.
      rewrite forallb_forall in Hplain3. apply Hplain3.
      apply in_flat_map. now exists p.
    - specialize (Hprops ps Hps). rewrite Forall_forall in Hprops.
      auto. }
  apply resolver_good_get. apply H3.
Qed.

End ResolverRuns.

Section ModelPasses.

(** *** The first loop *)

Lemma update_last_Forall {A : Type} (P : A -> Prop) (f : A -> A)
  (l : list A) :
  (forall x, P x -> P (f x)) -> Forall P l -> Forall P (update_last f l).
Proof.
  intros Hf Hl. induction Hl as [| x l Hx Hl IH]; [constructor |].
  destruct l as [| y l].
  - simpl. repeat constructor. auto.
  - change (update_last f (x :: y :: l))
      with (x :: update_last f (y :: l)).
    now constructor.
Qed.

Lemma processProperties_defined (props : Obj.t schema)
  (required : list string) :
  Forall (fun p => members_defined (Property.propertyType p))
    (map snd (processProperties props required)).
Proof.
  unfold processProperties.
  assert (Hgen : forall acc : Obj.t Property.t,
             (forall k v, In (k, v) acc ->
                          members_defined (Property.propertyType v)) ->
             forall k v,
               In (k, v)
                 (fold_left
                    (fun result '(name, property) =>
                       Obj.set name
                         (Property.Build name
                            (existsb (String.eqb name) required)
                            (propertyType property) false)
                         result)
                    props acc) ->
               members_defined (Property.propertyType v)).
  { induction props as [| [name property] props IH]; intros acc Hacc;
      simpl; [exact Hacc |].
    apply IH. intros k v Hin. apply In_set in Hin as [-> | Hin].
    - simpl. apply propertyType_members.
    - eauto. }
  apply Forall_forall. intros v Hv.
  apply in_map_iff in Hv as [[k v'] [<- Hin]].
  apply (Hgen [] (fun _ _ H => match H with end) k v' Hin).
Qed.

Lemma describe_model_fresh (name : string) (model : schema)
  (d : Model.t) :
  describe_model name model = Ok d ->
  Model.modelDependencies d = None /\ properties_defined d.
Proof.
  unfold describe_model.
  match goal with
  | |- bind ?shape _ = _ -> _ =>
      destruct shape as [[[[parent properties] required] enums] | |]
  end; try discriminate.
  cbn [bind]. intros [= <-]. split; [reflexivity |].
  unfold properties_defined. cbn [Model.modelProperties].
  destruct properties as [props |]; [| discriminate].
  intros ps [= <-].
  apply update_last_Forall; [auto |].
  eapply Permutation_Forall;
    [symmetry; apply array_sort_Permutation |].
  apply processProperties_defined.
Qed.

Lemma first_loop_fresh (defs : Obj.t schema) (models : Obj.t Model.t) :
  forEach
    (fun models '(name, model) =>
       descriptor <- describe_model name model ;;
       Ok (Obj.set name descriptor models))
    defs []
  = Ok models ->
  forall k m,
    In (k, m) models ->
    Model.modelDependencies m = None /\ properties_defined m.
Proof.
  intros Hrun.
  refine (forEach_invariant
            (fun models : Obj.t Model.t =>
               forall k m, In (k, m) models ->
                 Model.modelDependencies m = None /\ properties_defined m)
            _ _ _ [] models Hrun _);
    [| intros k m []].
  intros acc [name model] acc' _ Hstep Hacc k m Hin.
  destruct (describe_model name model) as [d | |] eqn:Hd;
    try discriminate.
  cbn [bind] in Hstep. injection Hstep as <-.
  apply In_set in Hin as [-> | Hin]; [| eauto].
  now apply (describe_model_fresh name model).
Qed.

(** *** The second loop *)

(** What a loop over the models keeps: the keys, under each key a
    parent that stays linked once it is, and the properties and
    dependencies of each model. *)
Let kept (models models' : Obj.t Model.t) : Prop :=
  Obj.keys models' = Obj.keys models
  /\ (forall k m', Obj.get k models' = Some m' ->
        exists m, Obj.get k models = Some m
                  /\ (parent_linked m -> parent_linked m'))
  /\ (forall k m', In (k, m') models' ->
        exists m, In (k, m) models
                  /\ Model.modelProperties m' = Model.modelProperties m
                  /\ Model.modelDependencies m'
                     = Model.modelDependencies m).

Lemma kept_refl (models : Obj.t Model.t) : kept models models.
Proof. repeat split; eauto. Qed.

Lemma kept_trans (a b c : Obj.t Model.t) :
  kept a b -> kept b c -> kept a c.
Proof.
  intros [Hk1 [Hg1 Hi1]] [Hk2 [Hg2 Hi2]]. repeat split.
  - congruence.
  - intros k m' Hget. destruct (Hg2 k m' Hget) as [m1 [Hget1 Hl1]].
    destruct (Hg1 k m1 Hget1) as [m0 [Hget0 Hl0]]. eauto.
  - intros k m' Hin. destruct (Hi2 k m' Hin) as [m1 [Hin1 [Hp1 Hd1]]].
    destruct (Hi1 k m1 Hin1) as [m0 [Hin0 [Hp0 Hd0]]].
    exists m0. repeat split; congruence.
Qed.

(** A change of the model under [k] that touches neither its
    properties nor its dependencies, and keeps a linked parent
    linked. *)
Lemma kept_update (k : string) (f : Model.t -> Model.t)
  (models : Obj.t Model.t) :
  (forall m, parent_linked m -> parent_linked (f m)) ->
  (forall m, Model.modelProperties (f m) = Model.modelProperties m) ->
  (forall m, Model.modelDependencies (f m) = Model.modelDependencies m) ->
  kept models (update k f models).
Proof.
  intros Hlinked Hprops Hdeps. repeat split.
  - apply keys_update.
  - intros k' m'. rewrite get_update.
    destruct (String.eqb_spec k' k) as [-> | _]; [| eauto].
    destruct (Obj.get k models) as [m |]; [| discriminate].
    intros [= <-]. eauto.
  - intros k' m' Hin. apply In_update in Hin as [m [Hin [-> | ->]]];
      eauto.
Qed.

Lemma link_hierarchy_kept (models models' : Obj.t Model.t) (k : string) :
  link_hierarchy models k = Ok models' ->
  kept models models'
  /\ forall m', Obj.get k models' = Some m' -> parent_linked m'.
Proof.
  unfold link_hierarchy.
  destruct (Obj.get k models) as [m |] eqn:Hget.
  2: { intros [= <-]. split; [apply kept_refl | congruence]. }
  destruct (Model.modelIsObject m) eqn:Hobj; simpl.
  2: { intros [= <-]. split; [apply kept_refl |].
       intros m'. rewrite Hget. intros [= <-] Hobj'. congruence. }
  destruct (Model.modelParent m) as [| p | r] eqn:Hparent.
  - intros [= <-]. split; [apply kept_refl |].
    intros m'. rewrite Hget. intros [= <-] _ p Hp. congruence.
  - destruct (String.eqb_spec p "") as [-> | Hp].
    + intros [= <-]. split; [apply kept_refl |].
      intros m'. rewrite Hget. intros [= <-] _ p Hp. congruence.
    + destruct (Obj.get p models) as [pm |] eqn:Hpm; [| discriminate].
      intros [= <-]. split.
      * eapply kept_trans; apply kept_update; try reflexivity.
        -- intros m0 _ _ p0 Hp0. discriminate.
        -- intros m0 Hm0. exact Hm0.
      * intros m'. rewrite get_update.
        destruct (String.eqb_spec k p) as [<- | Hkp];
          rewrite get_update, String.eqb_refl, Hget; simpl;
          intros [= <-] _ p0 Hp0; discriminate.
  - intros [= <-]. split; [apply kept_refl |].
    intros m'. rewrite Hget. intros [= <-] _ p Hp. congruence.
Qed.

Lemma second_loop_kept (ks : list string) :
  forall models models',
    forEach link_hierarchy ks models = Ok models' ->
    kept models models'
    /\ forall k m', In k ks -> Obj.get k models' = Some m' ->
                    parent_linked m'.
Proof.
  induction ks as [| k ks IH]; intros models models' Hrun.
  - injection Hrun as <-. split; [apply kept_refl | intros k m' []].
  - rewrite forEach_cons in Hrun.
    destruct (link_hierarchy models k) as [models1 | |] eqn:Hstep;
      try discriminate.
    cbn [bind] in Hrun.
    destruct (link_hierarchy_kept _ _ _ Hstep) as [Hkept1 Hk].
    destruct (IH _ _ Hrun) as [Hkept Hks].
    split; [eapply kept_trans; eassumption |].
    intros k' m' [<- | Hin] Hget; [| eauto].
    destruct Hkept as [_ [Hg _]].
    destruct (Hg k m' Hget) as [m1 [Hget1 Hl]]. eauto.
Qed.

(** *** The names of the models *)

Lemma describe_model_named (name : string) (model : schema)
  (d : Model.t) :
  describe_model name model = Ok d -> Model.modelName d = name.
Proof.
  unfold describe_model.
  match goal with
  | |- bind ?shape _ = _ -> _ =>
      destruct shape as [[[[parent properties] required] enums] | |]
  end; try discriminate.
  cbn [bind]. now intros [= <-].
Qed.

Lemma first_loop_named (defs : Obj.t schema) (models : Obj.t Model.t) :
  forEach
    (fun models '(name, model) =>
       descriptor <- describe_model name model ;;
       Ok (Obj.set name descriptor models))
    defs []
  = Ok models ->
  names_are_keys models.
Proof.
  intros Hrun.
  refine (forEach_invariant names_are_keys _ _ _ [] models Hrun _);
    [| intros k m; discriminate].
  intros acc [name model] acc' _ Hstep Hacc k m.
  destruct (describe_model name model) as [d | |] eqn:Hd;
    try discriminate.
  cbn [bind] in Hstep. injection Hstep as <-. rewrite get_set.
  destruct (String.eqb_spec k name) as [-> | _]; [| apply Hacc].
  intros [= <-]. now apply (describe_model_named name model).
Qed.

Lemma names_are_keys_update (k : string) (f : Model.t -> Model.t)
  (models : Obj.t Model.t) :
  (forall m, Model.modelName (f m) = Model.modelName m) ->
  names_are_keys models -> names_are_keys (update k f models).
Proof.
  intros Hf Hnames k' m'. rewrite get_update.
  destruct (String.eqb_spec k' k) as [-> | _]; [| apply Hnames].
  destruct (Obj.get k models) as [m |] eqn:Hm; [| discriminate].
  intros [= <-]. rewrite Hf. now apply Hnames.
Qed.

Lemma link_hierarchy_named (models models' : Obj.t Model.t) (k : string) :
  link_hierarchy models k = Ok models' ->
  names_are_keys models -> names_are_keys models'.
Proof.
  unfold link_hierarchy.
  destruct (Obj.get k models) as [m |]; [| now intros [= <-]].
  destruct (negb (Model.modelIsObject m)); [now intros [= <-] |].
  destruct (Model.modelParent m) as [| p | r]; try now intros [= <-].
  destruct (String.eqb p ""); [now intros [= <-] |].
  destruct (Obj.get p models); [| discriminate].
  intros [= <-] Hnames.
  apply names_are_keys_update; [reflexivity |].
  now apply names_are_keys_update.
Qed.

(** Whether a name is plain does not change when a model changes. *)
Lemma plain_name_update (models : Obj.t Model.t) (k : string)
  (f : Model.t -> Model.t) (t : jsType) :
  plain_name (update k f models) t = plain_name models t.
Proof.
  unfold plain_name. destruct (removeBrackets t); [| reflexivity ..].
  now rewrite has_update.
Qed.

Lemma model_plain_update (models : Obj.t Model.t) (k : string)
  (f : Model.t -> Model.t) (m : Model.t) :
  model_plain (update k f models) m = model_plain models m.
Proof.
  unfold model_plain.
  induction (model_candidates m) as [| t ts IH]; [reflexivity |].
  simpl. now rewrite plain_name_update, IH.
Qed.

(** *** The third loop *)

(** What the third loop finds and keeps: every model under its name,
    every parent linked, every property type with defined members, and
    every list of dependencies stored so far good when the names handed
    to the resolver of its model are plain. *)
Let resolvable (models : Obj.t Model.t) : Prop :=
  names_are_keys models
  /\ (forall k m, Obj.get k models = Some m -> parent_linked m)
  /\ (forall k m, In (k, m) models ->
        properties_defined m
        /\ (model_plain models m = true ->
            dependencies_good models (Model.modelDependencies m))).

Lemma dependencies_good_update (models : Obj.t Model.t) (k : string)
  (f : Model.t -> Model.t) (deps : option (list model_ref)) :
  dependencies_good models deps ->
  dependencies_good (update k f models) deps.
Proof.
  intros Hgood l Hl. destruct (Hgood l Hl) as [Hres Hnodup]. split.
  - intros r Hr. rewrite has_update. auto.
  - rewrite has_update. exact Hnodup.
Qed.

Lemma resolve_dependencies_resolvable (models models' : Obj.t Model.t)
  (name : string) :
  resolve_dependencies models name = Ok models' ->
  resolvable models -> resolvable models'.
Proof.
  intros Hrun [Hnames [Hlinked Hin]].
  apply (resolve_dependencies_step models name models' Hnames) in Hrun
    as [-> | [d [-> Hd]]].
  - exact (conj Hnames (conj Hlinked Hin)).
  - split; [| split].
    + now apply names_are_keys_update.
    + intros k m. rewrite get_update.
      destruct (String.eqb k name); [| apply Hlinked].
      destruct (Obj.get name models) as [m0 |] eqn:Hget;
        [| discriminate].
      intros [= <-]. exact (Hlinked name m0 Hget).
    + intros k m Hm. rewrite model_plain_update.
      apply In_update_first in Hm as [Hm0 | [-> [m0 [Hget ->]]]].
      * destruct (Hin k m Hm0) as [Hp Hg]. split; [exact Hp |].
        intros Hplain. now apply dependencies_good_update, Hg.
      * destruct (Hin name m0 (get_In _ _ _ Hget)) as [Hp _].
        split; [exact Hp |]. intros Hplain.
        apply dependencies_good_update.
        exact (Hd m0 Hget Hplain).
  - intros m Hget. split; [eauto |].
    apply get_In in Hget. now destruct (Hin name m Hget).
Qed.

(** The lists of dependencies that [processModels] leaves. *)
Lemma processModels_dependencies (swagger : swagger_doc)
  (models : Obj.t Model.t) :
  processModels swagger = Ok models ->
  forall k m,
    In (k, m) models ->
    model_plain models m = true ->
    dependencies_good models (Model.modelDependencies m).
Proof.
  unfold processModels.
  match goal with
  | |- bind ?first _ = _ -> _ =>
      destruct first as [models0 | |] eqn:H1
  end; try discriminate.
  cbn [bind].
  destruct (forEach link_hierarchy (Obj.keys models0) models0)
    as [models2 | |] eqn:H2; try discriminate.
  cbn [bind]. intros H3.
  pose proof (first_loop_fresh _ _ H1) as Hfresh.
  pose proof (first_loop_named _ _ H1) as Hnamed.
  destruct (second_loop_kept _ _ _ H2) as [[Hkeys [_ Hin2]] Hlinked].
  assert (Hnamed2 : names_are_keys models2).
  { refine (forEach_invariant names_are_keys _ _ _ _ _ H2 Hnamed).
    intros s x s' _ Hstep. now apply (link_hierarchy_named s s' x). }
  assert (Hstart : resolvable models2).
  { split; [exact Hnamed2 |]. split.
    - intros k m Hget. apply (Hlinked k m); [| exact Hget].
      rewrite <- Hkeys. apply has_In_keys. unfold Obj.has.
      now rewrite Hget.
    - intros k m Hm. destruct (Hin2 k m Hm) as [m0 [Hm0 [Hp Hd]]].
      destruct (Hfresh k m0 Hm0) as [Hnone Hdef]. split.
      + unfold properties_defined. rewrite Hp. exact Hdef.
      + rewrite Hd, Hnone. intros _ l. discriminate. }
  assert (Hend : resolvable models).
  { revert H3 Hstart. apply forEach_invariant.
    intros s x s' _. apply resolve_dependencies_resolvable. }
  intros k m Hm. now destruct (proj2 (proj2 Hend) k m Hm).
Qed.

End ModelPasses.

(** *** The flag of the last property *)

Lemma update_last_flags (l : list Property.t) :
  Forall (fun p => Property.last p = false) l ->
  map Property.last (update_last Property.set_last l)
  = match l with
    | [] => []
    | _ :: rest => repeat false (List.length rest) ++ [true]
    end.
Proof.
  intros Hl. induction Hl as [| x l Hx Hl IH]; [reflexivity |].
  destruct l as [| y l]; [reflexivity |].
  change (update_last Property.set_last (x :: y :: l))
    with (x :: update_last Property.set_last (y :: l)).
  cbn [map]. rewrite IH, Hx. reflexivity.
Qed.

Lemma update_last_length {A : Type} (f : A -> A) (l : list A) :
  List.length (update_last f l) = List.length l.
Proof.
  induction l as [| x [| y l] IH]; try reflexivity.
  change (update_last f (x :: y :: l)) with (x :: update_last f (y :: l)).
  cbn [List.length]. now rewrite IH.
Qed.

Lemma processProperties_unflagged (props : Obj.t schema)
  (required : list string) :
  Forall (fun p => Property.last p = false)
    (map snd (processProperties props required)).
Proof.
  unfold processProperties.
  assert (Hgen : forall acc : Obj.t Property.t,
             (forall k v, In (k, v) acc -> Property.last v = false) ->
             forall k v,
               In (k, v)
                 (fold_left
                    (fun result '(name, property) =>
                       Obj.set name
                         (Property.Build name
                            (existsb (String.eqb name) required)
                            (propertyType property) false)
                         result)
                    props acc) ->
               Property.last v = false).
  { induction props as [| [name property] props IH]; intros acc Hacc;
      simpl; [exact Hacc |].
    apply IH. intros k v Hin. apply In_set in Hin as [-> | Hin]; eauto. }
  apply Forall_forall. intros v Hv.
  apply in_map_iff in Hv as [[k v'] [<- Hin]].
  apply (Hgen [] (fun _ _ H => match H with end) k v' Hin).
Qed.

(** Whatever the order of the properties of a model, the flag is set on
    the last of them and on no other. *)
Lemma modelProperties_flag_on_last_only (name : string) (model : schema)
  (d : Model.t) (ps : list Property.t) :
  describe_model name model = Ok d ->
  Model.modelProperties d = Some ps ->
  map Property.last ps
  = match ps with
    | [] => []
    | _ :: rest => repeat false (List.length rest) ++ [true]
    end.
Proof.
  unfold describe_model.
  match goal with
  | |- bind ?shape _ = _ -> _ =>
      destruct shape as [[[[parent properties] required] enums] | |]
  end; try discriminate.
  cbn [bind]. intros [= <-]. cbn [Model.modelProperties].
  destruct properties as [props |]; [| discriminate].
  intros [= <-].
  rewrite array_sort_constant by exact compare_properties_zero.
  pose proof (update_last_flags _ (processProperties_unflagged props required))
    as Hflags.
  rewrite Hflags.
  destruct (map snd (processProperties props required)) as [| x [| y l]];
    try reflexivity.
  change (update_last Property.set_last (x :: y :: l))
    with (x :: update_last Property.set_last (y :: l)).
  cbv iota. now rewrite update_last_length.
Qed.

Section ServicePasses.

Variable swagger : swagger_doc.
Variable models : Obj.t Model.t.

(** What the loops of [processServices] keep: every list of
    dependencies stored so far is good when the names that the
    operations of its service hand to the resolver are plain. *)
Let services_good (st : services_state) : Prop :=
  forall k s,
    In (k, s) (fst st) ->
    service_plain models s = true ->
    dependencies_good models (Service.serviceDependencies s).

Lemma process_operation_good (url : string) (st st' : services_state)
  (entry : string * option operationDef) :
  process_operation swagger models url st entry = Ok st' ->
  services_good st -> services_good st'.
Proof.
  unfold process_operation. destruct entry as [method [def |]];
    destruct st as [services tag0]; [| now intros [= <-]].
  destruct (Nat.eqb (List.length (default [] (tags def))) 0);
    [discriminate |].
  destruct (Nat.ltb 1 (List.length (default [] (tags def))));
    [discriminate |].
  set (tag := hd "" (default [] (tags def))).
  set (services1 := if Obj.has tag services then services
                    else Obj.set tag (Service.Build tag [] None) services).
  intros Hrun Hgood.
  assert (Hgood1 : forall k s, In (k, s) services1 ->
            service_plain models s = true ->
            dependencies_good models (Service.serviceDependencies s)).
  { intros k s. unfold services1. destruct (Obj.has tag services).
    - exact (Hgood k s).
    - intros Hin. apply In_set in Hin as [-> | Hin];
        [| exact (Hgood k s Hin)].
      intros _ l. discriminate. }
  destruct (operationId def) as [id |]; [| discriminate].
  destruct (match parameters def with
            | Some ps => _
            | None => _
            end) as [described | |]; try discriminate.
  cbn [bind] in Hrun.
  destruct (result_model models (processResponses def))
    as [[resultType modelResult] | |]; try discriminate.
  cbn [bind] in Hrun. injection Hrun as <-.
  intros k s Hin. simpl in Hin.
  apply In_update_first in Hin as [Hin | [-> [s0 [Hget ->]]]];
    [exact (Hgood1 k s Hin) |].
  cbn [Service.push_operation Service.serviceDependencies].
  intros Hplain. apply (Hgood1 tag s0 (get_In _ _ _ Hget)).
  unfold service_plain in *.
  cbn [Service.push_operation Service.serviceOperations] in Hplain.
  rewrite forallb_app in Hplain.
  now apply andb_true_iff in Hplain as [Hplain _].
Qed.

(** The invariant of the resolver of a service: it has no type of its
    own. *)
Let service_resolver (this : DependenciesResolver.t) : Prop :=
  DependenciesResolver.ownType this = TUndefined
  /\ resolver_good models this.

Lemma add_service_resolver (this this' : DependenciesResolver.t)
  (dep : jsType) :
  plain_name models dep = true ->
  DependenciesResolver.add models this dep = Ok this' ->
  service_resolver this -> service_resolver this'.
Proof.
  intros Hplain Hadd [Hown Hgood]. split.
  - now rewrite (add_ownType models this this' dep Hadd).
  - now apply (add_good models this this' dep); auto.
Qed.

Lemma add_operation_dependencies_good
  (this this' : DependenciesResolver.t) (op : Operation.t) :
  forallb (plain_name models) (operation_candidates op) = true ->
  add_operation_dependencies models this op = Ok this' ->
  service_resolver this -> service_resolver this'.
Proof.
  unfold add_operation_dependencies, operation_candidates.
  rewrite forallb_app. intros Hplain.
  apply andb_true_iff in Hplain as [Hplain1 Hplain2].
  rewrite forallb_forall in Hplain1, Hplain2.
  destruct (forEach _ (Operation.operationResponses op) this)
    as [mid | |] eqn:Hresponses; try discriminate.
  cbn [bind]. intros Hparams Hthis.
  assert (Hmid : service_resolver mid).
  { revert Hresponses Hthis. apply forEach_invariant.
    intros s [code response] s' Hin. apply add_service_resolver.
    apply Hplain1. apply in_map_iff. now exists (code, response). }
  revert Hparams Hmid. apply forEach_invariant.
  intros s param s' Hin. apply add_service_resolver.
  apply Hplain2. now apply in_map.
Qed.

Lemma process_path_good (st st' : services_state)
  (entry : string * pathItem) :
  process_path swagger models st entry = Ok st' ->
  services_good st -> services_good st'.
Proof.
  unfold process_path. destruct entry as [url path].
  destruct (forEach (process_operation swagger models url) path st)
    as [[services tag] | |] eqn:Hops; try discriminate.
  cbn [bind]. intros Hrun Hst.
  assert (Hmid : services_good (services, tag)).
  { revert Hops Hst. apply forEach_invariant.
    intros s x s' _. apply process_operation_good. }
  destruct tag as [tag |]; [| discriminate].
  destruct (Obj.get tag services) as [descriptor |] eqn:Hdescriptor;
    [| discriminate].
  destruct (forEach (add_operation_dependencies models)
              (Service.serviceOperations descriptor)
              (DependenciesResolver.new TUndefined))
    as [deps | |] eqn:Hdeps; try discriminate.
  cbn [bind] in Hrun. injection Hrun as <-.
  intros k s Hin. simpl in Hin.
  apply In_update_first in Hin as [Hin | [-> [s0 [Hget ->]]]];
    [exact (Hmid k s Hin) |].
  assert (s0 = descriptor) as -> by congruence.
  cbn [Service.set_dependencies Service.serviceDependencies].
  intros Hplain. unfold service_plain in Hplain.
  cbn [Service.set_dependencies Service.serviceOperations] in Hplain.
  rewrite forallb_forall in Hplain.
  apply resolver_good_get.
  assert (Hgood : service_resolver deps); [| apply Hgood].
  refine (forEach_invariant service_resolver _ _ _ _ deps Hdeps _).
  - intros s op s' Hop. apply add_operation_dependencies_good. auto.
  - split; [reflexivity | apply resolver_good_new].
Qed.

(** The lists of dependencies that [processServices] leaves. *)
Lemma processServices_dependencies (services : Obj.t Service.t) :
  processServices swagger models = Ok services ->
  forall k s,
    In (k, s) services ->
    service_plain models s = true ->
    dependencies_good models (Service.serviceDependencies s).
Proof.
  unfold processServices.
  destruct (forEach (process_path swagger models) (paths swagger)
              ([], None)) as [st | |] eqn:Hrun; try discriminate.
  cbn [bind]. intros [= <-].
  refine (forEach_invariant services_good _ _ _ _ st Hrun _).
  - intros s x s' _. apply process_path_good.
  - intros k s [].
Qed.

(** A candidate that names neither a model nor a member that the
    dictionary inherits is passed over without an error. *)
Lemma add_unknown (this : DependenciesResolver.t) (dep dep' : jsType) :
  removeBrackets dep = Ok dep' ->
  Obj.has (type_toString dep') models = false ->
  Obj.inherits (type_toString dep') = false ->
  DependenciesResolver.add models this dep = Ok this.
Proof.
  unfold DependenciesResolver.add, Obj.has. intros -> Hhas Hinh.
  cbn [bind]. cbv zeta.
  destruct (Obj.get (type_toString dep') models); [discriminate |].
  rewrite Hinh. now destruct (_ && _).
Qed.

End ServicePasses.




(** ** The parameters of every operation *)

Section OrderedOperations.

Variable swagger : swagger_doc.
Variable models : Obj.t Model.t.

(** What the loops of [processServices] keep: the parameters of every
    operation stored so far came out of [order_parameters]. *)
Let operations_ordered (st : services_state) : Prop :=
  forall k s op,
    In (k, s) (fst st) ->
    In op (Service.serviceOperations s) ->
    exists described,
      Operation.operationParameters op = order_parameters described.

Lemma process_operation_ordered (url : string) (st st' : services_state)
  (entry : string * option operationDef) :
  process_operation swagger models url st entry = Ok st' ->
  operations_ordered st -> operations_ordered st'.
Proof.
  unfold process_operation. destruct entry as [method [def |]];
    destruct st as [services tag0]; [| now intros [= <-]].
  destruct (Nat.eqb (List.length (default [] (tags def))) 0);
    [discriminate |].
  destruct (Nat.ltb 1 (List.length (default [] (tags def))));
    [discriminate |].
  set (tag := hd "" (default [] (tags def))).
  set (services1 := if Obj.has tag services then services
                    else Obj.set tag (Service.Build tag [] None) services).
  intros Hrun Hst.
  assert (H1 : operations_ordered (services1, Some tag)).
  { intros k s op. unfold services1. cbn [fst].
    destruct (Obj.has tag services).
    - exact (Hst k s op).
    - intros Hin. apply In_set in Hin as [-> | Hin];
        [intros [] | exact (Hst k s op Hin)]. }
  destruct (operationId def) as [id |]; [| discriminate].
  destruct (match parameters def with
            | Some ps => _
            | None => _
            end) as [described | |]; try discriminate.
  cbn [bind] in Hrun.
  destruct (result_model models (processResponses def))
    as [[resultType modelResult] | |]; try discriminate.
  cbn [bind] in Hrun. injection Hrun as <-.
  intros k s op Hin Hop. cbn [fst] in Hin.
  apply In_update in Hin as [s0 [Hin [-> | ->]]].
  - exact (H1 k s0 op Hin Hop).
  - cbn [Service.push_operation Service.serviceOperations] in Hop.
    apply in_app_iff in Hop as [Hop | [<- | []]].
    + exact (H1 k s0 op Hin Hop).
    + now exists described.
Qed.

Lemma process_path_ordered (st st' : services_state)
  (entry : string * pathItem) :
  process_path swagger models st entry = Ok st' ->
  operations_ordered st -> operations_ordered st'.
Proof.
  unfold process_path. destruct entry as [url path].
  destruct (forEach (process_operation swagger models url) path st)
    as [[services tag] | |] eqn:Hops; try discriminate.
  cbn [bind]. intros Hrun Hst.
  assert (Hmid : operations_ordered (services, tag)).
  { revert Hops Hst. apply forEach_invariant.
    intros s x s' _. apply process_operation_ordered. }
  destruct tag as [tag |]; [| discriminate].
  destruct (Obj.get tag services) as [descriptor |]; [| discriminate].
  destruct (forEach (add_operation_dependencies models)
              (Service.serviceOperations descriptor)
              (DependenciesResolver.new TUndefined))
    as [deps | |]; try discriminate.
  cbn [bind] in Hrun. injection Hrun as <-.
  intros k s op Hin Hop. cbn [fst] in Hin.
  apply In_update in Hin as [s0 [Hin [-> | ->]]];
    exact (Hmid k s0 op Hin Hop).
Qed.

(** The parameters of every operation of every service are the outcome
    of [order_parameters]. *)
Lemma processServices_ordered (services : Obj.t Service.t) :
  processServices swagger models = Ok services ->
  forall k s op,
    In (k, s) services ->
    In op (Service.serviceOperations s) ->
    exists described,
      Operation.operationParameters op = order_parameters described.
Proof.
  unfold processServices.
  destruct (forEach (process_path swagger models) (paths swagger)
              ([], None)) as [st | |] eqn:Hrun; try discriminate.
  cbn [bind]. intros [= <-].
  refine (forEach_invariant operations_ordered _ _ _ _ st Hrun _).
  - intros s x s' _. apply process_path_ordered.
  - intros k s op [].
Qed.

End OrderedOperations.

(** C8: whatever the parameters of an operation, in their final order
    every required parameter comes before every optional one and, within
    each of the two groups, the names descend; the order holds the same
    parameters, and the last one carries the "last" flag.  The
    parameters of every operation of every service are ordered in this
    way, and the parameters [b] (optional), [a] and [c] (both required)
    come out as [c], [a], [b]. *)
Theorem order_parameters_required_then_descending :
  (forall described,
      StronglySorted precedes (order_parameters described)
      /\ Permutation (map param_key (order_parameters described))
           (map param_key described)
      /\ match final (order_parameters described) with
         | Some p => Param.last p = true
         | None => described = []
         end)
  /\ (forall swagger models services tag s op,
        processServices swagger models = Ok services ->
        In (tag, s) services ->
        In op (Service.serviceOperations s) ->
        exists described,
          Operation.operationParameters op = order_parameters described)
  /\ exists services pets op,
       processServices three_parameters_doc [] = Ok services
       /\ Obj.get "Pets" services = Some pets
       /\ Service.serviceOperations pets = [op]
       /\ map (fun p => (Param.paramName p, Param.last p))
            (Operation.operationParameters op)
          = [("c", false); ("a", false); ("b", true)].
Proof.
  split; [| split].
  - intros described. unfold order_parameters. repeat split.
    + eapply sorted_by_key; [symmetry; apply update_last_keys |].
      apply array_sort_sorted.
    + rewrite update_last_keys. apply Permutation_map.
      apply array_sort_Permutation.
    + rewrite final_update_last.
      destruct (final (array_sort compare_parameters described))
        eqn:Hfinal; simpl; [reflexivity |].
      apply final_None in Hfinal.
      pose proof (array_sort_Permutation compare_parameters described)
        as Hp.
      rewrite Hfinal in Hp. now apply Permutation_nil in Hp.
  - intros swagger models services tag s op Hrun.
    exact (processServices_ordered swagger models services Hrun tag s op).
  - do 3 eexists. repeat split; reflexivity.
Qed.

(** * Further properties *)

(** ** References and array designations *)

Lemma index_char_cons (c x : ascii) (s : string) :
  String.index 0 (String c "") (String x s)
  = if Ascii.eqb c x then Some 0
    else option_map S (String.index 0 (String c "") s).
Proof.
  simpl. destruct (ascii_dec c x) as [-> | Hne].
  - rewrite Ascii.eqb_refl. destruct s; reflexivity.
  - destruct (Ascii.eqb_spec c x) as [-> | _]; [now elim Hne |].
    destruct (String.index 0 (String c "") s); reflexivity.
Qed.

Lemma prefix_char_cons (c x : ascii) (s : string) :
  String.prefix (String c "") (String x s) = Ascii.eqb c x.
Proof.
  simpl. destruct (ascii_dec c x) as [-> | Hne].
  - rewrite Ascii.eqb_refl. destruct s; reflexivity.
  - destruct (Ascii.eqb_spec c x) as [-> | _]; [now elim Hne | reflexivity].
Qed.

(** A text that does not hold [c] has no last occurrence of it. *)
Lemma lastIndexOf_from_clean (c : ascii) (s : string) :
  String.index 0 (String c "") s = None ->
  forall i, JsString.lastIndexOf_from i s (String c "") = None.
Proof.
  induction s as [| x s IH]; intros Hs i.
  - reflexivity.
  - rewrite index_char_cons in Hs.
    destruct (Ascii.eqb c x) eqn:Hcx; [discriminate |].
    destruct (String.index 0 (String c "") s) eqn:Hi; [discriminate |].
    cbn [JsString.lastIndexOf_from]. rewrite (IH eq_refl).
    now rewrite prefix_char_cons, Hcx.
Qed.

Lemma lastIndexOf_from_last (c : ascii) (pre post : string) :
  String.index 0 (String c "") post = None ->
  forall i,
    JsString.lastIndexOf_from i (pre +++ String c post) (String c "")
    = Some (i + String.length pre).
Proof.
  intros Hpost. induction pre as [| x pre IH]; intros i.
  - cbn [String.append JsString.lastIndexOf_from].
    rewrite (lastIndexOf_from_clean c post Hpost).
    rewrite prefix_char_cons, Ascii.eqb_refl. simpl. f_equal. lia.
  - cbn [String.append JsString.lastIndexOf_from]. rewrite IH.
    simpl. f_equal. lia.
Qed.

(** X1: [simpleRef] gives what follows the last slash of a reference,
    and the whole of a reference without slash; an absent or empty
    reference gives [null]. *)
Theorem simpleRef_last_segment (path name : string) :
  String.index 0 "/" name = None ->
  simpleRef (Some (path +++ "/" +++ name)) = Some name
  /\ (name <> "" -> simpleRef (Some name) = Some name)
  /\ simpleRef (Some "") = None
  /\ simpleRef None = None.
Proof.
  intros Hname. repeat split.
  - unfold simpleRef.
    replace (String.eqb (path +++ "/" +++ name) "") with false
      by (destruct path; reflexivity).
    unfold JsString.lastIndexOf.
    change ("/" +++ name) with (String "/" name).
    rewrite (lastIndexOf_from_last "/" path name Hname 0).
    destruct (Z.geb_spec (Z.of_nat (0 + String.length path)) 0) as [_ | H];
      [| lia].
    f_equal. change (String "/" name) with ("/" +++ name).
    rewrite <- append_assoc.
    replace (Z.of_nat (0 + String.length path) + 1)%Z
      with (Z.of_nat (String.length (path +++ "/"))).
    + apply substr_from_suffix.
    + rewrite length_append. simpl. lia.
  - intros Hne. unfold simpleRef.
    destruct (String.eqb_spec name "") as [-> | _]; [now elim Hne |].
    unfold JsString.lastIndexOf.
    now rewrite (lastIndexOf_from_clean "/" name Hname 0).
Qed.

Lemma simpleRef_last_segment_witness :
  simpleRef (Some ("#/definitions" +++ "/" +++ "Pet")) = Some "Pet".
Proof.
  exact (proj1 (simpleRef_last_segment "#/definitions" "Pet" eq_refl)).
Defined.

(** The first occurrence of a character splits the text around it. *)
Lemma index_char_split (c : ascii) (s : string) (n : nat) :
  String.index 0 (String c "") s = Some n ->
  exists pre post,
    s = pre +++ String c post
    /\ String.length pre = n
    /\ String.index 0 (String c "") pre = None.
Proof.
  revert n. induction s as [| x s IH]; intros n; [discriminate |].
  rewrite index_char_cons.
  destruct (Ascii.eqb_spec c x) as [<- | Hne].
  - intros [= <-]. exists "", s. repeat split.
  - destruct (String.index 0 (String c "") s) as [k |] eqn:Hk;
      [| discriminate].
    intros [= <-]. destruct (IH k eq_refl) as [pre [post [-> [Hlen Hpre]]]].
    exists (String x pre), post. repeat split.
    + simpl. now rewrite Hlen.
    + rewrite index_char_cons.
      destruct (Ascii.eqb_spec c x) as [-> | _]; [now elim Hne |].
      now rewrite Hpre.
Qed.

Lemma removeBrackets_cut (name rest : string) :
  String.index 0 "[" name = None ->
  removeBrackets (TString (name +++ "[" +++ rest)) = Ok (TString name).
Proof.
  intros Hname. unfold removeBrackets, JsString.indexOf.
  change ("[" +++ rest) with (String "[" rest).
  rewrite (index_after_clean_prefix "[" name rest Hname).
  destruct (Z.geb_spec (Z.of_nat (String.length name)) 0) as [_ | H];
    [| lia].
  now rewrite substr_prefix.
Qed.

Lemma removeBrackets_clean (name : string) :
  String.index 0 "[" name = None ->
  removeBrackets (TString name) = Ok (TString name).
Proof.
  intros Hname. unfold removeBrackets, JsString.indexOf.
  now rewrite Hname.
Qed.

(** X2: [removeBrackets] cuts a type name at its first opening bracket,
    whatever follows it, and leaves a name without bracket as it is;
    what it returns holds no bracket, so that removing the brackets
    twice changes nothing more. *)
Theorem removeBrackets_idempotent (type stripped : jsType) :
  removeBrackets type = Ok stripped ->
  removeBrackets stripped = Ok stripped
  /\ (forall s, stripped = TString s -> String.index 0 "[" s = None)
  /\ (forall name rest,
        type = TString (name +++ "[" +++ rest) ->
        String.index 0 "[" name = None ->
        stripped = TString name).
Proof.
  intros Hrun. split; [| split].
  - destruct type as [| | s | ts d]; simpl in Hrun; try discriminate.
    + now injection Hrun as <-.
    + now injection Hrun as <-.
    + unfold JsString.indexOf in Hrun.
      destruct (String.index 0 "[" s) as [n |] eqn:Hidx.
      * destruct (index_char_split "[" s n Hidx)
          as [pre [post [-> [Hlen Hpre]]]].
        destruct (Z.geb_spec (Z.of_nat n) 0) as [_ | H]; [| lia].
        rewrite <- Hlen, substr_prefix in Hrun. injection Hrun as <-.
        now apply removeBrackets_clean.
      * simpl in Hrun. injection Hrun as <-.
        now apply removeBrackets_clean.
  - intros s' ->. destruct type as [| | s | ts d]; simpl in Hrun;
      try discriminate.
    unfold JsString.indexOf in Hrun.
    destruct (String.index 0 "[" s) as [n |] eqn:Hidx.
    + destruct (index_char_split "[" s n Hidx)
        as [pre [post [-> [Hlen Hpre]]]].
      destruct (Z.geb_spec (Z.of_nat n) 0) as [_ | H]; [| lia].
      rewrite <- Hlen, substr_prefix in Hrun. now injection Hrun as <-.
    + simpl in Hrun. now injection Hrun as <-.
  - intros name rest -> Hname. rewrite removeBrackets_cut in Hrun by easy.
    now injection Hrun as <-.
Qed.

Lemma removeBrackets_idempotent_witness :
  removeBrackets (TString "Pet") = Ok (TString "Pet")
  /\ (forall s, TString "Pet" = TString s -> String.index 0 "[" s = None)
  /\ (forall name rest,
        TString "Pet[][]" = TString (name +++ "[" +++ rest) ->
        String.index 0 "[" name = None ->
        TString "Pet" = TString name).
Proof.
  exact (removeBrackets_idempotent (TString "Pet[][]") (TString "Pet")
           eq_refl).
Defined.

(** ** Names of enum constants and of files *)

Lemma toUpperCase_char_not_lower (c : ascii) :
  is_lower (toUpperCase_char c) = false.
Proof.
  destruct c as [[] [] [] [] [] [] [] []]; reflexivity.
Qed.

Lemma toLowerCase_char_not_upper (c : ascii) :
  is_upper (toLowerCase_char c) = false.
Proof.
  destruct c as [[] [] [] [] [] [] [] []]; reflexivity.
Qed.

Lemma without_separator (sep : ascii) (mark s : string) :
  mark = "" \/ mark = String sep "" ->
  without sep (mark +++ s) = without sep s.
Proof.
  intros [-> | ->]; [reflexivity |]. simpl. now rewrite Ascii.eqb_refl.
Qed.

Lemma toEnumName_from_shape (value : string) :
  forall wasLower,
    without "_" (toEnumName_from wasLower value)
    = without "_" (toUpperCase value)
    /\ all_chars (fun c => negb (is_lower c))
         (toEnumName_from wasLower value) = true.
Proof.
  induction value as [| c rest IH]; intros wasLower; [now split |].
  destruct (IH (is_lower c)) as [IHw IHl].
  cbn [toEnumName_from toUpperCase]. split.
  - rewrite without_separator
      by (destruct (negb (is_lower c) && wasLower); auto).
    cbn [without]. now rewrite IHw.
  - destruct (negb (is_lower c) && wasLower); cbn [String.append all_chars];
      rewrite toUpperCase_char_not_lower, IHl; reflexivity.
Qed.

(** X3: on a value of ASCII, [toEnumName] only puts the letters in upper
    case and inserts underscores: without its underscores the result is
    the upper-cased value without its underscores, and no lower-case
    letter is left in it. *)
Theorem toEnumName_upper_with_underscores (value : string) :
  ascii_only value = true ->
  without "_" (toEnumName value) = without "_" (toUpperCase value)
  /\ all_chars (fun c => negb (is_lower c)) (toEnumName value) = true.
Proof.
  intros _. apply toEnumName_from_shape.
Qed.

Lemma toEnumName_upper_with_underscores_witness :
  without "_" (toEnumName "inProgress") = without "_" (toUpperCase "inProgress")
  /\ all_chars (fun c => negb (is_lower c)) (toEnumName "inProgress") = true.
Proof.
  exact (toEnumName_upper_with_underscores "inProgress" eq_refl).
Defined.

Lemma toFileName_from_shape (typeName : string) :
  forall wasLower,
    without "-" (toFileName_from wasLower typeName)
    = without "-" (toLowerCase typeName)
    /\ all_chars (fun c => negb (is_upper c))
         (toFileName_from wasLower typeName) = true.
Proof.
  induction typeName as [| c rest IH]; intros wasLower; [now split |].
  destruct (IH (is_lower c)) as [IHw IHl].
  cbn [toFileName_from toLowerCase]. split.
  - rewrite without_separator
      by (destruct (negb (is_lower c) && wasLower); auto).
    cbn [without]. now rewrite IHw.
  - destruct (negb (is_lower c) && wasLower); cbn [String.append all_chars];
      rewrite toLowerCase_char_not_upper, IHl; reflexivity.
Qed.

Lemma toFileName_from_lower (typeName : string) :
  all_chars is_lower typeName = true ->
  forall wasLower, toFileName_from wasLower typeName = typeName.
Proof.
  induction typeName as [| c rest IH]; intros Hall wasLower;
    [reflexivity |].
  cbn [all_chars] in Hall. apply andb_true_iff in Hall as [Hc Hrest].
  cbn [toFileName_from]. rewrite Hc, (IH Hrest). simpl. f_equal.
  revert Hc. clear. destruct c as [[] [] [] [] [] [] [] []];
    try discriminate; reflexivity.
Qed.

(** X4: on a type name of ASCII, [toFileName] only puts the letters in
    lower case and inserts dashes: without its dashes the result is the
    lower-cased name without its dashes, no upper-case letter is left in
    it, and a name of lower-case letters only is its own file name. *)
Theorem toFileName_lower_with_dashes (typeName : string) :
  ascii_only typeName = true ->
  without "-" (toFileName typeName) = without "-" (toLowerCase typeName)
  /\ all_chars (fun c => negb (is_upper c)) (toFileName typeName) = true
  /\ (all_chars is_lower typeName = true -> toFileName typeName = typeName).
Proof.
  intros _. destruct (toFileName_from_shape typeName false) as [Hw Hu].
  repeat split; [exact Hw | exact Hu |].
  intros Hall. now apply toFileName_from_lower.
Qed.

Lemma toFileName_lower_with_dashes_witness :
  without "-" (toFileName "PetStore") = without "-" (toLowerCase "PetStore")
  /\ all_chars (fun c => negb (is_upper c)) (toFileName "PetStore") = true
  /\ (all_chars is_lower "PetStore" = true
      -> toFileName "PetStore" = "PetStore").
Proof.
  exact (toFileName_lower_with_dashes "PetStore" eq_refl).
Defined.

(** Two type names that differ in the case of a letter share a file
    name. *)
Example toFileName_collision :
  toFileName "PetStore" = toFileName "petStore".
Proof. reflexivity. Qed.

(** ** Comments *)

Lemma split_cons_nonempty (sep : ascii) (s : string) :
  JsString.split sep s <> [].
Proof.
  destruct s as [| c s]; simpl; [discriminate |].
  destruct (Ascii.eqb c sep); [discriminate |].
  destruct (JsString.split sep s); discriminate.
Qed.

(** Splitting a text at a separator is splitting its two sides. *)
Lemma split_app (sep : ascii) (a b : string) :
  JsString.split sep (a +++ String sep b)
  = JsString.split sep a ++ JsString.split sep b.
Proof.
  induction a as [| c a IH].
  - simpl. now rewrite Ascii.eqb_refl.
  - cbn [String.append JsString.split]. rewrite IH.
    destruct (Ascii.eqb c sep); [reflexivity |].
    pose proof (split_cons_nonempty sep a) as Hne.
    destruct (JsString.split sep a) as [| w ws]; [now elim Hne |].
    reflexivity.
Qed.

(** X5: [toComments] drops the lines that are empty: a blank line
    between two lines, and a line feed at the end of the text, leave the
    comment as it is without them; a text that is absent gives the
    comment of the empty text. *)
Theorem toComments_skips_empty_lines (a b : string) (level : nat) :
  toComments (Some (a +++ nl +++ nl +++ b)) level
  = toComments (Some (a +++ nl +++ b)) level
  /\ toComments (Some (a +++ nl)) level = toComments (Some a) level
  /\ toComments None level = toComments (Some "") level.
Proof.
  unfold toComments, nl. cbn [default String.append]. repeat split.
  - rewrite !split_app. rewrite !fold_left_app.
    change (JsString.split line_feed (String line_feed b))
      with ("" :: JsString.split line_feed b).
    reflexivity.
  - change (String line_feed "") with (String line_feed ("")).
    rewrite split_app, fold_left_app. reflexivity.
Qed.

(** ** The tags given as a text *)

Lemma split_clean (sep : ascii) (t : string) :
  has_char sep t = false -> JsString.split sep t = [t].
Proof.
  induction t as [| c t IH]; [reflexivity |].
  cbn [has_char JsString.split]. intros H.
  apply orb_false_iff in H as [Hc Ht]. rewrite Ascii.eqb_sym in Hc.
  now rewrite Hc, (IH Ht).
Qed.

(** X6: a text of tags that are joined by commas is split into those
    very tags, untrimmed, when there is at least one tag and no tag
    holds a comma; the empty text is the list of one empty tag, not the
    absence of tags. *)
Theorem includeTags_of_joined_text (tags : list string) :
  tags <> [] ->
  Forall (fun t => has_char "," t = false) tags ->
  includeTags_of (TagsText (String.concat "," tags)) = Some tags
  /\ includeTags_of (TagsText "") = Some [""].
Proof.
  intros Hne Hclean. split; [| reflexivity].
  unfold includeTags_of. f_equal.
  induction Hclean as [| t rest Ht Hrest IH]; [now elim Hne |].
  destruct rest as [| t' rest].
  - simpl. now apply split_clean.
  - change (String.concat "," (t :: t' :: rest))
      with (t +++ String "," (String.concat "," (t' :: rest))).
    rewrite split_app, (split_clean _ _ Ht), IH by discriminate.
    reflexivity.
Qed.

Lemma includeTags_of_joined_text_witness :
  includeTags_of (TagsText (String.concat "," ["Pets"; " Users"]))
  = Some ["Pets"; " Users"]
  /\ includeTags_of (TagsText "") = Some [""].
Proof.
  apply (includeTags_of_joined_text ["Pets"; " Users"]).
  - discriminate.
  - repeat constructor.
Defined.

(** ** Type expressions *)

(** X7: the array of a type has the name of that type once the brackets
    are removed: for the search of dependencies an array of a model, and
    an array of such arrays, count as the model. *)
Theorem propertyType_array_dependency (items : schema) (t : string) :
  propertyType items = TString t ->
  propertyType (schema_array items) = TString (t +++ "[]")
  /\ removeBrackets (propertyType (schema_array items))
     = removeBrackets (TString t).
Proof.
  intros Hitems.
  assert (Harray : propertyType (schema_array items) = TString (t +++ "[]")).
  { unfold schema_array. cbn [propertyType]. rewrite Hitems. reflexivity. }
  split; [exact Harray |]. rewrite Harray.
  destruct (String.index 0 "[" t) as [n |] eqn:Hidx.
  - destruct (index_char_split "[" t n Hidx) as [pre [post [-> [_ Hpre]]]].
    change (String "[" post) with ("[" +++ post).
    rewrite !append_assoc.
    now rewrite !removeBrackets_cut by exact Hpre.
  - change (t +++ "[]") with (t +++ "[" +++ "]").
    now rewrite removeBrackets_cut, removeBrackets_clean.
Qed.

Lemma propertyType_array_dependency_witness :
  propertyType (schema_array (schema_array (schema_ref "#/definitions/Pet")))
  = TString ("Pet[]" +++ "[]")
  /\ removeBrackets
       (propertyType
          (schema_array (schema_array (schema_ref "#/definitions/Pet"))))
     = removeBrackets (TString "Pet[]").
Proof.
  exact (propertyType_array_dependency
           (schema_array (schema_ref "#/definitions/Pet")) "Pet[]" eq_refl).
Defined.

Section InlineMembers.

Variable resolve : schema -> jsType.

Lemma type_mem_true (t : jsType) (ts : list jsType) :
  type_mem t ts = true -> In t ts.
Proof.
  unfold type_mem. intros H. apply existsb_exists in H as [a [Ha Heq]].
  destruct a, t; simpl in Heq; try discriminate; try exact Ha.
  apply String.eqb_eq in Heq. now subst.
Qed.

Lemma type_mem_false (t : jsType) (ts : list jsType) :
  is_inline t = false -> type_mem t ts = false -> ~ In t ts.
Proof.
  unfold type_mem. intros Ht Hmem Hin.
  assert (existsb (fun a => type_strict_eq a t) ts = true).
  { apply existsb_exists. exists t. split; [exact Hin |].
    destruct t; simpl in *; try reflexivity; try discriminate.
    apply String.eqb_refl. }
  congruence.
Qed.

Lemma filter_snoc {A : Type} (f : A -> bool) (l : list A) (x : A) :
  filter f (l ++ [x]) = if f x then filter f l ++ [x] else filter f l.
Proof.
  rewrite filter_app. simpl. destruct (f x); [reflexivity |].
  apply app_nil_r.
Qed.

(** One member more: the types seen so far stay, the type of the member
    is among them unless it is an inline type that was met before, and
    no type that is a text comes twice. *)
Lemma push_type (t : jsType) (ts : list jsType) :
  let ts' := if type_mem t ts then ts else ts ++ [t] in
  incl ts ts'
  /\ In t ts'
  /\ (forall u, In u ts' -> In u ts \/ u = t)
  /\ (NoDup (filter (fun u => negb (is_inline u)) ts) ->
      NoDup (filter (fun u => negb (is_inline u)) ts')).
Proof.
  cbv zeta. destruct (type_mem t ts) eqn:Hmem.
  - repeat split; auto using incl_refl, type_mem_true.
  - repeat split.
    + now apply incl_appl.
    + apply in_or_app. right. now left.
    + intros u Hu. apply in_app_or in Hu as [Hu | [<- | []]]; auto.
    + intros Hnodup. rewrite filter_snoc.
      destruct (is_inline t) eqn:Hinline; [exact Hnodup |].
      apply NoDup_app; [exact Hnodup | repeat constructor; auto |].
      intros a Ha [<- | []]. apply filter_In in Ha as [Ha _].
      now apply (type_mem_false _ _ Hinline Hmem).
Qed.

Lemma inline_members_types (ps : Obj.t schema) :
  forall st,
    let ts := snd (fst st) in
    let ts' := snd (fst (inline_members resolve ps st)) in
    incl ts ts'
    /\ (forall name p, In (name, p) ps -> In (resolve p) ts')
    /\ (forall u, In u ts' ->
          In u ts \/ exists name p, In (name, p) ps /\ u = resolve p)
    /\ (NoDup (filter (fun u => negb (is_inline u)) ts) ->
        NoDup (filter (fun u => negb (is_inline u)) ts')).
Proof.
  induction ps as [| [name prop] ps IH]; intros [[first ts] d]; cbv zeta.
  - cbn [inline_members fst snd]. repeat split; auto using incl_refl.
    intros n p [].
  - cbn [inline_members]. cbn [fst snd].
    destruct (push_type (resolve prop) ts) as [Hincl [Hin [Hinv Hnodup]]].
    match goal with
    | |- context [inline_members resolve ps ?st'] =>
        destruct (IH st') as [IHincl [IHin [IHinv IHnodup]]]
    end.
    cbn [fst snd] in IHincl, IHin, IHinv, IHnodup.
    repeat split.
    + eapply incl_tran; eassumption.
    + intros n p [[= <- <-] | Hp]; [now apply IHincl | eauto].
    + intros u Hu. destruct (IHinv u Hu) as [Hu' | [n [p [Hp ->]]]].
      * destruct (Hinv u Hu') as [Hu'' | ->]; [now left |].
        right. exists name, prop. split; [now left | reflexivity].
      * right. exists n, p. split; [now right | reflexivity].
    + auto.
Qed.

End InlineMembers.

(** X8: the [allTypes] of the inline structural type of an object holds
    the type of every member, and of the open member if there is one,
    holds nothing else, and holds no type that is a text twice. *)
Theorem propertyType_inline_allTypes (props : Obj.t schema)
  (extra items : option schema) (allOf : option (list schema))
  (required enum : option (list string)) :
  exists allTypes def,
    propertyType
      (Schema None None (Some "object") items (Some props) extra
         allOf required enum)
    = TInline allTypes def
    /\ (forall name p, In (name, p) props -> In (propertyType p) allTypes)
    /\ (forall e, extra = Some e -> In (propertyType e) allTypes)
    /\ (forall u, In u allTypes ->
          (exists name p, In (name, p) props /\ u = propertyType p)
          \/ exists e, extra = Some e /\ u = propertyType e)
    /\ NoDup (filter (fun u => negb (is_inline u)) allTypes).
Proof.
  cbn [propertyType]. cbv beta iota zeta.
  change (String.eqb "object" "string") with false.
  change (String.eqb "object" "array") with false.
  change (String.eqb "object" "integer") with false.
  change (String.eqb "object" "number") with false.
  change (String.eqb "object" "boolean") with false.
  change (String.eqb "object" "object") with true.
  cbv beta iota zeta. cbn [orb].
  destruct (inline_members_types propertyType props (true, [], "{"))
    as [_ [Hin [Hinv Hnodup]]].
  destruct (inline_members propertyType props (true, [], "{"))
    as [[first ts] d].
  cbn [fst snd] in Hin, Hinv, Hnodup.
  specialize (Hnodup (NoDup_nil _)).
  destruct extra as [e |].
  - destruct (push_type (propertyType e) ts) as [Hincl [He [Hinv' Hnd]]].
    do 2 eexists. split; [reflexivity |]. repeat split.
    + intros name p Hp. apply Hincl. eauto.
    + intros e' [= <-]. exact He.
    + intros u Hu. destruct (Hinv' u Hu) as [Hu' | ->].
      * destruct (Hinv u Hu') as [[] | Hmember]. now left.
      * right. now exists e.
    + auto.
  - do 2 eexists. split; [reflexivity |]. repeat split.
    + exact Hin.
    + discriminate.
    + intros u Hu. destruct (Hinv u Hu) as [[] | Hmember]. now left.
    + exact Hnodup.
Qed.

(** ** The models and the definitions *)

Lemma has_set {V : Type} (k k' : string) (v : V) (o : Obj.t V) :
  Obj.has k (Obj.set k' v o) = String.eqb k k' || Obj.has k o.
Proof.
  unfold Obj.has. rewrite get_set. now destruct (String.eqb k k').
Qed.

Lemma forEach_app {A S : Type} (f : S -> A -> result S) (l1 l2 : list A)
  (s : S) :
  forEach f (l1 ++ l2) s = (s1 <- forEach f l1 s ;; forEach f l2 s1).
Proof.
  revert s. induction l1 as [| x l1 IH]; intros s; [reflexivity |].
  cbn [app forEach]. destruct (f s x); cbn [bind]; auto.
Qed.

(** What the first loop makes of one definition. *)
Lemma describe_model_result (name : string) (model : schema) :
  if unsupported model then describe_model name model = Exit 1
  else exists d,
      describe_model name model = Ok d
      /\ Model.modelName d = name
      /\ Model.modelSubclasses d = []
      /\ Model.modelDependencies d = None
      /\ (forall r, Model.modelParent d <> Model.ParentModel r)
      /\ Model.modelIsObject d = negb (Model.modelIsEnum d)
      /\ (Model.modelIsEnum d = true ->
          type_is model "string" = true
          /\ exists values,
               s_enum model = Some values
               /\ values <> []
               /\ Model.modelEnumValues d = Some (enum_descriptors values)).
Proof.
  unfold unsupported, describe_model.
  destruct (s_allOf model) as [[| first others] |].
  - destruct (type_is model "object").
    + eexists. cbn [bind]. repeat split; try discriminate.
    + destruct (type_is model "string"); [| reflexivity].
      destruct (s_enum model) as [values |]; cbn [default];
        [| reflexivity].
      destruct values as [| v values]; [reflexivity |].
      eexists. cbn [List.length Nat.eqb bind]. repeat split;
        try discriminate.
      exists (v :: values). repeat split. discriminate.
  - destruct (simpleRef (s_ref first)); eexists; cbn [bind];
      repeat split; discriminate.
  - destruct (type_is model "object").
    + eexists. cbn [bind]. repeat split; try discriminate.
    + destruct (type_is model "string"); [| reflexivity].
      destruct (s_enum model) as [values |]; cbn [default];
        [| reflexivity].
      destruct values as [| v values]; [reflexivity |].
      eexists. cbn [List.length Nat.eqb bind]. repeat split;
        try discriminate.
      exists (v :: values). repeat split. discriminate.
Qed.

Lemma link_hierarchy_shape (models models' : Obj.t Model.t) (k : string) :
  link_hierarchy models k = Ok models' ->
  models' = models
  \/ exists m p,
       Obj.get k models = Some m
       /\ Model.modelIsObject m = true
       /\ Model.modelParent m = Model.ParentName p
       /\ p <> ""
       /\ Obj.has p models = true
       /\ models'
          = update p (Model.push_subclass (ModelRef k))
              (update k
                 (Model.set_parent (Model.ParentModel (ModelRef p)))
                 models).
Proof.
  unfold link_hierarchy.
  destruct (Obj.get k models) as [m |] eqn:Hget; [| intros [= <-]; auto].
  destruct (Model.modelIsObject m) eqn:Hobj; simpl; [| intros [= <-]; auto].
  destruct (Model.modelParent m) as [| p | r] eqn:Hparent;
    try (intros [= <-]; auto).
  destruct (String.eqb_spec p "") as [-> | Hp]; [intros [= <-]; auto |].
  destruct (Obj.get p models) as [pm |] eqn:Hpm; [| discriminate].
  intros [= <-]. right. exists m, p. unfold Obj.has. rewrite Hpm.
  repeat split; auto.
Qed.

Lemma resolve_dependencies_shape (models models' : Obj.t Model.t)
  (k : string) :
  resolve_dependencies models k = Ok models' ->
  models' = models
  \/ exists d, models' = update k (Model.set_dependencies d) models.
Proof.
  unfold resolve_dependencies.
  destruct (Obj.get k models) as [m |]; [| intros [= <-]; auto].
  destruct (Model.modelIsObject m); simpl; [| intros [= <-]; auto].
  match goal with
  | |- bind ?a _ = _ -> _ => destruct a as [d1 | |]
  end; try discriminate. cbn [bind].
  match goal with
  | |- bind ?a _ = _ -> _ => destruct a as [d2 | |]
  end; try discriminate. cbn [bind].
  match goal with
  | |- bind ?a _ = _ -> _ => destruct a as [d3 | |]
  end; try discriminate. cbn [bind].
  intros [= <-]. right. now eexists.
Qed.

(** A change of one model that is one of the changes of the second and
    third loop keeps what a model is. *)
Lemma same_static_refl (m : Model.t) : same_static m m.
Proof. repeat split. Qed.

Lemma same_static_trans (a b c : Model.t) :
  same_static a b -> same_static b c -> same_static a c.
Proof.
  unfold same_static. intros [? [? [? [? ?]]]] [? [? [? [? ?]]]].
  repeat split; congruence.
Qed.

Lemma get_update_static (k k' : string) (f : Model.t -> Model.t)
  (models : Obj.t Model.t) (m' : Model.t) :
  (forall m, same_static m (f m)) ->
  Obj.get k' (update k f models) = Some m' ->
  exists m, Obj.get k' models = Some m /\ same_static m m'.
Proof.
  intros Hf. rewrite get_update.
  destruct (String.eqb_spec k' k) as [-> | _].
  - destruct (Obj.get k models) as [m |]; [| discriminate].
    intros [= <-]. eauto.
  - intros H. eauto using same_static_refl.
Qed.

Lemma link_hierarchy_static (models : Obj.t Model.t) (k : string)
  (models' : Obj.t Model.t) :
  link_hierarchy models k = Ok models' ->
  Obj.keys models' = Obj.keys models
  /\ forall k' m', Obj.get k' models' = Some m' ->
       exists m, Obj.get k' models = Some m /\ same_static m m'.
Proof.
  intros H. apply link_hierarchy_shape in H
    as [-> | [m [p [_ [_ [_ [_ [_ ->]]]]]]]].
  - split; [reflexivity |]. eauto using same_static_refl.
  - split; [now rewrite !keys_update |].
    intros k' m' Hget.
    apply get_update_static in Hget as [m1 [Hget H1]];
      [| intros; repeat split].
    apply get_update_static in Hget as [m0 [Hget H0]];
      [| intros; repeat split].
    eauto using same_static_trans.
Qed.

Lemma resolve_dependencies_static (models : Obj.t Model.t) (k : string)
  (models' : Obj.t Model.t) :
  resolve_dependencies models k = Ok models' ->
  Obj.keys models' = Obj.keys models
  /\ forall k' m', Obj.get k' models' = Some m' ->
       exists m, Obj.get k' models = Some m /\ same_static m m'.
Proof.
  intros H. apply resolve_dependencies_shape in H as [-> | [d ->]].
  - split; [reflexivity |]. eauto using same_static_refl.
  - split; [now rewrite keys_update |].
    intros k' m' Hget.
    apply get_update_static in Hget; [exact Hget |].
    intros; repeat split.
Qed.

Lemma loop_static (step : Obj.t Model.t -> string -> result (Obj.t Model.t))
  (ks : list string) :
  (forall models k models',
      step models k = Ok models' ->
      Obj.keys models' = Obj.keys models
      /\ forall k' m', Obj.get k' models' = Some m' ->
           exists m, Obj.get k' models = Some m /\ same_static m m') ->
  forall models models',
    forEach step ks models = Ok models' ->
    Obj.keys models' = Obj.keys models
    /\ forall k' m', Obj.get k' models' = Some m' ->
         exists m, Obj.get k' models = Some m /\ same_static m m'.
Proof.
  intros Hstep models models' Hrun.
  refine (forEach_invariant
            (fun s : Obj.t Model.t =>
               Obj.keys s = Obj.keys models
               /\ forall k' m', Obj.get k' s = Some m' ->
                    exists m, Obj.get k' models = Some m
                              /\ same_static m m')
            step ks _ models models' Hrun _).
  - intros s k s' _ Hs [Hkeys Hget]. destruct (Hstep s k s' Hs) as [Hk Hg].
    split; [congruence |]. intros k' m' Hm'.
    destruct (Hg k' m' Hm') as [m1 [Hm1 H1]].
    destruct (Hget k' m1 Hm1) as [m0 [Hm0 H0]].
    eauto using same_static_trans.
  - split; [reflexivity |]. eauto using same_static_refl.
Qed.

(** The first loop: each model describes a definition declared under its
    key, and the keys are those of the definitions. *)
Lemma first_loop_keys (defs : Obj.t schema) :
  forall acc models : Obj.t Model.t,
    forEach
      (fun models '(name, model) =>
         descriptor <- describe_model name model ;;
         Ok (Obj.set name descriptor models))
      defs acc
    = Ok models ->
    forall k, Obj.has k models = true
              <-> Obj.has k acc = true \/ In k (Obj.keys defs).
Proof.
  induction defs as [| [name model] defs IH]; intros acc models Hrun k.
  - injection Hrun as <-. simpl. tauto.
  - rewrite forEach_cons in Hrun.
    destruct (describe_model name model) as [d0 | |];
      try discriminate.
    cbn [bind] in Hrun. rewrite (IH _ _ Hrun k), has_set.
    simpl. rewrite orb_true_iff, String.eqb_eq.
    intuition (subst; auto).
Qed.

Lemma first_loop_describes (defs : Obj.t schema) (models : Obj.t Model.t) :
  forEach
    (fun models '(name, model) =>
       descriptor <- describe_model name model ;;
       Ok (Obj.set name descriptor models))
    defs []
  = Ok models ->
  forall k d, Obj.get k models = Some d ->
    exists model, In (k, model) defs /\ describe_model k model = Ok d.
Proof.
  intros Hrun.
  refine (forEach_invariant
            (fun s : Obj.t Model.t =>
               forall k d, Obj.get k s = Some d ->
                 exists model, In (k, model) defs
                               /\ describe_model k model = Ok d)
            _ defs _ [] models Hrun _); [| discriminate].
  intros s [name model] s' Hin Hstep Hs k d.
  destruct (describe_model name model) as [d0 | |] eqn:Hd;
    try discriminate.
  cbn [bind] in Hstep. injection Hstep as <-. rewrite get_set.
  destruct (String.eqb_spec k name) as [-> | _]; [| apply Hs].
  intros [= <-]. eauto.
Qed.

(** The first loop fails exactly on a definition that is no object, no
    composition and no enumeration of strings, and then with exit code
    1. *)
Lemma first_loop_result (defs : Obj.t schema) :
  forall acc : Obj.t Model.t,
    if existsb (fun d => unsupported (snd d)) defs
    then forEach
           (fun models '(name, model) =>
              descriptor <- describe_model name model ;;
              Ok (Obj.set name descriptor models))
           defs acc
         = Exit 1
    else exists models,
        forEach
          (fun models '(name, model) =>
             descriptor <- describe_model name model ;;
             Ok (Obj.set name descriptor models))
          defs acc
        = Ok models.
Proof.
  induction defs as [| [name model] defs IH]; intros acc.
  - simpl. eauto.
  - rewrite forEach_cons. cbn [existsb snd].
    pose proof (describe_model_result name model) as Hd.
    destruct (unsupported model).
    + now rewrite Hd.
    + destruct Hd as [d [-> _]]. cbn [bind orb]. apply IH.
Qed.

(** The models that [processModels] returns, traced back to the
    definitions. *)
Lemma processModels_describes (swagger : swagger_doc)
  (models : Obj.t Model.t) :
  processModels swagger = Ok models ->
  (forall k, Obj.has k models = true
             <-> In k (Obj.keys (definitions swagger)))
  /\ (forall k m, Obj.get k models = Some m ->
        exists model d,
          In (k, model) (definitions swagger)
          /\ describe_model k model = Ok d
          /\ same_static d m).
Proof.
  unfold processModels.
  match goal with
  | |- bind ?a _ = _ -> _ => destruct a as [m1 | |] eqn:H1
  end; try discriminate. cbn [bind].
  destruct (forEach link_hierarchy (Obj.keys m1) m1) as [m2 | |] eqn:H2;
    try discriminate. cbn [bind]. intros H3.
  apply (loop_static _ _ link_hierarchy_static) in H2 as [K2 G2].
  apply (loop_static _ _ resolve_dependencies_static) in H3 as [K3 G3].
  split.
  - intros k. pose proof (first_loop_keys _ _ _ H1 k) as Hk.
    rewrite has_In_keys, K3, K2, <- has_In_keys, Hk.
    unfold Obj.has. simpl. intuition discriminate.
  - intros k m Hm. destruct (G3 k m Hm) as [m' [Hm' S3]].
    destruct (G2 k m' Hm') as [m0 [Hm0 S2]].
    destruct (first_loop_describes _ _ H1 k m0 Hm0) as [model [Hin Hd]].
    exists model, m0. eauto using same_static_trans.
Qed.

(** X9: The models are the definitions: [processModels] keeps a model
    under a key exactly when the definitions declare that key, each model
    carries its key as its name and is either an object or an
    enumeration, never both and never neither, and it stems from a
    definition declared under its key that is an object, a composition or
    an enumeration of strings. *)
Theorem processModels_models_of_definitions (swagger : swagger_doc)
  (models : Obj.t Model.t) :
  processModels swagger = Ok models ->
  (forall k, Obj.has k models = true
             <-> In k (Obj.keys (definitions swagger)))
  /\ names_are_keys models
  /\ (forall k m, Obj.get k models = Some m ->
        Model.modelIsObject m = negb (Model.modelIsEnum m)
        /\ (Model.modelIsObject m = true <->
            Model.modelProperties m <> None)
        /\ exists model,
             In (k, model) (definitions swagger)
             /\ unsupported model = false).
Proof.
  intros Hrun. destruct (processModels_describes _ _ Hrun) as [Hkeys Hd].
  split; [exact Hkeys |]. split.
  - intros k m Hm. destruct (Hd k m Hm) as [model [d [_ [Hdesc Hs]]]].
    pose proof (describe_model_result k model) as Hr.
    destruct (unsupported model); [congruence |].
    destruct Hr as [d' [Hd' [Hname _]]].
    assert (d' = d) as -> by congruence.
    destruct Hs as [-> _]. exact Hname.
  - intros k m Hm. destruct (Hd k m Hm) as [model [d [Hin [Hdesc Hs]]]].
    pose proof (describe_model_result k model) as Hr.
    destruct (unsupported model) eqn:Hu; [congruence |].
    destruct Hr as [d' [Hd' [_ [_ [_ [_ [Hobj _]]]]]]].
    assert (d' = d) as -> by congruence.
    destruct Hs as [_ [-> [-> [_ ->]]]]. split; [exact Hobj |].
    split; [| eauto].
    clear - Hdesc. unfold describe_model in Hdesc.
    match type of Hdesc with
    | bind ?shape _ = _ =>
        destruct shape as [[[[parent properties] required] enums] | |]
    end; try discriminate.
    cbn [bind] in Hdesc. injection Hdesc as <-. simpl.
    destruct properties; split; congruence.
Qed.

Lemma processModels_models_of_definitions_witness :
  processModels pet_hierarchy = Ok pet_models /\ names_are_keys pet_models.
Proof.
  split; [reflexivity |].
  apply (processModels_models_of_definitions pet_hierarchy pet_models).
  reflexivity.
Defined.

(** ** Enumerations *)

Lemma enum_descriptors_members (values : list string) :
  map EnumValue.enumValue (enum_descriptors values) = values
  /\ map EnumValue.enumName (enum_descriptors values)
     = map toEnumName values
  /\ map EnumValue.last (enum_descriptors values)
     = match values with
       | [] => []
       | _ :: rest => repeat false (List.length rest) ++ [true]
       end.
Proof.
  induction values as [| v values [IH1 [IH2 IH3]]]; [repeat split |].
  cbn [enum_descriptors map EnumValue.enumValue EnumValue.enumName
       EnumValue.last].
  rewrite IH1, IH2, IH3. repeat split.
  destruct values as [| w values]; reflexivity.
Qed.

Lemma enum_descriptors_names (values : list string) (d : EnumValue.t) :
  In d (enum_descriptors values) ->
  EnumValue.enumName d = toEnumName (EnumValue.enumValue d).
Proof.
  induction values as [| v values IH]; [intros [] |].
  cbn [enum_descriptors]. intros [<- | Hd]; [reflexivity | auto].
Qed.

(** X10: An enumeration keeps the values of its definition: a model of
    [processModels] that is an enumeration stems from a definition of
    type [string] with a filled [enum]; its values are those of the
    definition, in the declared order and repeats included, each value
    of ASCII under the name that [toEnumName] gives it, the last one
    flagged and no other; it has no properties. *)
Theorem processModels_enum_values (swagger : swagger_doc)
  (models : Obj.t Model.t) (k : string) (m : Model.t) :
  processModels swagger = Ok models ->
  Obj.get k models = Some m ->
  Model.modelIsEnum m = true ->
  exists model value rest descriptors,
    In (k, model) (definitions swagger)
    /\ type_is model "string" = true
    /\ s_enum model = Some (value :: rest)
    /\ Model.modelEnumValues m = Some descriptors
    /\ map EnumValue.enumValue descriptors = value :: rest
    /\ (forall d,
          In d descriptors ->
          ascii_only (EnumValue.enumValue d) = true ->
          EnumValue.enumName d = toEnumName (EnumValue.enumValue d))
    /\ map EnumValue.last descriptors
       = repeat false (List.length rest) ++ [true]
    /\ Model.modelProperties m = None.
Proof.
  intros Hrun Hm Henum.
  destruct (processModels_describes _ _ Hrun) as [_ Hd].
  destruct (Hd k m Hm) as [model [d [Hin [Hdesc Hs]]]].
  pose proof (describe_model_result k model) as Hr.
  destruct (unsupported model); [congruence |].
  destruct Hr as [d' [Hd' [_ [_ [_ [_ [Hobj He]]]]]]].
  assert (d' = d) as -> by congruence.
  destruct Hs as [_ [Hso [Hse [Hsv Hsp]]]]. rewrite Hse in Henum.
  destruct (He Henum) as [Ht [values [Hvalues [Hne Hdescr]]]].
  destruct values as [| value rest]; [congruence |].
  destruct (enum_descriptors_members (value :: rest)) as [E1 [E2 E3]].
  exists model, value, rest, (enum_descriptors (value :: rest)).
  split; [exact Hin |]. split; [exact Ht |]. split; [exact Hvalues |].
  split; [congruence |]. split; [exact E1 |].
  split; [intros d0 Hd0 _; exact (enum_descriptors_names _ d0 Hd0) |].
  split; [exact E3 |].
  rewrite Hsp. clear - Hdesc Henum. unfold describe_model in Hdesc.
  match type of Hdesc with
  | bind ?shape _ = _ =>
      destruct shape as [[[[parent properties] required] enums] | |] eqn:Hsh
  end; try discriminate.
  cbn [bind] in Hdesc. injection Hdesc as <-. simpl in *.
  destruct properties as [props |]; [| reflexivity].
  exfalso. destruct (s_allOf model) as [[| first others] |].
  - destruct (type_is model "object");
      [injection Hsh as <- <- <- <-; discriminate |].
    destruct (type_is model "string"); [| discriminate].
    destruct (Nat.eqb _ 0); [discriminate |]. discriminate.
  - injection Hsh as <- <- <- <-. discriminate.
  - destruct (type_is model "object");
      [injection Hsh as <- <- <- <-; discriminate |].
    destruct (type_is model "string"); [| discriminate].
    destruct (Nat.eqb _ 0); [discriminate |]. discriminate.
Qed.

Lemma processModels_enum_values_witness :
  processModels pet_hierarchy = Ok pet_models
  /\ exists m descriptors,
       Obj.get "Kind" pet_models = Some m
       /\ Model.modelEnumValues m = Some descriptors
       /\ map EnumValue.enumValue descriptors = ["wild"; "tame"]
       /\ Forall
            (fun d =>
               EnumValue.enumName d = toEnumName (EnumValue.enumValue d))
            descriptors.
Proof.
  split; [reflexivity |]. eexists.
  destruct (processModels_enum_values pet_hierarchy pet_models "Kind" _
              eq_refl eq_refl eq_refl)
    as [model [value [rest [descriptors [_ [_ [_ [Hd [Hv [Hn _]]]]]]]]]].
  exists descriptors. split; [reflexivity |]. split; [exact Hd |].
  split; [injection Hd as <-; reflexivity |].
  apply Forall_forall. intros d Hin. apply (Hn d Hin).
  injection Hd as <-.
  destruct Hin as [<- | [<- | []]]; reflexivity.
Defined.

(** ** The exits of [processModels] *)

Lemma forEach_no_exit {A S : Type} (f : S -> A -> result S) (l : list A)
  (c : Z) :
  (forall s x, f s x <> Exit c) -> forall s, forEach f l s <> Exit c.
Proof.
  intros Hf. induction l as [| x l IH]; intros s; [discriminate |].
  rewrite forEach_cons. destruct (f s x) eqn:Hx; cbn [bind];
    [apply IH | discriminate | congruence].
Qed.





Lemma link_hierarchy_no_exit (models : Obj.t Model.t) (k : string)
  (c : Z) :
  link_hierarchy models k <> Exit c.
Proof.
  unfold link_hierarchy. destruct (Obj.get k models) as [m |];
    [| discriminate].
  destruct (negb (Model.modelIsObject m)); [discriminate |].
  destruct (Model.modelParent m) as [| p | r]; try discriminate.
  destruct (String.eqb p ""); [discriminate |].
  destruct (Obj.get p models); discriminate.
Qed.



(** ** The hierarchy *)

Lemma describe_model_parent (name : string) (model : schema)
  (d : Model.t) :
  describe_model name model = Ok d ->
  Model.modelParent d
  = match declared_parent model with
    | Some p => Model.ParentName p
    | None => Model.NoParent
    end.
Proof.
  unfold describe_model, declared_parent.
  destruct (s_allOf model) as [[| first others] |].
  - destruct (type_is model "object"); [intros [= <-]; reflexivity |].
    destruct (type_is model "string"); [| discriminate].
    destruct (Nat.eqb _ 0); [discriminate | intros [= <-]; reflexivity].
  - cbn [bind]. intros [= <-]. reflexivity.
  - destruct (type_is model "object"); [intros [= <-]; reflexivity |].
    destruct (type_is model "string"); [| discriminate].
    destruct (Nat.eqb _ 0); [discriminate | intros [= <-]; reflexivity].
Qed.

(** One link: what each model becomes. *)
Lemma get_link (models : Obj.t Model.t) (k p x : string) :
  Obj.get x
    (update p (Model.push_subclass (ModelRef k))
       (update k (Model.set_parent (Model.ParentModel (ModelRef p)))
          models))
  = option_map
      (fun m =>
         (if String.eqb x p then Model.push_subclass (ModelRef k)
          else fun m => m)
           ((if String.eqb x k
             then Model.set_parent (Model.ParentModel (ModelRef p))
             else fun m => m) m))
      (Obj.get x models).
Proof.
  rewrite !get_update.
  destruct (String.eqb_spec x p) as [-> | Hp].
  - destruct (String.eqb_spec p k) as [-> | Hk];
      destruct (Obj.get _ models); reflexivity.
  - destruct (String.eqb_spec x k) as [-> | Hk];
      destruct (Obj.get _ models); reflexivity.
Qed.

Lemma link_members (models : Obj.t Model.t) (k p x : string)
  (m' : Model.t) :
  Obj.get x
    (update p (Model.push_subclass (ModelRef k))
       (update k (Model.set_parent (Model.ParentModel (ModelRef p)))
          models))
  = Some m' ->
  exists m,
    Obj.get x models = Some m
    /\ Model.modelParent m'
       = (if String.eqb x k then Model.ParentModel (ModelRef p)
          else Model.modelParent m)
    /\ Model.modelSubclasses m'
       = Model.modelSubclasses m
         ++ (if String.eqb x p then [ModelRef k] else []).
Proof.
  rewrite get_link. destruct (Obj.get x models) as [m |]; [| discriminate].
  intros [= <-]. exists m. split; [reflexivity |].
  destruct (String.eqb x p), (String.eqb x k); simpl;
    rewrite ?app_nil_r; auto.
Qed.

Lemma link_members_of (models : Obj.t Model.t) (k p x : string)
  (m : Model.t) :
  Obj.get x models = Some m ->
  exists m',
    Obj.get x
      (update p (Model.push_subclass (ModelRef k))
         (update k (Model.set_parent (Model.ParentModel (ModelRef p)))
            models))
    = Some m'
    /\ Model.modelParent m'
       = (if String.eqb x k then Model.ParentModel (ModelRef p)
          else Model.modelParent m)
    /\ Model.modelSubclasses m'
       = Model.modelSubclasses m
         ++ (if String.eqb x p then [ModelRef k] else []).
Proof.
  intros Hx. rewrite get_link, Hx. eexists. split; [reflexivity |].
  destruct (String.eqb x p), (String.eqb x k); simpl;
    rewrite ?app_nil_r; auto.
Qed.

Lemma link_hierarchy_links (models : Obj.t Model.t) (k : string)
  (models' : Obj.t Model.t) :
  link_hierarchy models k = Ok models' ->
  linked_up models /\ linked_down models ->
  linked_up models' /\ linked_down models'.
Proof.
  intros H [Hup Hdown].
  apply link_hierarchy_shape in H
    as [-> | [m [p [Hk [_ [Hparent [_ [Hp ->]]]]]]]]; [now split |].
  unfold Obj.has in Hp.
  destruct (Obj.get p models) as [pm |] eqn:Hpm; [| discriminate].
  split.
  - intros x m' q Hx Hq.
    apply link_members in Hx as [mx [Hx [Hpar _]]].
    destruct (String.eqb_spec x k) as [-> | Hxk].
    + rewrite Hq in Hpar. injection Hpar as ->.
      destruct (link_members_of models k p p pm Hpm) as [pm' [Hg [_ Hs]]].
      exists pm'. split; [exact Hg |]. rewrite Hs, String.eqb_refl.
      apply in_or_app. right. now left.
    + rewrite Hq in Hpar. symmetry in Hpar.
      destruct (Hup x mx q Hx Hpar) as [qm [Hqm Hin]].
      destruct (link_members_of models k p q qm Hqm) as [qm' [Hg [_ Hs]]].
      exists qm'. split; [exact Hg |]. rewrite Hs.
      apply in_or_app. now left.
  - intros q qm' c Hq Hc.
    apply link_members in Hq as [qm [Hq [_ Hsub]]].
    rewrite Hsub in Hc. apply in_app_or in Hc as [Hc | Hc].
    + destruct (Hdown q qm c Hq Hc) as [cm [Hcm Hcp]].
      destruct (link_members_of models k p c cm Hcm) as [cm' [Hg [Hpar _]]].
      exists cm'. split; [exact Hg |]. rewrite Hpar.
      destruct (String.eqb_spec c k) as [-> | _]; [| exact Hcp].
      congruence.
    + destruct (String.eqb_spec q p) as [-> | _]; [| destruct Hc].
      destruct Hc as [[= <-] | []].
      destruct (link_members_of models k p k m Hk) as [m' [Hg [Hpar _]]].
      exists m'. split; [exact Hg |]. now rewrite Hpar, String.eqb_refl.
Qed.

Lemma link_hierarchy_parent_from (models : Obj.t Model.t) (k : string)
  (models' : Obj.t Model.t) :
  link_hierarchy models k = Ok models' ->
  forall x m', Obj.get x models' = Some m' ->
    exists m, Obj.get x models = Some m /\ parent_from m m'.
Proof.
  intros H x m' Hx.
  apply link_hierarchy_shape in H
    as [-> | [m [p [Hk [_ [Hparent [Hne [_ ->]]]]]]]].
  - exists m'. split; [exact Hx | now left].
  - apply link_members in Hx as [mx [Hx [Hpar _]]]. exists mx.
    split; [exact Hx |].
    destruct (String.eqb_spec x k) as [-> | _]; [| now left].
    right. exists p. rewrite Hk in Hx. injection Hx as <-. auto.
Qed.

Lemma parent_from_trans (a b c : Model.t) :
  parent_from a b -> parent_from b c -> parent_from a c.
Proof.
  unfold parent_from.
  intros [Hab | [p [Ha [Hp Hb]]]] [Hbc | [q [Hb' [Hq Hc]]]].
  - left. congruence.
  - right. exists q. rewrite <- Hab. auto.
  - right. exists p. rewrite Hbc. auto.
  - congruence.
Qed.

(** The third loop leaves the parent and the subclasses as they are. *)
Lemma resolve_dependencies_links (models : Obj.t Model.t) (k : string)
  (models' : Obj.t Model.t) :
  resolve_dependencies models k = Ok models' ->
  forall x,
    option_map (fun m => (Model.modelParent m, Model.modelSubclasses m))
      (Obj.get x models')
    = option_map (fun m => (Model.modelParent m, Model.modelSubclasses m))
        (Obj.get x models).
Proof.
  intros H x. apply resolve_dependencies_shape in H as [-> | [d ->]];
    [reflexivity |].
  rewrite get_update. destruct (String.eqb_spec x k) as [-> | _];
    [| reflexivity].
  now destruct (Obj.get k models).
Qed.

Lemma third_loop_links (ks : list string) (models models' : Obj.t Model.t) :
  forEach resolve_dependencies ks models = Ok models' ->
  forall x,
    option_map (fun m => (Model.modelParent m, Model.modelSubclasses m))
      (Obj.get x models')
    = option_map (fun m => (Model.modelParent m, Model.modelSubclasses m))
        (Obj.get x models).
Proof.
  intros Hrun.
  refine (forEach_invariant
            (fun s : Obj.t Model.t =>
               forall x,
                 option_map
                   (fun m => (Model.modelParent m, Model.modelSubclasses m))
                   (Obj.get x s)
                 = option_map
                     (fun m =>
                        (Model.modelParent m, Model.modelSubclasses m))
                     (Obj.get x models))
            _ ks _ models models' Hrun _); [| reflexivity].
  intros s k s' _ Hstep Hs x.
  now rewrite (resolve_dependencies_links _ _ _ Hstep x).
Qed.

Lemma same_links (models models' : Obj.t Model.t) (x : string)
  (m' : Model.t) :
  (forall x,
      option_map (fun m => (Model.modelParent m, Model.modelSubclasses m))
        (Obj.get x models')
      = option_map
          (fun m => (Model.modelParent m, Model.modelSubclasses m))
          (Obj.get x models)) ->
  Obj.get x models' = Some m' ->
  exists m,
    Obj.get x models = Some m
    /\ Model.modelParent m' = Model.modelParent m
    /\ Model.modelSubclasses m' = Model.modelSubclasses m.
Proof.
  intros H Hx. specialize (H x). rewrite Hx in H.
  destruct (Obj.get x models) as [m |]; [| discriminate].
  injection H as H1 H2. eauto.
Qed.

Lemma same_links_sym (models models' : Obj.t Model.t) :
  (forall x,
      option_map (fun m => (Model.modelParent m, Model.modelSubclasses m))
        (Obj.get x models')
      = option_map
          (fun m => (Model.modelParent m, Model.modelSubclasses m))
          (Obj.get x models)) ->
  forall x,
    option_map (fun m => (Model.modelParent m, Model.modelSubclasses m))
      (Obj.get x models)
    = option_map
        (fun m => (Model.modelParent m, Model.modelSubclasses m))
        (Obj.get x models').
Proof. intros H x. symmetry. apply H. Qed.

Lemma same_links_consistent (models models' : Obj.t Model.t) :
  (forall x,
      option_map (fun m => (Model.modelParent m, Model.modelSubclasses m))
        (Obj.get x models')
      = option_map
          (fun m => (Model.modelParent m, Model.modelSubclasses m))
          (Obj.get x models)) ->
  linked_up models /\ linked_down models ->
  linked_up models' /\ linked_down models'.
Proof.
  intros H [Hup Hdown]. pose proof (same_links_sym _ _ H) as H'. split.
  - intros k m' p Hk Hp.
    destruct (same_links _ _ k m' H Hk) as [m [Hm [Hpar _]]].
    rewrite Hpar in Hp. destruct (Hup k m p Hm Hp) as [pm [Hpm Hin]].
    destruct (same_links _ _ p pm H' Hpm) as [pm' [Hpm' [_ Hsub]]].
    exists pm'. split; [exact Hpm' | congruence].
  - intros p pm' c Hp Hc.
    destruct (same_links _ _ p pm' H Hp) as [pm [Hpm [_ Hsub]]].
    rewrite Hsub in Hc. destruct (Hdown p pm c Hpm Hc) as [cm [Hcm Hcp]].
    destruct (same_links _ _ c cm H' Hcm) as [cm' [Hcm' [Hpar _]]].
    exists cm'. split; [exact Hcm' | congruence].
Qed.

(** The hierarchy after the second loop. *)
Lemma second_loop_links (defs : Obj.t schema) (m1 m2 : Obj.t Model.t) :
  forEach
    (fun models '(name, model) =>
       descriptor <- describe_model name model ;;
       Ok (Obj.set name descriptor models))
    defs []
  = Ok m1 ->
  forEach link_hierarchy (Obj.keys m1) m1 = Ok m2 ->
  Obj.keys m2 = Obj.keys m1
  /\ linked_up m2
  /\ linked_down m2
  /\ forall k m, Obj.get k m2 = Some m ->
       exists model,
         In (k, model) defs
         /\ Model.modelName m = k
         /\ Model.modelParent m = linked_parent model.
Proof.
  intros H1 H2.
  pose proof (first_loop_describes _ _ H1) as Hd.
  (* the first loop links nothing *)
  assert (Hstart : linked_up m1 /\ linked_down m1).
  { split.
    - intros k m p Hk Hp. destruct (Hd k m Hk) as [model [_ Hdesc]].
      pose proof (describe_model_result k model) as Hr.
      destruct (unsupported model); [congruence |].
      destruct Hr as [d [Hd' [_ [_ [_ [Hnp _]]]]]].
      assert (d = m) as -> by congruence. now elim (Hnp (ModelRef p)).
    - intros p pm c Hp Hc. destruct (Hd p pm Hp) as [model [_ Hdesc]].
      pose proof (describe_model_result p model) as Hr.
      destruct (unsupported model); [congruence |].
      destruct Hr as [d [Hd' [_ [Hsub _]]]].
      assert (d = pm) as -> by congruence. rewrite Hsub in Hc.
      destruct Hc. }
  assert (H2links : linked_up m2 /\ linked_down m2).
  { refine (forEach_invariant
              (fun s : Obj.t Model.t => linked_up s /\ linked_down s)
              _ _ _ m1 m2 H2 Hstart).
    intros s k s' _. apply link_hierarchy_links. }
  assert (H2from : forall x m', Obj.get x m2 = Some m' ->
                     exists m, Obj.get x m1 = Some m /\ parent_from m m').
  { refine (forEach_invariant
              (fun s : Obj.t Model.t =>
                 forall x m', Obj.get x s = Some m' ->
                   exists m, Obj.get x m1 = Some m /\ parent_from m m')
              _ _ _ m1 m2 H2 _).
    - intros s k s' _ Hstep Hs x m' Hx.
      destruct (link_hierarchy_parent_from _ _ _ Hstep x m' Hx)
        as [ms [Hms Hf]].
      destruct (Hs x ms Hms) as [m0 [Hm0 Hf0]].
      eauto using parent_from_trans.
    - intros x m' Hx. exists m'. split; [exact Hx | now left]. }
  destruct (second_loop_kept _ _ _ H2) as [[Hkeys _] Hlinked].
  apply (loop_static _ _ link_hierarchy_static) in H2 as [_ G2].
  split; [exact Hkeys |]. destruct H2links as [Hup Hdown].
  split; [exact Hup |]. split; [exact Hdown |].
  intros k m2k Hm2.
  destruct (H2from k m2k Hm2) as [m0 [Hm0 Hfrom]].
  destruct (G2 k m2k Hm2) as [m0' [Hm0' Hstatic]].
  assert (m0' = m0) as -> by congruence.
  destruct (Hd k m0 Hm0) as [model [Hin Hdesc]].
  exists model. split; [exact Hin |].
  pose proof (describe_model_parent _ _ _ Hdesc) as Hp0.
  pose proof (describe_model_result k model) as Hr.
  destruct (unsupported model); [congruence |].
  destruct Hr as [d [Hd' [Hname _]]].
  assert (d = m0) as -> by congruence.
  split; [destruct Hstatic as [-> _]; exact Hname |].
  assert (Hl : parent_linked m2k).
  { apply (Hlinked k m2k); [| exact Hm2].
    rewrite <- Hkeys. apply has_In_keys. unfold Obj.has.
    now rewrite Hm2. }
  unfold linked_parent.
  destruct Hfrom as [Hsame0 | [p [Hpname [Hne Hmodel]]]].
  - rewrite Hsame0, Hp0.
    destruct (declared_parent model) as [p |]; [| reflexivity].
    destruct (String.eqb_spec p "") as [-> | Hne]; [reflexivity |].
    exfalso. apply Hne. apply Hl; [| congruence].
    destruct Hstatic as [_ [-> _]].
    clear - Hdesc Hp0. unfold describe_model, declared_parent in *.
    destruct (s_allOf model) as [[| first others] |];
      try discriminate.
    + destruct (type_is model "object");
        [injection Hdesc as <-; discriminate |].
      destruct (type_is model "string"); [| discriminate].
      destruct (Nat.eqb _ 0); [discriminate |].
      injection Hdesc as <-. discriminate.
    + cbn [bind] in Hdesc. injection Hdesc as <-. reflexivity.
    + destruct (type_is model "object");
        [injection Hdesc as <-; discriminate |].
      destruct (type_is model "string"); [| discriminate].
      destruct (Nat.eqb _ 0); [discriminate |].
      injection Hdesc as <-. discriminate.
  - rewrite Hmodel. rewrite Hp0 in Hpname.
    destruct (declared_parent model) as [q |]; [| discriminate].
    injection Hpname as ->.
    destruct (String.eqb_spec p ""); [contradiction | reflexivity].
Qed.

(** The hierarchy that [processModels] leaves. *)
Lemma processModels_links (swagger : swagger_doc)
  (models : Obj.t Model.t) :
  processModels swagger = Ok models ->
  linked_up models
  /\ linked_down models
  /\ forall k m, Obj.get k models = Some m ->
       exists model,
         In (k, model) (definitions swagger)
         /\ Model.modelParent m = linked_parent model.
Proof.
  unfold processModels.
  match goal with
  | |- bind ?a _ = _ -> _ => destruct a as [m1 | |] eqn:H1
  end; try discriminate. cbn [bind].
  destruct (forEach link_hierarchy (Obj.keys m1) m1) as [m2 | |] eqn:H2;
    try discriminate. cbn [bind]. intros H3.
  destruct (second_loop_links _ _ _ H1 H2) as [_ [Hup2 [Hdown2 Hp2]]].
  pose proof (third_loop_links _ _ _ H3) as Hsame.
  destruct (same_links_consistent _ _ Hsame (conj Hup2 Hdown2))
    as [Hup Hdown].
  split; [exact Hup |]. split; [exact Hdown |].
  intros k m Hk.
  destruct (same_links _ _ k m Hsame Hk) as [m2k [Hm2 [Hpar _]]].
  destruct (Hp2 k m2k Hm2) as [model [Hin [_ Hp]]].
  exists model. split; [exact Hin | congruence].
Qed.

(** X12: The hierarchy of the models: a model whose definition is a
    composition has as its parent the model that the first member of
    [allOf] refers to (a reference that ends in [/] leaves the empty name
    in place, and a definition without a filled [allOf] has no parent);
    the parent of a model is a model of the dictionary and lists that
    model among its subclasses; and every subclass of a model is a model
    of the dictionary that has it as its parent. *)
Theorem processModels_hierarchy (swagger : swagger_doc)
  (models : Obj.t Model.t) :
  processModels swagger = Ok models ->
  (forall k m, Obj.get k models = Some m ->
     exists model,
       In (k, model) (definitions swagger)
       /\ Model.modelParent m = linked_parent model)
  /\ (forall k m p,
        Obj.get k models = Some m ->
        Model.modelParent m = Model.ParentModel (ModelRef p) ->
        exists pm,
          Obj.get p models = Some pm
          /\ In (ModelRef k) (Model.modelSubclasses pm))
  /\ (forall p pm c,
        Obj.get p models = Some pm ->
        In (ModelRef c) (Model.modelSubclasses pm) ->
        exists cm,
          Obj.get c models = Some cm
          /\ Model.modelParent cm = Model.ParentModel (ModelRef p)).
Proof.
  intros Hrun.
  destruct (processModels_links swagger models Hrun) as [Hup [Hdown Hp]].
  split; [exact Hp |]. split; [exact Hup | exact Hdown].
Qed.

Lemma processModels_hierarchy_witness :
  processModels pet_hierarchy = Ok pet_models
  /\ linked_up pet_models /\ linked_down pet_models.
Proof.
  split; [reflexivity |].
  exact (proj2 (processModels_hierarchy pet_hierarchy pet_models eq_refl)).
Defined.

(** ** A parent that is not defined *)

Lemma keys_unique {V : Type} (o : Obj.t V) (k : string) (v v' : V) :
  NoDup (Obj.keys o) -> In (k, v) o -> In (k, v') o -> v = v'.
Proof.
  unfold Obj.keys. induction o as [| [k0 v0] o IH]; simpl; [tauto |].
  intros Hnd. inversion Hnd as [| ? ? Hnotin Hnd']; subst.
  intros [[= -> ->] | Hin] [[= <-] | Hin'].
  - reflexivity.
  - elim Hnotin. apply in_map_iff. now exists (k, v').
  - subst. elim Hnotin. apply in_map_iff. now exists (k0, v).
  - auto.
Qed.

Lemma link_hierarchy_throws (ks : list string) :
  forall (models : Obj.t Model.t) (e : js_error),
    forEach link_hierarchy ks models = Throw e ->
    e = TypeError "models[parentName] is undefined".
Proof.
  induction ks as [| k ks IH]; intros models e; [discriminate |].
  rewrite forEach_cons.
  destruct (link_hierarchy models k) as [models' | e' |] eqn:Hk;
    cbn [bind]; [apply IH | | discriminate].
  intros [= <-]. revert Hk. unfold link_hierarchy.
  destruct (Obj.get k models) as [m |]; [| discriminate].
  destruct (negb (Model.modelIsObject m)); [discriminate |].
  destruct (Model.modelParent m) as [| p | r]; try discriminate.
  destruct (String.eqb p ""); [discriminate |].
  destruct (Obj.get p models); [discriminate |]. now intros [= <-].
Qed.

(** X13: A composition whose parent is not defined stops the
    generation with a TypeError: when the definitions are all supported
    and one of them has a filled [allOf] whose first member refers to a
    name, not empty, that is the key of no definition, [processModels]
    throws on reading the subclasses of the parent, which is
    [undefined]. *)
Theorem processModels_missing_parent_throws (swagger : swagger_doc)
  (name : string) (model : schema) (parentName : string) :
  NoDup (Obj.keys (definitions swagger)) ->
  Forall (fun d => unsupported (snd d) = false) (definitions swagger) ->
  In (name, model) (definitions swagger) ->
  declared_parent model = Some parentName ->
  parentName <> "" ->
  ~ In parentName (Obj.keys (definitions swagger)) ->
  processModels swagger
  = Throw (TypeError "models[parentName] is undefined").
Proof.
  intros Hnd Hsup Hin Hparent Hne Hmissing. unfold processModels.
  pose proof (first_loop_result (definitions swagger) []) as H1.
  assert (Hall : existsb (fun d => unsupported (snd d))
                   (definitions swagger) = false).
  { clear - Hsup. induction Hsup as [| d l Hd _ IH]; [reflexivity |].
    simpl. now rewrite Hd, IH. }
  rewrite Hall in H1. destruct H1 as [m1 H1]. rewrite H1. cbn [bind].
  destruct (forEach link_hierarchy (Obj.keys m1) m1) as [m2 | e | c]
    eqn:H2; cbn [bind].
  - exfalso.
    destruct (second_loop_links _ _ _ H1 H2) as [Hkeys [Hup [_ Hp]]].
    assert (Hk : Obj.has name m2 = true).
    { apply has_In_keys. rewrite Hkeys. apply has_In_keys.
      apply (first_loop_keys _ _ _ H1). right.
      unfold Obj.keys. apply in_map_iff. now exists (name, model). }
    unfold Obj.has in Hk.
    destruct (Obj.get name m2) as [m |] eqn:Hm; [| discriminate].
    destruct (Hp name m Hm) as [model' [Hin' [_ Hpar]]].
    assert (model' = model) as ->
      by exact (keys_unique _ _ _ _ Hnd Hin' Hin).
    unfold linked_parent in Hpar. rewrite Hparent in Hpar.
    destruct (String.eqb_spec parentName ""); [contradiction |].
    destruct (Hup name m parentName Hm Hpar) as [pm [Hpm _]].
    apply Hmissing.
    assert (Hhas : Obj.has parentName m1 = true).
    { apply has_In_keys. rewrite <- Hkeys. apply has_In_keys.
      unfold Obj.has. now rewrite Hpm. }
    apply (first_loop_keys _ _ _ H1 parentName) in Hhas
      as [Hempty | Hdef]; [discriminate | exact Hdef].
  - now rewrite (link_hierarchy_throws _ _ _ H2).
  - exfalso. revert H2. apply forEach_no_exit.
    intros s x. apply link_hierarchy_no_exit.
Qed.

Lemma processModels_missing_parent_throws_witness :
  processModels dangling_parent
  = Throw (TypeError "models[parentName] is undefined").
Proof.
  apply (processModels_missing_parent_throws dangling_parent "Dog"
           (Schema None None None None None None
              (Some [schema_ref "#/definitions/Animal"]) None None)
           "Animal").
  - repeat constructor. simpl. tauto.
  - repeat constructor.
  - simpl. auto.
  - reflexivity.
  - discriminate.
  - simpl. intuition discriminate.
Defined.

(** ** The dependencies of a model are complete *)

Section Additions.

Variable models : Obj.t Model.t.

Lemma added_refl (this : DependenciesResolver.t) : added models this this [].
Proof.
  repeat split; auto using incl_refl. intros _ t [].
Qed.

Lemma added_trans (a b c : DependenciesResolver.t) (ts1 ts2 : list jsType) :
  added models a b ts1 -> added models b c ts2 ->
  added models a c (ts1 ++ ts2).
Proof.
  intros [Ho1 [Hi1 [Hn1 [Hk1 Hc1]]]] [Ho2 [Hi2 [Hn2 [Hk2 Hc2]]]].
  repeat split.
  - congruence.
  - eauto using incl_tran.
  - auto.
  - auto.
  - intros Ha t Ht. apply in_app_or in Ht as [Ht | Ht].
    + intros name Hrb Hown Hhas. apply Hi2.
      exact (Hc1 Ha t Ht name Hrb Hown Hhas).
    + rewrite <- Ho1. exact (Hc2 (Hn1 Ha) t Ht).
Qed.

Lemma added_weaken (a b : DependenciesResolver.t) (ts ts' : list jsType) :
  incl ts' ts -> added models a b ts -> added models a b ts'.
Proof.
  intros Hincl [Ho [Hi [Hn [Hk Hc]]]]. repeat split; auto.
Qed.

Lemma forEach_added {A : Type}
  (step : DependenciesResolver.t -> A -> result DependenciesResolver.t)
  (candidates : A -> list jsType) (l : list A) :
  (forall this x this',
      step this x = Ok this' -> added models this this' (candidates x)) ->
  forall this this',
    forEach step l this = Ok this' ->
    added models this this' (flat_map candidates l).
Proof.
  intros Hstep. induction l as [| x l IH]; intros this this' Hrun.
  - injection Hrun as <-. apply added_refl.
  - rewrite forEach_cons in Hrun.
    destruct (step this x) as [this1 | |] eqn:Hx; try discriminate.
    cbn [bind] in Hrun. cbn [flat_map].
    eapply added_trans; eauto.
Qed.

(** One addition. *)
Lemma add_added (this : DependenciesResolver.t) (t : jsType)
  (this' : DependenciesResolver.t) :
  DependenciesResolver.add models this t = Ok this' ->
  added models this this' [t].
Proof.
  unfold DependenciesResolver.add.
  destruct (removeBrackets t) as [dep | |] eqn:Hrb; try discriminate.
  cbn [bind].
  destruct (type_mem dep (DependenciesResolver.dependencyNames this))
    eqn:Hmem; cbn [negb andb].
  { intros [= <-]. repeat split; auto using incl_refl.
    intros Hheld t0 [<- | []] name Hname _ _.
    assert (dep = TString name) as -> by congruence.
    apply type_mem_true in Hmem. exact (Hheld _ Hmem). }
  destruct (type_strict_eq (DependenciesResolver.ownType this) dep)
    eqn:Hown; cbn [negb].
  { intros [= <-]. repeat split; auto using incl_refl.
    intros _ t0 [<- | []] name Hname Hne _.
    assert (dep = TString name) as -> by congruence.
    destruct (DependenciesResolver.ownType this) as [| | own |];
      try discriminate.
    simpl in Hown. apply String.eqb_eq in Hown. congruence. }
  cbv zeta.
  assert (Hpushed :
            added models this
              (DependenciesResolver.Build
                 (DependenciesResolver.ownType this)
                 (DependenciesResolver.dependencies this
                  ++ [ModelRef (type_toString dep)])
                 (DependenciesResolver.dependencyNames this ++ [dep]))
              [t]).
  { repeat split; cbn.
    - apply incl_appl, incl_refl.
    - intros Hheld t0 Ht0. apply in_app_or in Ht0 as [Ht0 | [<- | []]];
        apply in_or_app; [left; auto | right; now left].
    - intros Hout k Hk Hnull Hundef Hin.
      apply in_app_or in Hin as [Hin | [[= Heq] | []]];
        [exact (Hout k Hk Hnull Hundef Hin) |].
      simpl in Hk. rewrite Hk in Hown.
      destruct (removeBrackets_not_inline _ _ Hrb) as [-> | [-> | [s ->]]];
        simpl in Heq; try congruence.
      subst s. simpl in Hown. now rewrite String.eqb_refl in Hown.
    - intros _ t0 [<- | []] name Hname _ _.
      assert (dep = TString name) as -> by congruence.
      apply in_or_app. right. now left. }
  destruct (Obj.get (type_toString dep) models) as [depModel |] eqn:Hget;
    [intros [= <-]; exact Hpushed |].
  destruct (Obj.inherits (type_toString dep));
    intros [= <-]; [exact Hpushed |].
  repeat split; auto using incl_refl.
  intros _ t0 [<- | []] name Hname _ Hhas.
  assert (dep = TString name) as -> by congruence.
  unfold Obj.has in Hhas. simpl in Hget. now rewrite Hget in Hhas.
Qed.

(** The addition of the name of a model that is referred to. *)
Lemma named_add_added (this this' : DependenciesResolver.t)
  (r : model_ref) :
  names_are_keys models ->
  (name <- modelName_of models r ;;
   DependenciesResolver.add models this name) = Ok this' ->
  added models this this' [TString (ref_key r)].
Proof.
  intros Hnames. unfold modelName_of.
  destruct (Obj.get (ref_key r) models) as [m |] eqn:Hm; [| discriminate].
  cbn [bind]. rewrite (Hnames _ _ Hm). apply add_added.
Qed.

Lemma add_property_dependencies_added (this : DependenciesResolver.t)
  (p : Property.t) (this' : DependenciesResolver.t) :
  add_property_dependencies models this p = Ok this' ->
  added models this this' (property_candidates p).
Proof.
  unfold add_property_dependencies, property_candidates.
  destruct (Property.propertyType p) as [| | s | allTypes def];
    try discriminate.
  - apply add_added.
  - intros Hrun.
    apply (forEach_added (DependenciesResolver.add models)
             (fun t => [t]) allTypes add_added) in Hrun.
    eapply added_weaken; [| exact Hrun].
    intros t Ht. apply in_flat_map. exists t. split; [exact Ht | now left].
Qed.

(** The third loop, for one model: what it stores holds every candidate
    of the model. *)
Lemma resolve_dependencies_complete (k : string)
  (models' : Obj.t Model.t) :
  names_are_keys models ->
  resolve_dependencies models k = Ok models' ->
  forall m,
    Obj.get k models = Some m ->
    Model.modelIsObject m = true ->
    exists deps,
      models' = update k (Model.set_dependencies deps) models
      /\ (forall t, In t (model_candidates m) ->
            covers models (TString k) deps t)
      /\ (k <> "null" -> k <> "undefined" -> ~ In (ModelRef k) deps).
Proof.
  intros Hnames Hrun m Hm Hobj. unfold resolve_dependencies in Hrun.
  rewrite Hm, Hobj in Hrun. cbn [negb] in Hrun.
  rewrite (Hnames _ _ Hm) in Hrun.
  set (start := DependenciesResolver.new (TString k)) in Hrun.
  destruct (match Model.modelParent m with
            | Model.NoParent => Ok start
            | Model.ParentName p =>
                if String.eqb p "" then Ok start
                else DependenciesResolver.add models start TUndefined
            | Model.ParentModel r =>
                parentName <- modelName_of models r ;;
                DependenciesResolver.add models start parentName
            end) as [d1 | |] eqn:Hparent; try discriminate.
  cbn [bind] in Hrun.
  assert (A1 : added models start d1
                 match Model.modelParent m with
                 | Model.ParentModel r => [TString (ref_key r)]
                 | _ => []
                 end).
  { destruct (Model.modelParent m) as [| p | r].
    - injection Hparent as <-. apply added_refl.
    - destruct (String.eqb p "").
      + injection Hparent as <-. apply added_refl.
      + apply add_added in Hparent.
        eapply added_weaken; [| exact Hparent]. intros t [].
    - now apply named_add_added. }
  destruct (forEach
              (fun deps child =>
                 childName <- modelName_of models child ;;
                 DependenciesResolver.add models deps childName)
              (Model.modelSubclasses m) d1) as [d2 | |] eqn:Hsub;
    try discriminate.
  cbn [bind] in Hrun.
  assert (A2 : added models d1 d2
                 (map (fun r => TString (ref_key r))
                    (Model.modelSubclasses m))).
  { apply (forEach_added _ (fun r => [TString (ref_key r)])) in Hsub.
    - eapply added_weaken; [| exact Hsub].
      intros t Ht. apply in_map_iff in Ht as [r [<- Hr]].
      apply in_flat_map. exists r. split; [exact Hr | now left].
    - intros this x this'. now apply named_add_added. }
  destruct (Model.modelProperties m) as [ps |] eqn:Hps; try discriminate.
  destruct (forEach (add_property_dependencies models) ps d2)
    as [d3 | |] eqn:Hprop; try discriminate.
  cbn [bind] in Hrun. injection Hrun as <-.
  apply (forEach_added _ property_candidates) in Hprop;
    [| exact add_property_dependencies_added].
  pose proof (added_trans _ _ _ _ _ A1 (added_trans _ _ _ _ _ A2 Hprop))
    as [Ho [_ [_ [Hout Hcov]]]].
  exists (DependenciesResolver.get d3). split; [reflexivity |]. split.
  - intros t Ht. apply (Hcov (fun t0 (H : In t0 []) => match H with end)).
    unfold model_candidates in Ht. rewrite Hps in Ht. exact Ht.
  - intros Hnull Hundef.
    apply (Hout (fun k0 _ _ _ (H : In (ModelRef k0) []) => H) k);
      [rewrite Ho; reflexivity | exact Hnull | exact Hundef].
Qed.

End Additions.

Lemma forEach_establishes {A S : Type} (I : S -> Prop) (Q : A -> S -> Prop)
  (f : S -> A -> result S) (l : list A) :
  (forall s x s', f s x = Ok s' -> I s -> I s') ->
  (forall s x s', f s x = Ok s' -> I s -> Q x s') ->
  (forall s x s' y, f s x = Ok s' -> I s -> Q y s -> Q y s') ->
  forall s s', forEach f l s = Ok s' -> I s ->
    forall x, In x l -> Q x s'.
Proof.
  intros HI Hest Hstable. induction l as [| x l IH]; intros s s' Hrun Hs y;
    [intros [] |].
  rewrite forEach_cons in Hrun.
  destruct (f s x) as [s1 | |] eqn:Hx; try discriminate.
  cbn [bind] in Hrun. intros [<- | Hy].
  - assert (H : I s' /\ Q x s'); [| now destruct H].
    refine (forEach_invariant (fun s0 => I s0 /\ Q x s0) f l _ s1 s' Hrun
              (conj (HI _ _ _ Hx Hs) (Hest _ _ _ Hx Hs))).
    intros s0 z s0' _ Hz [HI0 HQ0]. split; eauto.
  - exact (IH s1 s' Hrun (HI _ _ _ Hx Hs) y Hy).
Qed.

Lemma covers_update (models : Obj.t Model.t) (k : string)
  (f : Model.t -> Model.t) (own : jsType) (deps : list model_ref)
  (t : jsType) :
  covers models own deps t -> covers (update k f models) own deps t.
Proof.
  intros H name Hrb Hown Hhas. rewrite has_update in Hhas. auto.
Qed.

Lemma model_candidates_set_dependencies (d : list model_ref)
  (m : Model.t) :
  model_candidates (Model.set_dependencies d m) = model_candidates m.
Proof. reflexivity. Qed.

(** The dependencies that the third loop leaves under the keys it went
    through. *)
Lemma third_loop_complete (ks : list string) (m2 models : Obj.t Model.t) :
  names_are_keys m2 ->
  forEach resolve_dependencies ks m2 = Ok models ->
  forall k, In k ks ->
    forall m,
      Obj.get k models = Some m ->
      Model.modelIsObject m = true ->
      exists deps,
        Model.modelDependencies m = Some deps
        /\ (forall t, In t (model_candidates m) ->
              covers models (TString k) deps t)
        /\ (k <> "null" -> k <> "undefined" -> ~ In (ModelRef k) deps).
Proof.
  intros Hnames Hrun.
  assert (Hest : forall s x s',
             resolve_dependencies s x = Ok s' -> names_are_keys s ->
             forall m,
               Obj.get x s' = Some m ->
               Model.modelIsObject m = true ->
               exists deps,
                 Model.modelDependencies m = Some deps
                 /\ (forall t, In t (model_candidates m) ->
                       covers s' (TString x) deps t)
                 /\ (x <> "null" -> x <> "undefined" ->
                     ~ In (ModelRef x) deps)).
  { intros s x s' Hstep Hs m' Hm' Hobj'.
    destruct (resolve_dependencies_static _ _ _ Hstep) as [_ Hst].
    destruct (Hst x m' Hm') as [m [Hm [_ [Hobj _]]]].
    rewrite Hobj' in Hobj. symmetry in Hobj.
    destruct (resolve_dependencies_complete s x s' Hs Hstep m Hm Hobj)
      as [deps [-> [Hcov Hout]]].
    rewrite get_update, String.eqb_refl, Hm in Hm'. injection Hm' as <-.
    exists deps. split; [reflexivity |]. split; [| exact Hout].
    intros t Ht. apply covers_update. auto. }
  refine (forEach_establishes names_are_keys
            (fun k s =>
               forall m,
                 Obj.get k s = Some m ->
                 Model.modelIsObject m = true ->
                 exists deps,
                   Model.modelDependencies m = Some deps
                   /\ (forall t, In t (model_candidates m) ->
                         covers s (TString k) deps t)
                   /\ (k <> "null" -> k <> "undefined" ->
                       ~ In (ModelRef k) deps))
            resolve_dependencies ks _ Hest _ m2 models Hrun Hnames).
  - intros s x s' Hstep Hs k m' Hm'.
    destruct (resolve_dependencies_static _ _ _ Hstep) as [_ Hst].
    destruct (Hst k m' Hm') as [m [Hm [-> _]]]. exact (Hs k m Hm).
  - intros s x s' y Hstep Hs Hy.
    destruct (String.eqb_spec y x) as [-> | Hyx];
      [exact (Hest s x s' Hstep Hs) |].
    apply resolve_dependencies_shape in Hstep as [-> | [d ->]];
      [exact Hy |].
    intros m Hm Hobj. rewrite get_update in Hm.
    destruct (String.eqb_spec y x) as [| _]; [contradiction |].
    destruct (Hy m Hm Hobj) as [deps [Hd [Hcov Hout]]].
    exists deps. split; [exact Hd |]. split; [| exact Hout].
    intros t Ht. apply covers_update. auto.
Qed.

(** X14: The dependencies of a model leave nothing out: an object model
    of [processModels] has a list of dependencies which holds, for the
    name of its parent, the name of each of its subclasses and the type
    of each of its properties (for an inline object each type under
    [allTypes]), the model under that name without its brackets,
    whenever such a model exists and is not the model itself; and the
    model itself is not in the list, unless it is named [null] or
    [undefined]. *)
Theorem processModels_dependencies_complete (swagger : swagger_doc)
  (models : Obj.t Model.t) (k : string) (m : Model.t) :
  processModels swagger = Ok models ->
  Obj.get k models = Some m ->
  Model.modelIsObject m = true ->
  exists deps,
    Model.modelDependencies m = Some deps
    /\ (forall t name,
          In t (model_candidates m) ->
          removeBrackets t = Ok (TString name) ->
          name <> k ->
          Obj.has name models = true ->
          In (ModelRef name) deps)
    /\ (k <> "null" -> k <> "undefined" -> ~ In (ModelRef k) deps).
Proof.
  unfold processModels.
  match goal with
  | |- bind ?a _ = _ -> _ => destruct a as [m1 | |] eqn:H1
  end; try discriminate. cbn [bind].
  destruct (forEach link_hierarchy (Obj.keys m1) m1) as [m2 | |] eqn:H2;
    try discriminate. cbn [bind]. intros H3 Hm Hobj.
  destruct (second_loop_links _ _ _ H1 H2) as [_ [_ [_ Hp2]]].
  assert (Hnames : names_are_keys m2).
  { intros x mx Hx. now destruct (Hp2 x mx Hx) as [_ [_ [Hn _]]]. }
  destruct (loop_static _ _ resolve_dependencies_static _ _ H3) as [K3 _].
  assert (Hk : In k (Obj.keys m2)).
  { rewrite <- K3. apply has_In_keys. unfold Obj.has. now rewrite Hm. }
  destruct (third_loop_complete _ _ _ Hnames H3 k Hk m Hm Hobj)
    as [deps [Hd [Hcov Hout]]].
  exists deps. split; [exact Hd |]. split; [| exact Hout].
  intros t name Ht Hrb Hne Hhas. apply (Hcov t Ht name Hrb); [| exact Hhas].
  congruence.
Qed.

Lemma processModels_dependencies_complete_witness :
  processModels pet_hierarchy = Ok pet_models
  /\ exists m deps,
       Obj.get "Person" pet_models = Some m
       /\ Model.modelDependencies m = Some deps
       /\ In (ModelRef "Animal") deps.
Proof.
  split; [reflexivity |]. eexists.
  destruct (processModels_dependencies_complete pet_hierarchy pet_models
              "Person" _ eq_refl eq_refl eq_refl) as [deps [Hd [Hcov _]]].
  exists deps. split; [reflexivity |]. split; [exact Hd |].
  apply (Hcov (TString "Animal[]") "Animal");
    [simpl; auto | reflexivity | discriminate | reflexivity].
Defined.

(** ** The operations of the services *)

Section Operations.

Variable swagger : swagger_doc.
Variable models : Obj.t Model.t.

(** One operation of the document, once processed: it has one tag, and
    its descriptor is pushed on the service of that tag, which is made
    when it is not there yet. *)
Lemma process_operation_pushes (url method : string) (def : operationDef)
  (services : Obj.t Service.t) (tag0 : option string)
  (st' : services_state) :
  process_operation swagger models url (services, tag0) (method, Some def)
  = Ok st' ->
  exists tag op,
    tags def = Some [tag]
    /\ built_from swagger url method def op
    /\ st'
       = (update tag (Service.push_operation op)
            (if Obj.has tag services then services
             else Obj.set tag (Service.Build tag [] None) services),
          Some tag).
Proof.
  unfold process_operation.
  destruct (tags def) as [[| tag [| tag2 others]] |] eqn:Htags;
    cbn [default List.length Nat.eqb Nat.ltb Nat.leb hd];
    try discriminate.
  destruct (operationId def) as [id |] eqn:Hid; [| discriminate].
  destruct (parameters def) as [ps |] eqn:Hps; [| discriminate].
  fold (describe_parameters swagger ps).
  destruct (describe_parameters swagger ps) as [described | |] eqn:Hd;
    try discriminate.
  cbn [bind].
  destruct (result_model models (processResponses def))
    as [[resultType modelResult] | |] eqn:Hres; try discriminate.
  cbn [bind]. intros [= <-]. exists tag. eexists.
  split; [reflexivity |]. split; [| reflexivity].
  exists id, ps, described. cbn.
  repeat split; try assumption.
  unfold result_model in Hres.
  destruct (Obj.get "resultType" (processResponses def)) as [[t | c t] |];
    try discriminate.
  destruct (removeBrackets t); try discriminate.
  cbn [bind] in Hres. now injection Hres as <- _.
Qed.

(** What the services hold stems from the document. *)
Let from_document (st : services_state) : Prop :=
  forall k s,
    Obj.get k (fst st) = Some s ->
    Service.serviceName s = k
    /\ forall op, In op (Service.serviceOperations s) ->
         operation_declared swagger k op.

Lemma process_operation_from_document (url : string) (path : pathItem)
  (st st' : services_state) (entry : string * option operationDef) :
  In (url, path) (paths swagger) ->
  In entry path ->
  process_operation swagger models url st entry = Ok st' ->
  from_document st -> from_document st'.
Proof.
  intros Hpath Hentry. destruct entry as [method [def |]];
    destruct st as [services tag0];
    [| simpl; now intros [= <-]].
  intros Hrun Hst.
  apply process_operation_pushes in Hrun
    as [tag [op [Htags [Hbuilt ->]]]].
  assert (H1 : forall k s,
             Obj.get k (if Obj.has tag services then services
                        else Obj.set tag (Service.Build tag [] None)
                               services) = Some s ->
             Service.serviceName s = k
             /\ forall op, In op (Service.serviceOperations s) ->
                  operation_declared swagger k op).
  { intros k s. destruct (Obj.has tag services) eqn:Hhas.
    - exact (Hst k s).
    - rewrite get_set. destruct (String.eqb_spec k tag) as [-> | _];
        [| exact (Hst k s)].
      intros [= <-]. split; [reflexivity | intros op0 []]. }
  intros k s. cbn [fst]. rewrite get_update.
  destruct (String.eqb_spec k tag) as [-> | _]; [| apply H1].
  destruct (Obj.get tag (if Obj.has tag services then _ else _))
    as [s0 |] eqn:Hs0; [| discriminate].
  intros [= <-]. destruct (H1 tag s0 Hs0) as [Hname Hops].
  split; [exact Hname |].
  intros op0 Hop0. cbn in Hop0. apply in_app_iff in Hop0 as [Hop0 | [<- | []]];
    [now apply Hops |].
  now exists url, path, method, def.
Qed.

Lemma process_path_from_document (st st' : services_state)
  (entry : string * pathItem) :
  In entry (paths swagger) ->
  process_path swagger models st entry = Ok st' ->
  from_document st -> from_document st'.
Proof.
  unfold process_path. destruct entry as [url path]. intros Hpath.
  destruct (forEach (process_operation swagger models url) path st)
    as [[services tag] | |] eqn:Hops; try discriminate.
  cbn [bind]. intros Hrun Hst.
  assert (Hmid : from_document (services, tag)).
  { refine (forEach_invariant from_document _ _ _ st _ Hops Hst).
    intros s x s' Hx. now apply (process_operation_from_document url path). }
  destruct tag as [tag |]; [| discriminate].
  destruct (Obj.get tag services) as [descriptor |]; [| discriminate].
  destruct (forEach (add_operation_dependencies models)
              (Service.serviceOperations descriptor)
              (DependenciesResolver.new TUndefined))
    as [deps | |]; try discriminate.
  cbn [bind] in Hrun. injection Hrun as <-.
  intros k s. cbn [fst]. rewrite get_update.
  destruct (String.eqb_spec k tag) as [-> | _]; [| apply Hmid].
  destruct (Obj.get tag services) as [s0 |] eqn:Hs0; [| discriminate].
  intros [= <-]. exact (Hmid tag s0 Hs0).
Qed.

Lemma processServices_from_document (services : Obj.t Service.t) :
  processServices swagger models = Ok services ->
  forall k s,
    Obj.get k services = Some s ->
    Service.serviceName s = k
    /\ forall op, In op (Service.serviceOperations s) ->
         operation_declared swagger k op.
Proof.
  unfold processServices.
  destruct (forEach (process_path swagger models) (paths swagger)
              ([], None)) as [st | |] eqn:Hrun; try discriminate.
  cbn [bind]. intros [= <-].
  refine (forEach_invariant from_document _ _ _ _ st Hrun _).
  - intros s x s' Hx. now apply process_path_from_document.
  - intros k s. discriminate.
Qed.

(** *** Nothing is lost *)

Lemma services_grow_refl (a : Obj.t Service.t) : services_grow a a.
Proof. intros tag s Hs. exists s. split; [exact Hs | apply incl_refl]. Qed.

Lemma services_grow_trans (a b c : Obj.t Service.t) :
  services_grow a b -> services_grow b c -> services_grow a c.
Proof.
  intros Hab Hbc tag s Hs. destruct (Hab tag s Hs) as [s1 [Hs1 Hi1]].
  destruct (Hbc tag s1 Hs1) as [s2 [Hs2 Hi2]].
  exists s2. split; [exact Hs2 | eauto using incl_tran].
Qed.

Lemma services_grow_update (tag : string) (f : Service.t -> Service.t)
  (a : Obj.t Service.t) :
  (forall s, incl (Service.serviceOperations s)
               (Service.serviceOperations (f s))) ->
  services_grow a (update tag f a).
Proof.
  intros Hf k s Hs. rewrite get_update.
  destruct (String.eqb_spec k tag) as [-> | _].
  - rewrite Hs. exists (f s). split; [reflexivity | apply Hf].
  - exists s. split; [exact Hs | apply incl_refl].
Qed.

Lemma services_grow_new (tag : string) (a : Obj.t Service.t) :
  services_grow a
    (if Obj.has tag a then a
     else Obj.set tag (Service.Build tag [] None) a).
Proof.
  destruct (Obj.has tag a) eqn:Hhas; [apply services_grow_refl |].
  intros k s Hs. rewrite get_set.
  destruct (String.eqb_spec k tag) as [-> | _].
  - unfold Obj.has in Hhas. now rewrite Hs in Hhas.
  - exists s. split; [exact Hs | apply incl_refl].
Qed.

Lemma process_operation_grows (url : string) (st st' : services_state)
  (entry : string * option operationDef) :
  process_operation swagger models url st entry = Ok st' ->
  services_grow (fst st) (fst st').
Proof.
  destruct entry as [method [def |]]; destruct st as [services tag0];
    [| simpl; intros [= <-]; apply services_grow_refl].
  intros Hrun.
  apply process_operation_pushes in Hrun as [tag [op [_ [_ ->]]]].
  cbn [fst]. eapply services_grow_trans; [apply services_grow_new |].
  apply services_grow_update. intros s. cbn. apply incl_appl, incl_refl.
Qed.

Lemma process_operation_holds (url method : string) (def : operationDef)
  (st st' : services_state) :
  process_operation swagger models url st (method, Some def) = Ok st' ->
  operation_held swagger url method def (fst st').
Proof.
  destruct st as [services tag0]. intros Hrun.
  apply process_operation_pushes in Hrun as [tag [op [Htags [Hbuilt ->]]]].
  cbn [fst].
  assert (Hhas : exists s0,
             Obj.get tag (if Obj.has tag services then services
                          else Obj.set tag (Service.Build tag [] None)
                                 services) = Some s0).
  { destruct (Obj.has tag services) eqn:Hhas.
    - unfold Obj.has in Hhas. destruct (Obj.get tag services); eauto.
      discriminate.
    - rewrite get_set_same. eauto. }
  destruct Hhas as [s0 Hs0].
  exists tag, (Service.push_operation op s0), op.
  split; [exact Htags |]. split.
  - now rewrite get_update, String.eqb_refl, Hs0.
  - split; [| exact Hbuilt]. cbn. apply in_or_app. right. now left.
Qed.

Lemma operation_held_grow (url method : string) (def : operationDef)
  (a b : Obj.t Service.t) :
  services_grow a b ->
  operation_held swagger url method def a ->
  operation_held swagger url method def b.
Proof.
  intros Hgrow [tag [s [op [Htags [Hs [Hop Hbuilt]]]]]].
  destruct (Hgrow tag s Hs) as [s' [Hs' Hincl]].
  exists tag, s', op. auto.
Qed.

Lemma process_path_grows (st st' : services_state)
  (entry : string * pathItem) :
  process_path swagger models st entry = Ok st' ->
  services_grow (fst st) (fst st')
  /\ forall method def,
       In (method, Some def) (snd entry) ->
       operation_held swagger (fst entry) method def (fst st').
Proof.
  unfold process_path. destruct entry as [url path].
  destruct (forEach (process_operation swagger models url) path st)
    as [[services tag] | |] eqn:Hops; try discriminate.
  cbn [bind fst snd]. intros Hrun.
  assert (Hgrow : services_grow (fst st) services).
  { refine (forEach_invariant
              (fun s : services_state => services_grow (fst st) (fst s))
              _ _ _ st (services, tag) Hops (services_grow_refl _)).
    intros s x s' _ Hx Hs.
    eapply services_grow_trans; [exact Hs |].
    exact (process_operation_grows _ _ _ _ Hx). }
  assert (Hheld : forall entry, In entry path ->
            forall method def, entry = (method, Some def) ->
              operation_held swagger url method def services).
  { refine (forEach_establishes (fun _ => True)
              (fun (entry : string * option operationDef)
                   (s : services_state) =>
                 forall method def, entry = (method, Some def) ->
                   operation_held swagger url method def (fst s))
              (process_operation swagger models url) path _ _ _
              st (services, tag) Hops I); [auto | |].
    - intros s x s' Hx _ method def ->.
      exact (process_operation_holds _ _ _ _ _ Hx).
    - intros s x s' y Hx _ Hy method def ->.
      eapply operation_held_grow;
        [exact (process_operation_grows _ _ _ _ Hx) | now apply Hy]. }
  destruct tag as [tag |]; [| discriminate].
  destruct (Obj.get tag services) as [descriptor |]; [| discriminate].
  destruct (forEach (add_operation_dependencies models)
              (Service.serviceOperations descriptor)
              (DependenciesResolver.new TUndefined))
    as [deps | |]; try discriminate.
  cbn [bind] in Hrun. injection Hrun as <-. cbn [fst].
  assert (Hlast : services_grow services
                    (update tag
                       (Service.set_dependencies
                          (DependenciesResolver.get deps)) services)).
  { apply services_grow_update. intros s. apply incl_refl. }
  split; [eauto using services_grow_trans |].
  intros method def Hin.
  eapply operation_held_grow; [exact Hlast |].
  exact (Hheld _ Hin method def eq_refl).
Qed.

Lemma processServices_holds (services : Obj.t Service.t) :
  processServices swagger models = Ok services ->
  forall url path method def,
    In (url, path) (paths swagger) ->
    In (method, Some def) path ->
    operation_held swagger url method def services.
Proof.
  unfold processServices.
  destruct (forEach (process_path swagger models) (paths swagger)
              ([], None)) as [st | |] eqn:Hrun; try discriminate.
  cbn [bind]. intros [= <-] url path method def Hpath Hdef.
  refine (forEach_establishes (fun _ => True)
            (fun (entry : string * pathItem) (s : services_state) =>
               forall method def,
                 In (method, Some def) (snd entry) ->
                 operation_held swagger (fst entry) method def (fst s))
            (process_path swagger models) (paths swagger) _ _ _
            ([], None) st Hrun I (url, path) Hpath method def Hdef);
    [auto | |].
  - intros s x s' Hx _. exact (proj2 (process_path_grows _ _ _ Hx)).
  - intros s x s' y Hx _ Hy method0 def0 Hin.
    eapply operation_held_grow;
      [exact (proj1 (process_path_grows _ _ _ Hx)) | now apply Hy].
Qed.

End Operations.

(** X15: what a service holds stems from the document.  In the services
    that [processServices] returns, the service under a tag has that tag
    as its name, and each of its operations was made of an operation
    that some path of the document declares with that single tag: it has
    the declared id as its name, the method in lower case, the path and
    its path expression, the described parameters in their final order
    and the processed responses. *)
Theorem processServices_operations_declared (swagger : swagger_doc)
  (models : Obj.t Model.t) (services : Obj.t Service.t) (tag : string)
  (s : Service.t) :
  processServices swagger models = Ok services ->
  Obj.get tag services = Some s ->
  Service.serviceName s = tag
  /\ forall op, In op (Service.serviceOperations s) ->
       operation_declared swagger tag op.
Proof.
  intros Hrun. exact (processServices_from_document _ _ _ Hrun tag s).
Qed.

Lemma processServices_operations_declared_witness :
  processServices pet_hierarchy pet_models = Ok pet_services
  /\ exists s,
       Obj.get "Zoo" pet_services = Some s
       /\ Service.serviceName s = "Zoo".
Proof.
  split; [reflexivity |]. eexists. split; [reflexivity |].
  exact (proj1 (processServices_operations_declared pet_hierarchy
                  pet_models pet_services "Zoo" _ eq_refl eq_refl)).
Defined.

(** X16: no operation is lost.  When [processServices] returns, every
    operation that a path of the document declares (a [null] one apart)
    has exactly one tag, an id and a list of parameters, and the service
    under its tag holds the descriptor made of it. *)
Theorem processServices_keeps_every_operation (swagger : swagger_doc)
  (models : Obj.t Model.t) (services : Obj.t Service.t)
  (url : string) (path : pathItem) (method : string)
  (def : operationDef) :
  processServices swagger models = Ok services ->
  In (url, path) (paths swagger) ->
  In (method, Some def) path ->
  exists tag s op,
    tags def = Some [tag]
    /\ Obj.get tag services = Some s
    /\ In op (Service.serviceOperations s)
    /\ built_from swagger url method def op.
Proof.
  intros Hrun Hpath Hdef.
  exact (processServices_holds _ _ _ Hrun url path method def Hpath Hdef).
Qed.

Lemma processServices_keeps_every_operation_witness :
  processServices pet_hierarchy pet_models = Ok pet_services
  /\ exists tag s op,
       Obj.get tag pet_services = Some s
       /\ In op (Service.serviceOperations s)
       /\ Operation.operationPath op = "/people/{id}".
Proof.
  split; [reflexivity |].
  destruct (processServices_keeps_every_operation pet_hierarchy
              pet_models pet_services "/people/{id}" _ "get" _ eq_refl
              (or_intror (or_introl eq_refl)) (or_introl eq_refl))
    as [tag [s [op [_ [Hs [Hop Hbuilt]]]]]].
  exists tag, s, op. split; [exact Hs |]. split; [exact Hop |].
  destruct Hbuilt as [id [ps [d [_ [_ [_ [_ [_ [Hpath _]]]]]]]]].
  exact Hpath.
Defined.

(** ** The parameters of an operation *)

Lemma describe_parameter_flags (swagger : swagger_doc) (param : parameter)
  (d : Param.t) :
  describe_parameter swagger param = Ok d ->
  parameter_flags d.
Proof.
  unfold describe_parameter.
  match goal with
  | |- bind ?a _ = _ -> _ => destruct a as [p | |]
  end; try discriminate.
  cbn [bind]. intros [= <-]. unfold parameter_flags. cbn.
  repeat split; try apply String.eqb_eq.
  intros ->. apply orb_true_r.
Qed.

Lemma describe_parameters_flags (swagger : swagger_doc)
  (ps : list parameter) (described : list Param.t) :
  describe_parameters swagger ps = Ok described ->
  Forall parameter_flags described.
Proof.
  unfold describe_parameters. intros Hrun.
  refine (forEach_invariant (Forall parameter_flags) _ ps _ [] described
            Hrun (Forall_nil _)).
  intros acc param acc' _ Hstep Hacc.
  destruct (describe_parameter swagger param) as [d | |] eqn:Hd;
    try discriminate.
  cbn [bind] in Hstep. injection Hstep as <-.
  apply Forall_app. split; [exact Hacc |].
  constructor; [| constructor].
  exact (describe_parameter_flags _ _ _ Hd).
Qed.

Lemma order_parameters_flags (described : list Param.t) :
  Forall parameter_flags described ->
  Forall parameter_flags (order_parameters described).
Proof.
  intros H. unfold order_parameters. apply update_last_Forall.
  - intros p Hp. exact Hp.
  - eapply Permutation_Forall; [| exact H].
    symmetry. apply array_sort_Permutation.
Qed.

(** X17: a parameter in the path is required, and the flags of a
    parameter follow where it is.  For every parameter of every operation
    of the services that [processServices] returns, after the sort and
    the flag of the last one: [paramIsPath] implies [paramRequired], and
    each of [paramIsQuery], [paramIsPath], [paramIsHeader] and
    [paramIsBody] is set exactly when [paramIn] is the matching text, so
    that no two of them are set together. *)
Theorem processServices_parameter_flags (swagger : swagger_doc)
  (models : Obj.t Model.t) (services : Obj.t Service.t) (tag : string)
  (s : Service.t) (op : Operation.t) (p : Param.t) :
  processServices swagger models = Ok services ->
  Obj.get tag services = Some s ->
  In op (Service.serviceOperations s) ->
  In p (Operation.operationParameters op) ->
  (Param.paramIsPath p = true -> Param.paramRequired p = true)
  /\ (Param.paramIsQuery p = true <-> Param.paramIn p = "query")
  /\ (Param.paramIsPath p = true <-> Param.paramIn p = "path")
  /\ (Param.paramIsHeader p = true <-> Param.paramIn p = "header")
  /\ (Param.paramIsBody p = true <-> Param.paramIn p = "body").
Proof.
  intros Hrun Hs Hop Hp.
  destruct (processServices_from_document _ _ _ Hrun tag s Hs) as [_ Hops].
  destruct (Hops op Hop)
    as [url [path [method [def [_ [_ [_ Hbuilt]]]]]]].
  destruct Hbuilt
    as [id [ps [described [_ [_ [Hd [_ [_ [_ [_ [Hpar _]]]]]]]]]]].
  pose proof (order_parameters_flags _ (describe_parameters_flags _ _ _ Hd))
    as Hall.
  rewrite <- Hpar in Hall. rewrite Forall_forall in Hall.
  exact (Hall p Hp).
Qed.

Lemma processServices_parameter_flags_witness :
  processServices pet_hierarchy pet_models = Ok pet_services
  /\ exists s op p,
       Obj.get "People" pet_services = Some s
       /\ In op (Service.serviceOperations s)
       /\ In p (Operation.operationParameters op)
       /\ Param.paramIn p = "path"
       /\ Param.paramRequired p = true.
Proof.
  split; [reflexivity |]. eexists. eexists. eexists.
  split; [reflexivity |].
  split; [left; reflexivity |]. split; [left; reflexivity |].
  split; [reflexivity |].
  apply (processServices_parameter_flags pet_hierarchy pet_models
           pet_services "People" _ _ _
           eq_refl eq_refl (or_introl eq_refl) (or_introl eq_refl)).
  reflexivity.
Defined.

(** ** The responses of an operation *)

Lemma In_get_unique {V : Type} (o : Obj.t V) (k : string) (v : V) :
  NoDup (Obj.keys o) -> In (k, v) o -> Obj.get k o = Some v.
Proof.
  unfold Obj.keys. induction o as [| [k0 v0] o IH]; simpl; [tauto |].
  intros Hnd. inversion Hnd as [| ? ? Hnotin Hnd']; subst.
  intros [[= -> ->] | Hin].
  - now rewrite String.eqb_refl.
  - destruct (String.eqb_spec k k0) as [-> | _]; [| auto].
    elim Hnotin. apply in_map_iff. now exists (k0, v).
Qed.





(** ** The models that a service needs *)

Section Reachable.

Variable models : Obj.t Model.t.
Hypothesis names : names_are_keys models.

Lemma closed_at_incl (S S' : list string) (n : string) :
  incl S S' -> closed_at models S n -> closed_at models S' n.
Proof.
  intros Hincl H m deps e m' Hm Hdeps He Hm'. apply Hincl. eauto.
Qed.

Lemma collect_none (fuel : nat) (edges : list model_ref) :
  fold_left
    (fun acc dep =>
       match acc with
       | Some d => collectDependencies fuel models d dep
       | None => None
       end)
    edges None
  = None.
Proof. induction edges as [| e edges IH]; [reflexivity | exact IH]. Qed.

(** What a call of [collectDependencies] that returns has collected. *)
Let collected (deps : list string) (from : list model_ref)
  (result : list string) : Prop :=
  incl deps result
  /\ (forall r m, In r from ->
        Obj.get (ref_key r) models = Some m ->
        In (Model.modelName m) result)
  /\ (forall n, In n result -> In n deps \/ closed_at models result n)
  /\ (forall n, In n result ->
        In n deps \/ exists r, In r from /\ reaches models r n).

Lemma collected_edges (fuel : nat) :
  (forall deps r result,
      collectDependencies fuel models deps r = Some result ->
      collected deps [r] result) ->
  forall edges deps result,
    fold_left
      (fun acc dep =>
         match acc with
         | Some d => collectDependencies fuel models d dep
         | None => None
         end)
      edges (Some deps)
    = Some result ->
    collected deps edges result.
Proof.
  intros Hcall edges. induction edges as [| e edges IH];
    intros deps result Hrun.
  - injection Hrun as <-. repeat split; auto using incl_refl.
    intros r m [].
  - cbn [fold_left] in Hrun.
    destruct (collectDependencies fuel models deps e) as [d1 |] eqn:He;
      [| now rewrite collect_none in Hrun].
    destruct (Hcall _ _ _ He) as [Hi1 [Hm1 [Hc1 Hr1]]].
    destruct (IH _ _ Hrun) as [Hi2 [Hm2 [Hc2 Hr2]]].
    repeat split.
    + eauto using incl_tran.
    + intros r m [<- | Hr] Hget.
      * apply Hi2. apply (Hm1 e m); [now left | exact Hget].
      * eauto.
    + intros n Hn. destruct (Hc2 n Hn) as [Hd1 | Hclosed]; [| now right].
      destruct (Hc1 n Hd1) as [Hd | Hclosed]; [now left | right].
      eauto using closed_at_incl.
    + intros n Hn. destruct (Hr2 n Hn) as [Hd1 | [r [Hr Hreach]]].
      * destruct (Hr1 n Hd1) as [Hd | [r [[<- | []] Hreach]]];
          [now left | right].
        exists e. split; [now left | exact Hreach].
      * right. exists r. split; [now right | exact Hreach].
Qed.

Lemma collectDependencies_collected (fuel : nat) :
  forall deps r result,
    collectDependencies fuel models deps r = Some result ->
    collected deps [r] result.
Proof.
  induction fuel as [| fuel IH]; intros deps r result; [discriminate |].
  cbn [collectDependencies].
  destruct (Obj.get (ref_key r) models) as [m |] eqn:Hget.
  2: { intros [= <-]. repeat split; auto using incl_refl.
       intros r0 m [<- | []]. congruence. }
  destruct (existsb (String.eqb (Model.modelName m)) deps) eqn:Hseen.
  { intros [= <-]. repeat split; auto using incl_refl.
    intros r0 m0 [<- | []] Hm0.
    assert (m0 = m) as -> by congruence. now apply existsb_eqb_In. }
  assert (Hkey : Obj.get (Model.modelName m) models = Some m).
  { now rewrite (names _ _ Hget). }
  destruct (Model.modelDependencies m) as [edges |] eqn:Hedges.
  - intros Hrun.
    destruct (collected_edges fuel IH _ _ _ Hrun) as [Hi [Hm [Hc Hr]]].
    repeat split.
    + eapply incl_tran; [| exact Hi]. now apply incl_appl.
    + intros r0 m0 [<- | []] Hm0. assert (m0 = m) as -> by congruence.
      apply Hi. apply in_or_app. right. now left.
    + intros n Hn. destruct (Hc n Hn) as [Hd | Hclosed]; [| now right].
      apply in_app_or in Hd as [Hd | [<- | []]]; [now left | right].
      intros m0 deps0 e m' Hm0 Hdeps0 He Hm'.
      assert (m0 = m) as -> by congruence.
      assert (deps0 = edges) as -> by congruence.
      exact (Hm e m' He Hm').
    + intros n Hn. destruct (Hr n Hn) as [Hd | [e [He Hreach]]].
      * apply in_app_or in Hd as [Hd | [<- | []]]; [now left | right].
        exists r. split; [now left | now apply reaches_here].
      * right. exists r. split; [now left |].
        now apply (reaches_edge models r e m edges n).
  - intros [= <-]. repeat split.
    + now apply incl_appl.
    + intros r0 m0 [<- | []] Hm0. assert (m0 = m) as -> by congruence.
      apply in_or_app. right. now left.
    + intros n Hn. apply in_app_or in Hn as [Hd | [<- | []]];
        [now left | right].
      intros m0 deps0 e m' Hm0 Hdeps0. congruence.
    + intros n Hn. apply in_app_or in Hn as [Hd | [<- | []]];
        [now left | right].
      exists r. split; [now left | now apply reaches_here].
Qed.

(** A set that is closed at each of its names holds whatever can be
    reached from a model whose name it holds. *)
Lemma closed_reaches (S : list string) (r : model_ref) (n : string) :
  (forall k, In k S -> closed_at models S k) ->
  reaches models r n ->
  (forall m, Obj.get (ref_key r) models = Some m ->
             In (Model.modelName m) S) ->
  In n S.
Proof.
  intros Hclosed Hreach.
  induction Hreach as [r m Hm | r e m deps n Hm Hdeps He Hreach IH];
    intros Hstart; [exact (Hstart m Hm) |].
  apply IH. intros m' Hm'.
  apply (Hclosed (Model.modelName m) (Hstart m Hm) m deps e m');
    try assumption.
  now rewrite (names _ _ Hm).
Qed.

(** The models collected from the models that the services use: the
    names that can be reached from one of them. *)
Lemma collect_used_reaches (used : list model_ref) (all : list string) :
  fold_left
    (fun acc dep =>
       match acc with
       | Some d =>
           collectDependencies (S (List.length models)) models d dep
       | None => None
       end)
    used (Some [])
  = Some all ->
  forall n, In n all <-> exists r, In r used /\ reaches models r n.
Proof.
  intros Hrun.
  destruct (collected_edges _
              (collectDependencies_collected _) used [] all Hrun)
    as [_ [Hm [Hc Hr]]].
  intros n. split.
  - intros Hn. destruct (Hr n Hn) as [[] | H]. exact H.
  - intros [r [Hr' Hreach]].
    apply (closed_reaches all r n); [| exact Hreach | eauto].
    intros k Hk. destruct (Hc k Hk) as [[] | H]. exact H.
Qed.

End Reachable.

Lemma names_are_keys_Forall (models : Obj.t Model.t) :
  Forall (fun e => Model.modelName (snd e) = fst e) models ->
  names_are_keys models.
Proof.
  intros H k m Hm. apply get_In in Hm. rewrite Forall_forall in H.
  exact (H (k, m) Hm).
Qed.

(** X19: What [collectDependencies] collects.  When every model is kept
    under its own name, a call that returns gives back the names it was
    given, and with them exactly names that can be reached from the
    model along the lists of dependencies, that of the model included;
    and each name that it has added has all its dependencies in the
    set, so that, starting from the empty set, the result is the set of
    the names that can be reached from the model. *)
Theorem collectDependencies_reachable (models : Obj.t Model.t)
  (fuel : nat) (dependencies : list string) (model : model_ref)
  (result : list string) :
  names_are_keys models ->
  collectDependencies fuel models dependencies model = Some result ->
  incl dependencies result
  /\ (forall n, In n result ->
        In n dependencies \/ reaches models model n)
  /\ (forall n, In n result ->
        In n dependencies \/ closed_at models result n)
  /\ (dependencies = [] ->
      forall n, In n result <-> reaches models model n).
Proof.
  intros Hnames Hrun.
  destruct (collectDependencies_collected models Hnames fuel _ _ _ Hrun)
    as [Hi [Hm [Hc Hr]]].
  split; [exact Hi |]. split; [| split; [exact Hc |]].
  - intros n Hn. destruct (Hr n Hn) as [Hd | [r [[<- | []] Hreach]]]; auto.
  - intros -> n. split.
    + intros Hn. destruct (Hr n Hn) as [[] | [r [[<- | []] Hreach]]].
      exact Hreach.
    + intros Hreach.
      apply (closed_reaches models Hnames result model n);
        [| exact Hreach |].
      * intros k Hk. destruct (Hc k Hk) as [[] | H]. exact H.
      * intros m. apply Hm. now left.
Qed.

Lemma collectDependencies_reachable_witness :
  collectDependencies 4 cyclic_models ["B"] (ModelRef "A")
  = Some ["B"; "A"]
  /\ (forall n, In n ["B"; "A"] ->
        In n ["B"] \/ reaches cyclic_models (ModelRef "A") n).
Proof.
  split; [reflexivity |].
  apply (collectDependencies_reachable cyclic_models 4 ["B"]
           (ModelRef "A") ["B"; "A"]).
  - apply names_are_keys_Forall. repeat constructor.
  - reflexivity.
Defined.

(** ** The models that the tag filter keeps *)

Lemma ref_eqb_eq (a b : model_ref) : ref_eqb a b = true <-> a = b.
Proof.
  destruct a as [a], b as [b]. unfold ref_eqb. simpl.
  rewrite String.eqb_eq. split; congruence.
Qed.

Lemma set_add_In (x y : model_ref) (s : list model_ref) :
  In x (set_add ref_eqb y s) <-> In x s \/ x = y.
Proof.
  unfold set_add. destruct (existsb (ref_eqb y) s) eqn:Hmem.
  - apply existsb_exists in Hmem as [z [Hz Heq]].
    apply ref_eqb_eq in Heq. subst z. split; [auto |].
    intros [H | ->]; assumption.
  - rewrite in_app_iff. simpl. intuition.
Qed.

Lemma set_add_all_In (x : model_ref) (deps used : list model_ref) :
  In x (fold_left (fun used dep => set_add ref_eqb dep used) deps used)
  <-> In x used \/ In x deps.
Proof.
  revert used. induction deps as [| d deps IH]; intros used; simpl.
  - tauto.
  - rewrite IH, set_add_In. intuition.
Qed.

Lemma get_filter_key {V : Type} (p : string -> bool) (o : Obj.t V)
  (k : string) :
  Obj.get k (filter (fun '(k', _) => p k') o)
  = if p k then Obj.get k o else None.
Proof.
  induction o as [| [k0 v0] o IH]; simpl; [now destruct (p k) |].
  destruct (p k0) eqn:Hk0; simpl.
  - destruct (String.eqb_spec k k0) as [-> | _]; [now rewrite Hk0 |].
    exact IH.
  - destruct (String.eqb_spec k k0) as [-> | _]; [| exact IH].
    rewrite Hk0 in IH. now rewrite Hk0.
Qed.

Section UsedModels.

Variable includeTags : option (list string).

(** The first loop, when unused models are to be removed: every service
    that is retained has its dependencies, and the models used are
    theirs. *)
Lemma filter_service_used (l : Obj.t Service.t) :
  forall acc used acc' used',
    forEach (filter_service includeTags true) l (acc, used)
    = Ok (acc', used') ->
    (forall name s, In (name, s) l -> included includeTags name = true ->
                    Service.serviceDependencies s <> None)
    /\ forall r,
         In r used'
         <-> In r used
             \/ exists name s deps,
                  In (name, s) l
                  /\ included includeTags name = true
                  /\ Service.serviceDependencies s = Some deps
                  /\ In r deps.
Proof.
  induction l as [| [k s] l IH]; intros acc used acc' used' Hrun.
  - injection Hrun as <- <-. split; [intros name s [] |].
    intros r. split; [auto |].
    intros [H | [name [s [deps [[] _]]]]]. exact H.
  - rewrite forEach_cons, filter_service_step in Hrun.
    fold (included includeTags k) in Hrun.
    destruct (included includeTags k) eqn:Hk; cbn [negb] in Hrun.
    + destruct (Service.serviceDependencies s) as [deps |] eqn:Hs;
        [| discriminate].
      cbn [bind] in Hrun. destruct (IH _ _ _ _ Hrun) as [Hdeps Hused].
      split.
      * intros name s0 [[= <- <-] | Hin] Hinc; [congruence | eauto].
      * intros r. rewrite Hused, set_add_all_In. split.
        -- intros [[H | H] | [name [s0 [deps0 [Hin H]]]]].
           ++ now left.
           ++ right. exists k, s, deps. auto using in_eq.
           ++ right. exists name, s0, deps0. split; [now right | exact H].
        -- intros [Hu | [name [s0 [deps0 [Hin [Hinc [Hd Hr]]]]]]];
             [auto |].
           destruct Hin as [Heq | Hin].
           ++ injection Heq as <- <-. left. right. congruence.
           ++ right. exists name, s0, deps0. auto.
    + cbn [bind] in Hrun. destruct (IH _ _ _ _ Hrun) as [Hdeps Hused].
      split.
      * intros name s0 [[= <- <-] | Hin] Hinc; [congruence | eauto].
      * intros r. rewrite Hused. split.
        -- intros [H | [name [s0 [deps0 [Hin H]]]]]; [now left |].
           right. exists name, s0, deps0. split; [now right | exact H].
        -- intros [Hu | [name [s0 [deps0 [Hin [Hinc Hrest]]]]]];
             [now left |].
           destruct Hin as [Heq | Hin].
           ++ injection Heq as <- <-. congruence.
           ++ right. exists name, s0, deps0. auto.
Qed.

(** A retained service without dependencies stops the first loop. *)
Lemma filter_service_throws (l : Obj.t Service.t) (name : string)
  (s : Service.t) :
  In (name, s) l ->
  included includeTags name = true ->
  Service.serviceDependencies s = None ->
  forall st,
    forEach (filter_service includeTags true) l st
    = Throw (TypeError
        "Cannot read properties of undefined (reading 'forEach')").
Proof.
  intros Hin Hinc Hnone. induction l as [| [k s0] l IH]; [elim Hin |].
  intros [acc used]. rewrite forEach_cons, filter_service_step.
  fold (included includeTags k).
  destruct Hin as [[= -> ->] | Hin].
  - now rewrite Hinc, Hnone.
  - destruct (included includeTags k); cbn [negb].
    + destruct (Service.serviceDependencies s0); [| reflexivity].
      cbn [bind]. now apply IH.
    + cbn [bind]. now apply IH.
Qed.

End UsedModels.

Section ReachesFacts.

Variable models : Obj.t Model.t.
Hypothesis names : names_are_keys models.

(** One edge more at the end of a path. *)
Lemma reaches_step (r e : model_ref) (k n : string) (m : Model.t)
  (deps : list model_ref) :
  reaches models r k ->
  Obj.get k models = Some m ->
  Model.modelDependencies m = Some deps ->
  In e deps ->
  reaches models e n ->
  reaches models r n.
Proof.
  intros Hreach Hm Hdeps He Hen.
  induction Hreach as [r m0 Hm0 | r e0 m0 deps0 k Hm0 Hdeps0 He0 Hreach IH].
  - rewrite (names _ _ Hm0) in Hm.
    assert (m0 = m) as -> by congruence.
    now apply (reaches_edge models r e m deps n).
  - apply (reaches_edge models r e0 m0 deps0 n); auto.
Qed.

(** What can be reached is a model. *)
Lemma reaches_model (r : model_ref) (n : string) :
  reaches models r n -> exists m, Obj.get n models = Some m.
Proof.
  induction 1 as [r m Hm | r e m deps n Hm Hdeps He Hreach IH];
    [| exact IH].
  exists m. now rewrite (names _ _ Hm).
Qed.

End ReachesFacts.

(** The models that [applyTagFilter] leaves when it removes the unused
    ones. *)
Lemma applyTagFilter_models (models : Obj.t Model.t)
  (services : Obj.t Service.t) (includeTags : option (list string))
  (models' : Obj.t Model.t) (services' : Obj.t Service.t) :
  names_are_keys models ->
  applyTagFilter models services includeTags true
  = Ok (models', services') ->
  services' = filter (fun e => included includeTags (fst e)) services
  /\ forall k m,
       Obj.get k models' = Some m
       <-> Obj.get k models = Some m
           /\ exists name s deps r,
                In (name, s) services'
                /\ Service.serviceDependencies s = Some deps
                /\ In r deps
                /\ reaches models r k.
Proof.
  intros Hnames Hrun. pose proof Hrun as Hrun0.
  unfold applyTagFilter in Hrun.
  destruct (forEach (filter_service includeTags true) services
              (services, [])) as [[services1 used] | |] eqn:Hloop;
    try discriminate.
  cbn [bind] in Hrun.
  destruct (filter_service_used includeTags _ _ _ _ _ Hloop)
    as [Hdeps Hused].
  destruct (applyTagFilter_services includeTags true models services
              (fun _ => Hdeps)) as [models'' Hall].
  assert (Hs : services'
               = filter (fun e => included includeTags (fst e)) services).
  { rewrite Hall in Hrun0. now injection Hrun0 as _ <-. }
  split; [exact Hs |].
  destruct (fold_left _ used (Some [])) as [all |] eqn:Hcollect;
    [| discriminate].
  injection Hrun as <- _.
  pose proof (collect_used_reaches models Hnames used all Hcollect) as Hreach.
  intros k m.
  rewrite (get_filter_key (fun k' => existsb (String.eqb k') all) models k).
  assert (Hin : existsb (String.eqb k) all = true
                <-> exists name s deps r,
                      In (name, s) services'
                      /\ Service.serviceDependencies s = Some deps
                      /\ In r deps
                      /\ reaches models r k).
  { rewrite existsb_eqb_In, Hreach. split.
    - intros [r [Hr Hk]]. apply Hused in Hr as [[] | H].
      destruct H as [name [s [deps [Hin [Hinc [Hd Hr]]]]]].
      exists name, s, deps, r. repeat split; auto.
      rewrite Hs. apply filter_In. auto.
    - intros [name [s [deps [r [Hin [Hd [Hr Hk]]]]]]].
      exists r. split; [| exact Hk]. apply Hused. right.
      rewrite Hs in Hin. apply filter_In in Hin as [Hin Hinc].
      exists name, s, deps. auto. }
  destruct (existsb (String.eqb k) all).
  - split; [intros H; split; [exact H | now apply Hin] | tauto].
  - split; [discriminate |]. intros [_ H]. apply Hin in H. discriminate.
Qed.

(** X20: The tag filter keeps the models that a retained service needs,
    and no other.  When every model is kept under its own name and
    unused models are to be removed, a model stays exactly when its name
    can be reached, along the lists of dependencies, from a dependency
    of a service that is retained; so every model that such a service
    depends on stays, and every model that a model that stays depends on
    stays with it. *)
Theorem applyTagFilter_keeps_reachable_models (models : Obj.t Model.t)
  (services : Obj.t Service.t) (includeTags : option (list string))
  (models' : Obj.t Model.t) (services' : Obj.t Service.t) :
  names_are_keys models ->
  applyTagFilter models services includeTags true
  = Ok (models', services') ->
  (forall k m,
      Obj.get k models' = Some m
      <-> Obj.get k models = Some m
          /\ exists name s deps r,
               In (name, s) services'
               /\ Service.serviceDependencies s = Some deps
               /\ In r deps
               /\ reaches models r k)
  /\ (forall name s deps r m,
        In (name, s) services' ->
        Service.serviceDependencies s = Some deps ->
        In r deps ->
        Obj.get (ref_key r) models = Some m ->
        Obj.get (ref_key r) models' = Some m)
  /\ (forall k m deps e m',
        Obj.get k models' = Some m ->
        Model.modelDependencies m = Some deps ->
        In e deps ->
        Obj.get (ref_key e) models = Some m' ->
        Obj.get (ref_key e) models' = Some m').
Proof.
  intros Hnames Hrun.
  destruct (applyTagFilter_models _ _ _ _ _ Hnames Hrun) as [_ Hkept].
  split; [exact Hkept |]. split.
  - intros name s deps r m Hin Hd Hr Hm. apply Hkept.
    split; [exact Hm |]. exists name, s, deps, r.
    repeat split; auto. rewrite <- (Hnames _ _ Hm).
    now apply reaches_here.
  - intros k m deps e m' Hk Hd He Hm'.
    apply Hkept in Hk as [Hk [name [s [sdeps [r [Hin [Hsd [Hr Hreach]]]]]]]].
    apply Hkept. split; [exact Hm' |].
    exists name, s, sdeps, r. repeat split; auto.
    apply (reaches_step models Hnames r e k (ref_key e) m deps);
      auto.
    rewrite <- (Hnames _ _ Hm'). now apply reaches_here.
Qed.

Lemma applyTagFilter_keeps_reachable_models_witness :
  applyTagFilter pet_models pet_services (Some ["People"]) true
  = Ok pet_kept
  /\ forall name s deps r m,
       In (name, s) (snd pet_kept) ->
       Service.serviceDependencies s = Some deps ->
       In r deps ->
       Obj.get (ref_key r) pet_models = Some m ->
       Obj.get (ref_key r) (fst pet_kept) = Some m.
Proof.
  split; [reflexivity |].
  apply (applyTagFilter_keeps_reachable_models pet_models pet_services
           (Some ["People"]) (fst pet_kept) (snd pet_kept)).
  - apply names_are_keys_Forall. repeat constructor.
  - reflexivity.
Defined.

(** X21: Without the removal of unused models the tag filter cannot
    fail and leaves the models alone: it returns the models as they
    are, with the services whose name passes the test of [includeTags],
    whatever their dependencies are. *)
Theorem applyTagFilter_keeps_all_models (models : Obj.t Model.t)
  (services : Obj.t Service.t) (includeTags : option (list string)) :
  applyTagFilter models services includeTags false
  = Ok (models,
        filter (fun e => included includeTags (fst e)) services).
Proof.
  destruct (applyTagFilter_services includeTags false models services)
    as [models' Hrun]; [discriminate |].
  rewrite Hrun. f_equal. f_equal.
  unfold applyTagFilter in Hrun.
  destruct (forEach (filter_service includeTags false) services
              (services, [])) as [[services1 used] | |];
    try discriminate.
  cbn [bind] in Hrun. now injection Hrun as <- _.
Qed.

(** X22: A retained service whose dependencies were never resolved
    stops the tag filter.  When unused models are to be removed and some
    service that passes the test of [includeTags] has its
    [serviceDependencies] still [undefined], [applyTagFilter] throws a
    TypeError on reading them. *)
Theorem applyTagFilter_unresolved_service_throws
  (models : Obj.t Model.t) (services : Obj.t Service.t)
  (includeTags : option (list string)) (name : string) (s : Service.t) :
  In (name, s) services ->
  included includeTags name = true ->
  Service.serviceDependencies s = None ->
  applyTagFilter models services includeTags true
  = Throw (TypeError
      "Cannot read properties of undefined (reading 'forEach')").
Proof.
  intros Hin Hinc Hnone. unfold applyTagFilter.
  now rewrite (filter_service_throws includeTags services name s
                 Hin Hinc Hnone).
Qed.

Lemma applyTagFilter_unresolved_service_throws_witness :
  applyTagFilter [] [("A", Service.Build "A" [] None)] None true
  = Throw (TypeError
      "Cannot read properties of undefined (reading 'forEach')").
Proof.
  apply (applyTagFilter_unresolved_service_throws []
           [("A", Service.Build "A" [] None)] None "A"
           (Service.Build "A" [] None)).
  - now left.
  - reflexivity.
  - reflexivity.
Defined.

(** ** From the document to the descriptors *)

Lemma processModels_names (swagger : swagger_doc)
  (models : Obj.t Model.t) :
  processModels swagger = Ok models -> names_are_keys models.
Proof.
  intros Hrun k m Hm.
  destruct (processModels_describes _ _ Hrun) as [_ Hd].
  destruct (Hd k m Hm) as [model [d [_ [Hdesc Hs]]]].
  pose proof (describe_model_result k model) as Hr.
  destruct (unsupported model); [congruence |].
  destruct Hr as [d' [Hd' [Hname _]]].
  assert (d' = d) as -> by congruence.
  destruct Hs as [-> _]. exact Hname.
Qed.

Lemma get_Some_has {V : Type} (k : string) (v : V) (o : Obj.t V) :
  Obj.get k o = Some v -> Obj.has k o = true.
Proof. unfold Obj.has. now intros ->. Qed.

Lemma applyTagFilter_without_removal (models : Obj.t Model.t)
  (services : Obj.t Service.t) (includeTags : option (list string)) :
  applyTagFilter models services includeTags false
  = Ok (models,
        filter (fun e => included includeTags (fst e)) services).
Proof.
  destruct (applyTagFilter_services includeTags false models services)
    as [models' Hrun]; [discriminate |].
  rewrite Hrun. f_equal. f_equal.
  unfold applyTagFilter in Hrun.
  destruct (forEach (filter_service includeTags false) services
              (services, [])) as [[services1 used] | |];
    try discriminate.
  cbn [bind] in Hrun. now injection Hrun as <- _.
Qed.

Lemma forallb_impl {A : Type} (f g : A -> bool) (l : list A) :
  (forall x, In x l -> f x = true -> g x = true) ->
  forallb f l = true -> forallb g l = true.
Proof.
  intros Hfg. rewrite !forallb_forall. auto.
Qed.

(** A name that is plain for a part of the models is plain for all of
    them. *)
Lemma plain_name_more (models models0 : Obj.t Model.t) (t : jsType) :
  (forall k, Obj.has k models = true -> Obj.has k models0 = true) ->
  plain_name models t = true -> plain_name models0 t = true.
Proof.
  intros Hmore. unfold plain_name.
  destruct (removeBrackets t) as [name | |]; auto.
  intros H. apply orb_true_iff in H as [H | H]; apply orb_true_iff; auto.
Qed.

Lemma descriptors_plain_members (models : Obj.t Model.t)
  (services : Obj.t Service.t) :
  descriptors_plain models services = true ->
  (forall k m, Obj.get k models = Some m -> model_plain models m = true)
  /\ (forall tag s, Obj.get tag services = Some s ->
        service_plain models s = true).
Proof.
  unfold descriptors_plain. intros H.
  apply andb_true_iff in H as [Hm Hs].
  rewrite forallb_forall in Hm, Hs. split.
  - intros k m Hget. exact (Hm (k, m) (get_In _ _ _ Hget)).
  - intros tag s Hget. exact (Hs (tag, s) (get_In _ _ _ Hget)).
Qed.

(** After the removal of the unused models, the dependencies of what is
    left are left, when what is left hands plain names to its
    resolvers. *)
Lemma applyTagFilter_closed (models0 : Obj.t Model.t)
  (services0 : Obj.t Service.t) (includeTags : option (list string))
  (models : Obj.t Model.t) (services : Obj.t Service.t) :
  names_are_keys models0 ->
  (forall k m, In (k, m) models0 ->
     model_plain models0 m = true ->
     dependencies_good models0 (Model.modelDependencies m)) ->
  (forall k s, In (k, s) services0 ->
     service_plain models0 s = true ->
     dependencies_good models0 (Service.serviceDependencies s)) ->
  applyTagFilter models0 services0 includeTags true
  = Ok (models, services) ->
  descriptors_plain models services = true ->
  (forall tag s deps r,
      Obj.get tag services = Some s ->
      Service.serviceDependencies s = Some deps ->
      In r deps ->
      Obj.has (ref_key r) models = true)
  /\ (forall k m deps r,
        Obj.get k models = Some m ->
        Model.modelDependencies m = Some deps ->
        In r deps ->
        Obj.has (ref_key r) models = true).
Proof.
  intros Hnames Hmdeps Hsdeps Hfilter Hplain.
  destruct (applyTagFilter_models _ _ _ _ _ Hnames Hfilter)
    as [Hs Hkept].
  destruct (descriptors_plain_members _ _ Hplain) as [Hmplain Hsplain].
  assert (Hmore : forall k, Obj.has k models = true ->
                            Obj.has k models0 = true).
  { intros k. unfold Obj.has.
    destruct (Obj.get k models) as [m |] eqn:Hm; [| discriminate].
    apply Hkept in Hm as [-> _]. reflexivity. }
  split.
  - intros tag s deps r Hget Hd Hr. apply get_In in Hget as Hin.
    pose proof Hin as Hin0. rewrite Hs in Hin0.
    apply filter_In in Hin0 as [Hin0 _].
    assert (Hs0 : service_plain models0 s = true).
    { specialize (Hsplain tag s Hget). unfold service_plain in *.
      revert Hsplain. apply forallb_impl. intros op _.
      apply forallb_impl. intros t _. now apply plain_name_more. }
    destruct (Hsdeps tag s Hin0 Hs0 deps Hd) as [Hres _].
    specialize (Hres r Hr). unfold Obj.has in Hres.
    destruct (Obj.get (ref_key r) models0) as [m |] eqn:Hm;
      [| discriminate].
    apply (get_Some_has _ m). apply Hkept. split; [exact Hm |].
    exists tag, s, deps, r. repeat split; auto.
    rewrite <- (Hnames _ _ Hm). now apply reaches_here.
  - intros k m deps e Hk Hd He.
    assert (Hm0 : model_plain models0 m = true).
    { specialize (Hmplain k m Hk). unfold model_plain in *.
      revert Hmplain. apply forallb_impl. intros t _.
      now apply plain_name_more. }
    apply Hkept in Hk
      as [Hk [name [s [sdeps [r [Hin [Hsd [Hr Hreach]]]]]]]].
    destruct (Hmdeps k m (get_In _ _ _ Hk) Hm0 deps Hd) as [Hres _].
    specialize (Hres e He). unfold Obj.has in Hres.
    destruct (Obj.get (ref_key e) models0) as [m' |] eqn:Hm';
      [| discriminate].
    apply (get_Some_has _ m'). apply Hkept. split; [exact Hm' |].
    exists name, s, sdeps, r. repeat split; auto.
    apply (reaches_step models0 Hnames r e k (ref_key e) m deps);
      auto.
    rewrite <- (Hnames _ _ Hm'). now apply reaches_here.
Qed.

(** X23: What is generated refers to what is generated.  When
    [doGenerate] gets as far as the descriptors, whatever the options,
    the document is of version 2.0 and the root URL is made of the first
    scheme, the host and the base path, with [http], [localhost] and [/]
    in their absence; and when the models and services that are left
    hand plain names to their resolvers (no type name that the
    dictionary of models merely inherits, such as [constructor]), every
    dependency of a service that is left is a model that is left, and
    every dependency of a model that is left is a model that is left.
    No definition is called [__proto__]: storing a model under that key
    replaces what the dictionary inherits instead of adding a key. *)
Theorem doGenerate_descriptors_closed (d : document)
  (o : generator_options) (models : Obj.t Model.t)
  (services : Obj.t Service.t) (url : string) :
  Obj.has "__proto__" (definitions (content d)) = false ->
  doGenerate_descriptors d o = Ok (models, services, url) ->
  descriptors_plain models services = true ->
  version d = Some "2.0"
  /\ url = rootUrl d
  /\ (forall tag s deps r,
        Obj.get tag services = Some s ->
        Service.serviceDependencies s = Some deps ->
        In r deps ->
        Obj.has (ref_key r) models = true)
  /\ (forall k m deps r,
        Obj.get k models = Some m ->
        Model.modelDependencies m = Some deps ->
        In r deps ->
        Obj.has (ref_key r) models = true).
Proof.
  intros _. unfold doGenerate_descriptors.
  destruct (version d) as [v |]; [| discriminate].
  destruct (String.eqb_spec v "2.0") as [-> | _]; [| discriminate].
  cbn [negb].
  destruct (processModels (content d)) as [models0 | |] eqn:Hmodels;
    try discriminate.
  cbn [bind].
  destruct (processServices (content d) models0) as [services0 | |]
    eqn:Hservices; try discriminate.
  cbn [bind].
  pose proof (processModels_names _ _ Hmodels) as Hnames.
  pose proof (processModels_dependencies _ _ Hmodels) as Hmdeps.
  pose proof (processServices_dependencies _ _ _ Hservices) as Hsdeps.
  destruct (opt_ignoreUnusedModels o) as [[|] |].
  - destruct (applyTagFilter models0 services0 _ true)
      as [[models' services'] | |] eqn:Hfilter; try discriminate.
    cbn [bind fst snd]. intros [= <- <- <-] Hplain.
    split; [reflexivity |]. split; [reflexivity |].
    exact (applyTagFilter_closed _ _ _ _ _ Hnames Hmdeps Hsdeps Hfilter
             Hplain).
  - rewrite applyTagFilter_without_removal.
    cbn [bind fst snd]. intros [= <- <- <-] Hplain.
    destruct (descriptors_plain_members _ _ Hplain) as [Hmplain Hsplain].
    split; [reflexivity |]. split; [reflexivity |]. split.
    + intros tag s deps r Hget Hd Hr.
      pose proof (Hsplain tag s Hget) as Hs. apply get_In in Hget.
      apply filter_In in Hget as [Hin _].
      destruct (Hsdeps tag s Hin Hs deps Hd) as [Hres _].
      exact (Hres r Hr).
    + intros k m deps e Hk Hd He.
      destruct (Hmdeps k m (get_In _ _ _ Hk) (Hmplain k m Hk) deps Hd)
        as [Hres _].
      exact (Hres e He).
  - destruct (applyTagFilter models0 services0 _ true)
      as [[models' services'] | |] eqn:Hfilter; try discriminate.
    cbn [bind fst snd]. intros [= <- <- <-] Hplain.
    split; [reflexivity |]. split; [reflexivity |].
    exact (applyTagFilter_closed _ _ _ _ _ Hnames Hmdeps Hsdeps Hfilter
             Hplain).
Qed.

Lemma doGenerate_descriptors_closed_witness :
  doGenerate_descriptors pet_document default_options
  = Ok (pet_models, pet_services, "http://localhost/")
  /\ descriptors_plain pet_models pet_services = true
  /\ forall tag s deps r,
       Obj.get tag pet_services = Some s ->
       Service.serviceDependencies s = Some deps ->
       In r deps ->
       Obj.has (ref_key r) pet_models = true.
Proof.
  split; [reflexivity |]. split; [reflexivity |].
  apply (doGenerate_descriptors_closed pet_document default_options
           pet_models pet_services "http://localhost/").
  - reflexivity.
  - reflexivity.
  - reflexivity.
Defined.

(** A property that refers to [constructor], which no definition
    declares: the dictionary of models inherits a member of that name,
    and the resolver of the model keeps a reference to it, which is a
    reference to no model. *)
Example modelDependencies_inherited_member :
  exists models a,
    processModels
      (Swagger
         [("A", schema_object
                  [("p", schema_ref "#/definitions/constructor")])]
         [] [])
    = Ok models
    /\ Obj.get "A" models = Some a
    /\ Model.modelDependencies a = Some [ModelRef "constructor"]
    /\ Obj.has "constructor" models = false
    /\ model_plain models a = false.
Proof. do 2 eexists. repeat split; reflexivity. Qed.

(** The document with two tags on one path, with the options at their
    defaults: the service [A] is left without its dependencies, and the
    tag filter stops on them. *)
Example doGenerate_descriptors_two_tags :
  doGenerate_descriptors
    (Document (Some "2.0") None None None two_tags_one_path)
    default_options
  = Throw (TypeError
      "Cannot read properties of undefined (reading 'forEach')").
Proof. reflexivity. Qed.

(** ** The properties of a model *)

Section Building.

Context {A V : Type}.
Variable f : string -> A -> V.



End Building.



(** A name that is an array index comes first, wherever it is
    declared. *)
Example processProperties_index_first :
  Obj.keys
    (processProperties
       [("b", schema_of_type "string"); ("1", schema_of_type "string")] [])
  = ["1"; "b"].
Proof. reflexivity. Qed.

(** ** An array of inline objects *)

Lemma inline_members_brace (resolve : schema -> jsType)
  (ps : Obj.t schema) :
  forall first ts rest,
  exists rest',
    snd (inline_members resolve ps (first, ts, String "{" rest))
    = String "{" rest'.
Proof.
  induction ps as [| [name prop] ps IH]; intros first ts rest.
  - now exists rest.
  - cbn [inline_members]. destruct first; cbn [String.append]; apply IH.
Qed.

Lemma propertyType_inline_brace (s : schema) (allTypes : list jsType)
  (def : string) :
  propertyType s = TInline allTypes def ->
  exists rest, def = String "{" rest.
Proof.
  destruct s as [ref xtype type items props extra allOf req enum].
  cbn [propertyType].
  destruct ref as [r |].
  { destruct (simpleRef (Some r)); discriminate. }
  destruct (match xtype with Some x => x_truthy x | None => false end).
  { match goal with
    | |- context [if ?c then TString "void" else _] => destruct c
    end; discriminate. }
  repeat match goal with
         | |- (if ?c then _ else _) = _ -> _ =>
             destruct c; try discriminate
         end.
  assert (Hmembers : exists first ts rest,
             match props with
             | Some ps => inline_members propertyType ps (true, [], "{")
             | None => (true, [], "{")
             end = (first, ts, String "{" rest)).
  { destruct props as [ps |].
    - destruct (inline_members_brace propertyType ps true [] "")
        as [rest Hrest].
      destruct (inline_members propertyType ps (true, [], "{"))
        as [[first ts] d]. simpl in Hrest. subst d. eauto.
    - now exists true, [], "". }
  destruct Hmembers as [first [ts [rest ->]]].
  destruct extra as [e |]; intros [= _ <-].
  - destruct first; cbn [String.append]; eauto.
  - cbn [String.append]. eauto.
Qed.

Lemma removeBrackets_brace (rest : string) :
  exists rest',
    removeBrackets (TString (String "{" rest))
    = Ok (TString (String "{" rest')).
Proof.
  unfold removeBrackets, JsString.indexOf.
  change "["%string with (String "[" "").
  rewrite index_char_cons.
  replace (Ascii.eqb "[" "{") with false by reflexivity.
  destruct (String.index 0 (String "[" "") rest) as [n |]; cbn [option_map].
  - destruct (Z.geb_spec (Z.of_nat (S n)) 0) as [_ | H]; [| lia].
    unfold JsString.substr. cbn [String.length].
    replace (0 <? 0)%Z with false by reflexivity.
    rewrite (Z.min_l 0) by lia. rewrite Z.max_l by lia.
    destruct (Z.min_spec (Z.of_nat (S n))
                (Z.of_nat (S (String.length rest)) - 0))
      as [[_ ->] | [_ ->]].
    + rewrite Nat2Z.id. cbn [Z.to_nat String.substring]. eauto.
    + replace (Z.to_nat (Z.of_nat (S (String.length rest)) - 0))
        with (S (String.length rest)) by lia.
      cbn [Z.to_nat String.substring]. eauto.
  - cbn. eauto.
Qed.

Lemma has_Forall_keys {V : Type} (P : string -> Prop) (o : Obj.t V) :
  Forall P (Obj.keys o) -> forall k, Obj.has k o = true -> P k.
Proof.
  intros H k Hk. apply has_In_keys in Hk. rewrite Forall_forall in H.
  auto.
Qed.

(** X25: An array of inline objects adds no dependency.  The type of
    an array whose items are an inline object is the text of that object
    followed by [[]]; the types that the object refers to are not kept
    with it, and unless a model has a name that starts with an opening
    brace, a resolver to which the type is added stays as it is,
    whichever models the object refers to. *)
Theorem array_of_inline_objects_adds_no_dependency
  (models : Obj.t Model.t) (this : DependenciesResolver.t)
  (items : schema) (allTypes : list jsType) (def : string) :
  propertyType items = TInline allTypes def ->
  (forall k, Obj.has k models = true -> String.prefix "{" k = false) ->
  propertyType (schema_array items) = TString (def +++ "[]")
  /\ DependenciesResolver.add models this (propertyType (schema_array items))
     = Ok this.
Proof.
  intros Hitems Hmodels.
  assert (Harray : propertyType (schema_array items)
                   = TString (def +++ "[]")).
  { unfold schema_array. cbn [propertyType]. cbn. now rewrite Hitems. }
  split; [exact Harray |]. rewrite Harray.
  destruct (propertyType_inline_brace _ _ _ Hitems) as [rest ->].
  cbn [String.append].
  destruct (removeBrackets_brace (rest +++ "[]")) as [rest' Hrb].
  apply (add_unknown models this _ _ Hrb); cbn [type_toString].
  - destruct (Obj.has (String "{" rest') models) eqn:Hhas;
      [| reflexivity].
    apply Hmodels in Hhas. simpl in Hhas. destruct rest'; discriminate.
  - reflexivity.
Qed.

Lemma array_of_inline_objects_adds_no_dependency_witness :
  DependenciesResolver.add pet_models
    (DependenciesResolver.new TUndefined)
    (propertyType
       (schema_array
          (schema_object [("pet", schema_ref "#/definitions/Animal")])))
  = Ok (DependenciesResolver.new TUndefined).
Proof.
  apply (array_of_inline_objects_adds_no_dependency pet_models
           (DependenciesResolver.new TUndefined)
           (schema_object [("pet", schema_ref "#/definitions/Animal")])
           [TString "Animal"] "{pet: Animal}").
  - reflexivity.
  - apply has_Forall_keys. repeat constructor.
Defined.

(** ** A parameter given by reference *)

Lemma resolveRef_parameters (swagger : swagger_doc) (key : string) :
  has_char "/" key = false ->
  resolveRef swagger ("#/parameters/" +++ key)
  = Ok (Obj.get key (global_parameters swagger)).
Proof.
  intros Hkey. unfold resolveRef.
  replace (JsString.indexOf ("#/parameters/" +++ key) "#/") with 0%Z
    by reflexivity.
  cbn [Z.eqb negb].
  pose proof (substr_from_suffix "#/" ("parameters/" +++ key)) as Hs.
  change (Z.of_nat (String.length "#/")) with 2%Z in Hs.
  change ("#/" +++ ("parameters/" +++ key))
    with ("#/parameters/" +++ key) in Hs.
  rewrite Hs.
  change ("parameters/" +++ key) with ("parameters" +++ String "/" key).
  rewrite split_app, (split_clean "/" key Hkey).
  reflexivity.
Qed.

(** X26: A parameter given by reference is described as the parameter
    it refers to.  When the [$ref] of a parameter is [#/parameters/]
    followed by a key without [/], the descriptor is the one of the
    parameter that the [parameters] of the document keep under that key
    (one that is no reference itself), whatever else the referring
    object holds; and when they keep no parameter under the key, and
    the key does not name a member that they inherit, such as
    [constructor], the description throws a TypeError. *)
Theorem describe_parameter_by_reference (swagger : swagger_doc)
  (param : parameter) (key : string) :
  has_char "/" key = false ->
  s_ref (p_fields param) = Some ("#/parameters/" +++ key) ->
  (forall target,
      Obj.get key (global_parameters swagger) = Some target ->
      s_ref (p_fields target) = None ->
      describe_parameter swagger param = describe_parameter swagger target)
  /\ (Obj.get key (global_parameters swagger) = None ->
      Obj.inherits key = false ->
      exists message,
        describe_parameter swagger param = Throw (TypeError message)).
Proof.
  intros Hkey Href. split.
  - intros target Htarget Hnoref. unfold describe_parameter.
    rewrite Href, Hnoref.
    replace (String.eqb ("#/parameters/" +++ key) "") with false
      by reflexivity.
    now rewrite (resolveRef_parameters swagger key Hkey), Htarget.
  - intros Hnone _. unfold describe_parameter. rewrite Href.
    replace (String.eqb ("#/parameters/" +++ key) "") with false
      by reflexivity.
    rewrite (resolveRef_parameters swagger key Hkey), Hnone.
    eexists. reflexivity.
Qed.

Lemma describe_parameter_by_reference_witness :
  describe_parameter
    (Swagger [] [] [("limit", query_parameter "limit" true)])
    (ParameterObject "" "" false None
       (schema_ref "#/parameters/limit") None)
  = describe_parameter
      (Swagger [] [] [("limit", query_parameter "limit" true)])
      (query_parameter "limit" true)
  /\ exists message,
       describe_parameter
         (Swagger [] [] [("limit", query_parameter "limit" true)])
         (ParameterObject "" "" false None
            (schema_ref "#/parameters/offset") None)
       = Throw (TypeError message).
Proof.
  split.
  - apply (proj1 (describe_parameter_by_reference
                    (Swagger [] [] [("limit", query_parameter "limit" true)])
                    (ParameterObject "" "" false None
                       (schema_ref "#/parameters/limit") None)
                    "limit" eq_refl eq_refl)
             (query_parameter "limit" true)).
    + reflexivity.
    + reflexivity.
  - apply (proj2 (describe_parameter_by_reference
                    (Swagger [] [] [("limit", query_parameter "limit" true)])
                    (ParameterObject "" "" false None
                       (schema_ref "#/parameters/offset") None)
                    "offset" eq_refl eq_refl)).
    + reflexivity.
    + reflexivity.
Defined.

(** ** A path without operations *)

Lemma process_operation_null (swagger : swagger_doc)
  (models : Obj.t Model.t) (url : string) (path : pathItem) :
  Forall (fun e => snd e = None) path ->
  forall st,
    forEach (process_operation swagger models url) path st = Ok st.
Proof.
  induction 1 as [| [method def] path Hdef _ IH]; intros st;
    [reflexivity |].
  simpl in Hdef. subst def. rewrite forEach_cons.
  destruct st as [services tag]. cbn [process_operation bind]. apply IH.
Qed.

(** X27: A first path without operations stops [processServices].
    When the first path of the document declares no operation, or only
    [null] ones, there is no service yet whose dependencies could be
    resolved after it, and [processServices] throws a TypeError on
    reading the operations of [undefined], whatever paths follow. *)
Theorem processServices_empty_first_path_throws (swagger : swagger_doc)
  (models : Obj.t Model.t) (url : string) (path : pathItem)
  (others : Obj.t pathItem) :
  paths swagger = (url, path) :: others ->
  Forall (fun e => snd e = None) path ->
  processServices swagger models
  = Throw (TypeError
      "Cannot read properties of undefined (reading 'serviceOperations')").
Proof.
  intros Hpaths Hnull. unfold processServices. rewrite Hpaths.
  rewrite forEach_cons. unfold process_path at 1.
  now rewrite (process_operation_null swagger models url path Hnull).
Qed.

Lemma processServices_empty_first_path_throws_witness :
  processServices (Swagger [] [("/ping", [("get", None)])] []) []
  = Throw (TypeError
      "Cannot read properties of undefined (reading 'serviceOperations')").
Proof.
  apply (processServices_empty_first_path_throws
           (Swagger [] [("/ping", [("get", None)])] []) []
           "/ping" [("get", None)] []).
  - reflexivity.
  - repeat constructor.
Defined.
